(** * Taildrop receive path: [incomingFile.Write] and [Manager.PutFile]

    A shallow embedding of [taildrop/send.go].  The operating system, the
    clock and the reader are made explicit: the file system is a finite map
    from paths to contents, every fallible system call takes its outcome
    from an oracle ([Oracle]), and every call the code makes is appended to
    a trace, so that statements about what the code does are statements
    about that trace and about the final file system. *)

From Stdlib Require Import ZArith Lia Strings.Byte.
From stdpp Require Import base gmap strings list.

Local Open Scope Z_scope.

(** ** Machine integers and time *)

(** Go's [int64], as a [Z] with the wrap-around written out. *)
Definition int64_min : Z := - 2 ^ 63.
Definition int64_max : Z := 2 ^ 63 - 1.
Definition wrap64 (z : Z) : Z := (z + 2 ^ 63) mod 2 ^ 64 - 2 ^ 63.

(** [time.Time] as nanoseconds since the zero instant (January 1, year 1,
    00:00:00 UTC); [time.Duration] is an [int64] count of nanoseconds. *)
Abbreviation Time := Z.
Abbreviation Duration := Z.
Definition Second : Duration := 1000000000.

Definition IsZero (t : Time) : bool := t =? 0.

(** [Time.Sub] saturates at the largest and smallest [Duration]. *)
Definition Sub (t u : Time) : Duration :=
  if int64_max <? t - u then int64_max
  else if t - u <? int64_min then int64_min
  else t - u.

(** ** Errors *)

(** The values of Go's [error] interface that the receive path produces or
    passes on.  [nil] is [None] of [option error]. *)
Inductive error :=
| ErrNoTaildrop
| ErrNotAccessible
| ErrFileExists
| ErrShortWrite
| PathError (op path msg : string)
| LinkError (op old new msg : string)
| errorString (msg : string).

Abbreviation goerror := (option error).

#[global] Instance error_eq_dec : EqDecision error.
Proof. solve_decision. Defined.

(** Modelled from the spec: [redactErr] is declared outside [send.go].  The
    spec says file-system error messages are "redacted (stripped of absolute
    path detail)" while the error "retains enough information to distinguish
    the taxonomy": the paths carried by an error are replaced by a
    placeholder, every other error is returned as it is, and there is
    nothing to redact in [nil]. *)
Definition redactString (s : string) : string := "redacted".

Definition redactErr (root : goerror) : goerror :=
  match root with
  | None => None
  | Some (PathError op path msg) => Some (PathError op (redactString path) msg)
  | Some (LinkError op old new msg) =>
      Some (LinkError op (redactString old) (redactString new) msg)
  | Some e => Some e
  end.

(** ** The progress-notifying writer *)

Abbreviation ClientID := string.

Record incomingFileKey := mkKey { id : ClientID; name : string }.

#[global] Instance incomingFileKey_eq_dec : EqDecision incomingFileKey.
Proof. solve_decision. Defined.

#[global] Instance incomingFileKey_countable : Countable incomingFileKey :=
  inj_countable' (fun k => (id k, name k)) (fun p => mkKey p.1 p.2)
                 (fun k => match k with mkKey _ _ => eq_refl end).

(** The data fields of [incomingFile].  The clock, the underlying writer,
    the callback and the mutex are the environment of [Write] below. *)
Record incomingFile := mkIncoming {
  started : Time;
  size : Z;               (* or -1 if unknown *)
  partialPath : string;   (* non-empty in direct mode *)
  copied : Z;
  done : bool;
  lastNotify : Time
}.

Definition set_copied (f : incomingFile) (c : Z) : incomingFile :=
  mkIncoming (started f) (size f) (partialPath f) c (done f) (lastNotify f).
Definition set_lastNotify (f : incomingFile) (t : Time) : incomingFile :=
  mkIncoming (started f) (size f) (partialPath f) (copied f) (done f) t.
Definition set_done (f : incomingFile) (d : bool) : incomingFile :=
  mkIncoming (started f) (size f) (partialPath f) (copied f) d (lastNotify f).

(** [incomingFile.Write], after the underlying writer has returned [n]
    (and some error, which [Write] passes on untouched): the new state and
    the value of [needNotify], that is, whether the deferred function calls
    [sendFileNotify].  [now] is what [f.clock.Now()] returns; it is read only
    when [n > 0]. *)
Definition Write (f : incomingFile) (n : Z) (now : Time) : incomingFile * bool :=
  if 0 <? n then
    let f := set_copied f (wrap64 (copied f + n)) in
    if IsZero (lastNotify f) || (Second <? Sub now (lastNotify f))
    then (set_lastNotify f now, true)
    else (f, false)
  else (f, false).

(** A sequence of writes through one [incomingFile]: each element is the
    count the underlying writer returned and the clock reading at that
    write.  The result lists, write by write, whether the notifier fired. *)
Fixpoint Writes (f : incomingFile) (ws : list (Z * Time)) : list bool :=
  match ws with
  | [] => []
  | (n, now) :: ws =>
      let '(f', fired) := Write f n now in
      fired :: Writes f' ws
  end.

(** The clock never reads the zero instant, which [lastNotify] reserves for
    "never notified". *)
Definition readingsNonZero (ws : list (Z * Time)) : Prop :=
  ∀ i n t, ws !! i = Some (n, t) → 0 < n → t ≠ 0.

(** Two writes that both notify are more than a second apart. *)
Definition spaced (ws : list (Z * Time)) (fired : list bool) : Prop :=
  ∀ i j ni ti nj tj,
    (i < j)%nat →
    ws !! i = Some (ni, ti) → ws !! j = Some (nj, tj) →
    fired !! i = Some true → fired !! j = Some true →
    Second < tj - ti.

(** The state [LoadOrInit]'s factory builds in [PutFile]. *)
Definition newIncomingFile (now : Time) (length : Z) (direct : bool)
    (partial : string) : incomingFile :=
  mkIncoming now length (if direct then partial else "") 0 false 0.

(** ** The world [PutFile] runs in *)

Abbreviation bytes := (list byte).

Inductive StatResult :=
| StatNotExist
| StatError (e : error)
| StatOK (fileSize : Z).

(** Every call [PutFile] makes on the operating system, on the logger, on
    [renameMu] and on the notifier, in the order it makes them. *)
Inductive event :=
| EvLogf (action : string) (err : goerror)
| EvOpenFile (path : string)            (* os.O_CREATE|os.O_RDWR, 0666 *)
| EvSeekEnd
| EvSeekStart (offset : Z)
| EvTruncate (newSize : Z)
| EvFileWrite (p : bytes) (n : Z)
| EvClose
| EvRemove (path : string)
| EvLock
| EvUnlock
| EvStat (path : string) (r : StatResult)
| EvRename (oldpath newpath : string)
| EvSha256File (path : string)
| EvNotify.

#[global] Instance StatResult_eq_dec : EqDecision StatResult.
Proof. solve_decision. Defined.

#[global] Instance byte_eq_dec : EqDecision byte.
Proof. intros a b. destruct (Byte.byte_eq_dec a b); [left|right]; done. Defined.

#[global] Instance event_eq_dec : EqDecision event.
Proof. solve_decision. Defined.

Record World := mkWorld {
  fs : gmap string bytes;                               (* the disk *)
  incomingFiles : gmap incomingFileKey incomingFile;    (* m.incomingFiles *)
  knownEmpty : bool;                                    (* m.knownEmpty *)
  clockReads : nat;            (* how often m.Clock.Now() was called *)
  trace : list event
}.

Definition set_fs (w : World) (d : gmap string bytes) : World :=
  mkWorld d (incomingFiles w) (knownEmpty w) (clockReads w) (trace w).
Definition set_incomingFiles (w : World)
    (r : gmap incomingFileKey incomingFile) : World :=
  mkWorld (fs w) r (knownEmpty w) (clockReads w) (trace w).
Definition set_knownEmpty (w : World) (b : bool) : World :=
  mkWorld (fs w) (incomingFiles w) b (clockReads w) (trace w).
Definition emit (e : event) (w : World) : World :=
  mkWorld (fs w) (incomingFiles w) (knownEmpty w) (clockReads w) (trace w ++ [e]).

(** What the environment answers during one call: the clock's readings and,
    for each fallible system call, whether it fails for a reason of its own
    (a full disk, a permission, a cancelled reader).  Failures that follow
    from the state of the disk (a missing file) are computed, not chosen. *)
Record Oracle := mkOracle {
  clockNow : nat -> Time;
  openFault : goerror;
  seekEndFault : goerror;
  seekStartFault : goerror;
  truncateFault : goerror;
  writeFault : nat -> option (nat * goerror);  (* a short write and its error *)
  closeFault : goerror;
  statFault : nat -> goerror;        (* indexed by the value of maxRetries *)
  renameFault : nat -> goerror;
  partialSumFault : goerror;
  dstSumFault : nat -> goerror;
  removeFault : goerror
}.

(** [m.Clock.Now()]. *)
Definition Now (o : Oracle) (w : World) : Time * World :=
  (clockNow o (clockReads w),
   mkWorld (fs w) (incomingFiles w) (knownEmpty w) (S (clockReads w)) (trace w)).

(** [sendFileNotify()]: the callback of the manager, or the no-op that
    stands in for a nil one. *)
Definition sendFileNotify (w : World) : World := emit EvNotify w.

(** The closure [redactAndLogError] of [PutFile]. *)
Definition redactAndLogError (action : string) (err : goerror) (w : World)
    : goerror * World :=
  let err := redactErr err in
  (err, emit (EvLogf action err) w).

(** *** System calls *)

(** [os.OpenFile(path, os.O_CREATE|os.O_RDWR, 0666)]: no [O_TRUNC], so an
    existing file keeps its content. *)
Definition OpenFile (o : Oracle) (path : string) (w : World) : goerror * World :=
  let w := emit (EvOpenFile path) w in
  match openFault o with
  | Some e => (Some e, w)
  | None =>
      match fs w !! path with
      | Some _ => (None, w)
      | None => (None, set_fs w (<[path := []]> (fs w)))
      end
  end.

Definition content (w : World) (path : string) : bytes :=
  default [] (fs w !! path).

(** [f.Seek(0, io.SeekEnd)]. *)
Definition SeekEnd (o : Oracle) (path : string) (w : World)
    : (Z * goerror) * World :=
  let w := emit EvSeekEnd w in
  match seekEndFault o with
  | Some e => ((0, Some e), w)
  | None => ((Z.of_nat (length (content w path)), None), w)
  end.

(** [f.Seek(offset, io.SeekStart)]. *)
Definition SeekStart (o : Oracle) (offset : Z) (w : World) : goerror * World :=
  (seekStartFault o, emit (EvSeekStart offset) w).

(** [f.Truncate(size)]; a file shorter than [size] is extended with zeros. *)
Definition truncateTo (c : bytes) (n : nat) : bytes :=
  take n c ++ replicate (n - length c) x00.

Definition Truncate (o : Oracle) (path : string) (newSize : Z) (w : World)
    : goerror * World :=
  let w := emit (EvTruncate newSize) w in
  match truncateFault o with
  | Some e => (Some e, w)
  | None =>
      (None, set_fs w (<[path := truncateTo (content w path) (Z.to_nat newSize)]> (fs w)))
  end.

(** Writing [p] at position [pos] of a file: bytes before [pos] and bytes
    after [pos + len(p)] stay. *)
Definition writeAt (c : bytes) (pos : nat) (p : bytes) : bytes :=
  truncateTo c pos ++ p ++ drop (pos + length p) c.

(** [f.Write(p)] on the file handle at position [pos]: the [k]-th write of
    the call writes all of [p], or a prefix of it together with an error. *)
Definition FileWrite (o : Oracle) (path : string) (k : nat) (pos : Z)
    (p : bytes) (w : World) : (Z * goerror) * World :=
  let '(n, err) :=
    match writeFault o k with
    | Some (n, e) => (Nat.min n (length p), e)
    | None => (length p, None)
    end in
  let w := set_fs w (<[path := writeAt (content w path) (Z.to_nat pos) (take n p)]> (fs w)) in
  ((Z.of_nat n, err), emit (EvFileWrite p (Z.of_nat n)) w).

(** [f.Close()]. *)
Definition Close (o : Oracle) (w : World) : goerror * World :=
  (closeFault o, emit EvClose w).

(** [os.Remove(path)]. *)
Definition Remove (o : Oracle) (path : string) (w : World) : goerror * World :=
  let w := emit (EvRemove path) w in
  match removeFault o with
  | Some e => (Some e, w)
  | None =>
      match fs w !! path with
      | None => (Some (PathError "remove" path "no such file or directory"), w)
      | Some _ => (None, set_fs w (delete path (fs w)))
      end
  end.

(** [os.Rename(oldpath, newpath)]: replaces [newpath] if it exists. *)
Definition Rename (o : Oracle) (k : nat) (oldpath newpath : string) (w : World)
    : goerror * World :=
  let w := emit (EvRename oldpath newpath) w in
  match renameFault o k with
  | Some e => (Some e, w)
  | None =>
      match fs w !! oldpath with
      | None =>
          (Some (LinkError "rename" oldpath newpath "no such file or directory"), w)
      | Some c => (None, set_fs w (<[newpath := c]> (delete oldpath (fs w))))
      end
  end.

(** ** What [send.go] takes from the rest of the program *)

Inductive Distro := Unraid | OtherDistro.

#[global] Instance Distro_eq_dec : EqDecision Distro.
Proof. solve_decision. Defined.

Record Manager := mkManager {
  Dir : string;
  DirectFileMode : bool;
  AvoidFinalRename : bool
}.

(** Declarations [PutFile] uses and [send.go] does not contain: they are
    parameters of the development.  [joinDir] returns the full path or an
    error, [partialSuffix] the suffix of a sender's partial files,
    [NextFilename] the next candidate name, [sha256Sum] the digest of a
    content; [CanTaildrop] and [distroGet] are what [envknob.CanTaildrop()]
    and [distro.Get()] answer. *)
Record Ext := mkExt {
  digest : Type;
  digest_eq_dec : EqDecision digest;
  sha256Sum : bytes -> digest;
  joinDir : Manager -> string -> string * goerror;
  partialSuffix : ClientID -> string;
  NextFilename : string -> string;
  CanTaildrop : bool;
  distroGet : Distro
}.

#[global] Existing Instance digest_eq_dec.

(** Modelled from the spec: [m.incomingFiles.LoadOrInit] and [Delete] belong
    to a map type declared outside [send.go].  The spec's contract:
    "atomically returns the existing state for key if present, otherwise
    constructs one via factory and inserts it, returning
    alreadyExisted=false"; "delete(key) removes an entry unconditionally".
    The factory runs only when the key is absent. *)
Definition LoadOrInit (k : incomingFileKey) (init : World -> incomingFile * World)
    (w : World) : (incomingFile * bool) * World :=
  match incomingFiles w !! k with
  | Some v => ((v, true), w)
  | None =>
      let '(v, w) := init w in
      ((v, false), set_incomingFiles w (<[k := v]> (incomingFiles w)))
  end.

Definition Delete (k : incomingFileKey) (w : World) : World :=
  set_incomingFiles w (delete k (incomingFiles w)).

(** The registry holds a pointer to the [incomingFile]: a change of the
    state is seen through the registry. *)
Definition storeIncoming (k : incomingFileKey) (f : incomingFile) (w : World)
    : World :=
  set_incomingFiles w (<[k := f]> (incomingFiles w)).

(** ** [io.Copy(inFile, r)] *)

(** A reader is the sequence of results of its [Read] calls: the bytes of
    one call and whether it reports no error, [io.EOF] or an error.  After
    the last element the reader reports [io.EOF]. *)
Inductive readStatus := ReadMore | ReadEOF | ReadErr (e : error).
Abbreviation Reader := (list (bytes * readStatus)).

(** [inFile.Write(p)] with the partial file as underlying writer. *)
Definition inFileWrite (o : Oracle) (key : incomingFileKey) (path : string)
    (k : nat) (pos : Z) (inFile : incomingFile) (p : bytes) (w : World)
    : (Z * goerror) * incomingFile * World :=
  let '((n, err), w) := FileWrite o path k pos p w in
  if 0 <? n then
    let '(now, w) := Now o w in
    let '(inFile, needNotify) := Write inFile n now in
    let w := storeIncoming key inFile w in
    ((n, err), inFile, if needNotify then sendFileNotify w else w)
  else ((n, err), inFile, w).

(** The loop of [io.Copy] ([incomingFile] has no [ReadFrom], so the copy goes
    through [Write]): [k] counts the writes, [pos] is the position of the
    file handle, [written] the running count.  A read that returns no bytes
    writes nothing.  The file never reports more bytes than it was given, so
    the library's guard against an invalid count has no case here. *)
Fixpoint ioCopy (o : Oracle) (key : incomingFileKey) (path : string)
    (r : Reader) (k : nat) (pos : Z) (written : Z) (inFile : incomingFile)
    (w : World) : (Z * goerror) * incomingFile * World :=
  match r with
  | [] => ((written, None), inFile, w)
  | (p, er) :: r =>
      let continue written k pos inFile w :=
        match er with
        | ReadMore => ioCopy o key path r k pos written inFile w
        | ReadEOF => ((written, None), inFile, w)
        | ReadErr e => ((written, Some e), inFile, w)
        end in
      match p with
      | [] => continue written k pos inFile w
      | _ :: _ =>
          let '((nw, ew), inFile, w) := inFileWrite o key path k pos inFile p w in
          let written := wrap64 (written + nw) in
          match ew with
          | Some e => ((written, Some e), inFile, w)
          | None =>
              if negb (Z.of_nat (length p) =? nw)
              then ((written, Some ErrShortWrite), inFile, w)
              else continue written (S k) (pos + nw) inFile w
          end
      end
  end.

(** ** [sha256File] *)

Definition sha256File (X : Ext) (fault : goerror) (file : string) (w : World)
    : (option (digest X) * goerror) * World :=
  let w := emit (EvSha256File file) w in
  match fault with
  | Some e => ((None, Some e), w)
  | None =>
      match fs w !! file with
      | None => ((None, Some (PathError "open" file "no such file or directory")), w)
      | Some c => ((Some (sha256Sum X c), None), w)
      end
  end.

(** ** [Manager.PutFile] *)

Section PutFile.
Variable X : Ext.
Variable o : Oracle.

(** The function literal of lines 196-207: under [renameMu], stat the
    destination and rename the partial file onto it if it does not exist.
    [k] is the value of [maxRetries]. *)
Definition statRename (k : nat) (partialPath dstPath : string) (w : World)
    : (Z * goerror) * World :=
  let w := emit EvLock w in
  let '(res, w) :=
    match statFault o k with
    | Some e => ((-1, Some e), emit (EvStat dstPath (StatError e)) w)
    | None =>
        match fs w !! dstPath with
        | None =>
            let w := emit (EvStat dstPath StatNotExist) w in
            let '(err, w) := Rename o k partialPath dstPath w in
            ((-1, err), w)
        | Some c =>
            let n := Z.of_nat (length c) in
            ((n, None), emit (EvStat dstPath (StatOK n)) w)
        end
    end in
  (res, emit EvUnlock w).

(** [computePartialSum()]: [sync.OnceValues] runs [sha256File] at the first
    call and answers later calls from [memo]. *)
Definition computePartialSum (memo : option (digest X)) (partialPath : string)
    (w : World) : (option (digest X) * goerror) * World :=
  match memo with
  | Some d => ((Some d, None), w)
  | None => sha256File X (partialSumFault o) partialPath w
  end.

(** How one round of the [for] loop of lines 192-235 ends: by a [return],
    by a [break], or at line 234 with the memo of [computePartialSum]. *)
Inductive bodyExit :=
| BodyReturn (n : Z) (err : goerror)
| BodyBreak
| BodyNext (memo : option (digest X)).

(** Lines 193-231: one round, for the candidate [dstPath]. *)
Definition loopBody (maxRetries : nat) (partialPath dstPath : string)
    (fileLength : Z) (memo : option (digest X)) (w : World)
    : bodyExit * World :=
  let '((dstLength, err), w) := statRename maxRetries partialPath dstPath w in
  match err with
  | Some _ =>
      let '(err, w) := redactAndLogError "Rename" err w in
      (BodyReturn 0 err, w)
  | None =>
      if dstLength <? 0 then (BodyBreak, w)
      else if dstLength =? fileLength then
        match computePartialSum memo partialPath w with
        | ((Some partialSum, None), w) =>
            match sha256File X (dstSumFault o maxRetries) dstPath w with
            | ((Some dstSum, None), w) =>
                if decide (dstSum = partialSum) then
                  match Remove o partialPath w with
                  | (Some e, w) =>
                      let '(err, w) := redactAndLogError "Remove" (Some e) w in
                      (BodyReturn 0 err, w)
                  | (None, w) => (BodyBreak, w)
                  end
                else (BodyNext (Some partialSum), w)
            | ((_, err), w) =>
                let '(err, w) := redactAndLogError "Rename" err w in
                (BodyReturn 0 err, w)
            end
        | ((_, err), w) =>
            let '(err, w) := redactAndLogError "Rename" err w in
            (BodyReturn 0 err, w)
        end
      else (BodyNext memo, w)
  end.

(** How the loop is left: by a [return], or past its end with the value
    [maxRetries] then has (a [break] leaves it as it is). *)
Inductive loopExit :=
| LoopReturn (n : Z) (err : goerror)
| LoopDone (maxRetries : nat).

(** Lines 191-235: [for ; maxRetries > 0; maxRetries--], with
    [dstPath = NextFilename(dstPath)] at the end of a round. *)
Fixpoint renameLoop (maxRetries : nat) (partialPath dstPath : string)
    (fileLength : Z) (memo : option (digest X)) (w : World)
    : loopExit * World :=
  match maxRetries with
  | O => (LoopDone 0, w)
  | S retriesLeft =>
      match loopBody maxRetries partialPath dstPath fileLength memo w with
      | (BodyReturn n err, w) => (LoopReturn n err, w)
      | (BodyBreak, w) => (LoopDone maxRetries, w)
      | (BodyNext memo, w) =>
          renameLoop retriesLeft partialPath (NextFilename X dstPath)
                     fileLength memo w
      end
  end.

(** Lines 185-241: the finalize protocol. *)
Definition finalize (partialPath dstPath : string) (fileLength : Z) (w : World)
    : (Z * goerror) * World :=
  match renameLoop 10 partialPath dstPath fileLength None w with
  | (LoopReturn n err, w) => ((n, err), w)
  | (LoopDone maxRetries, w) =>
      if (Z.of_nat maxRetries <=? 0)
      then ((0, Some (errorString "too many retries trying to rename partial file")), w)
      else
        let w := set_knownEmpty w false in
        let w := sendFileNotify w in
        ((fileLength, None), w)
  end.

(** Lines 143-159: resuming at a non-zero offset.  The result is the pair
    [PutFile] returns when this part returns, or the position of the file
    handle.  In the branch of line 150 the variable [err] is the one
    [f.Seek(0, io.SeekEnd)] assigned, which is [nil] there. *)
Definition resume (partialPath : string) (offset : Z) (w : World)
    : ((Z * goerror) + Z) * World :=
  if negb (offset =? 0) then
    let '((currLength, err), w) := SeekEnd o partialPath w in
    match err with
    | Some _ =>
        let '(err, w) := redactAndLogError "Seek" err w in (inl (0, err), w)
    | None =>
        if (offset <? 0) || (currLength <? offset) then
          let '(err, w) := redactAndLogError "Seek" err w in (inl (0, err), w)
        else
          match SeekStart o offset w with
          | (Some e, w) =>
              let '(err, w) := redactAndLogError "Seek" (Some e) w in
              (inl (0, err), w)
          | (None, w) =>
              match Truncate o partialPath offset w with
              | (Some e, w) =>
                  let '(err, w) := redactAndLogError "Truncate" (Some e) w in
                  (inl (0, err), w)
              | (None, w) => (inr offset, w)
              end
          end
    end
  else (inr 0, w).

(** Lines 161-241, with the file handle at [pos].  Besides the pair
    [PutFile] returns, the result carries the value the function's own
    variable [err] has at that return: [io.Copy] is the last to assign it
    (the later [err]s are declared in inner scopes, and the results are
    unnamed), and the deferred function reads it. *)
Definition copyAndFinalize (avoidPartialRename : bool) (key : incomingFileKey)
    (partialPath dstPath : string) (r : Reader) (pos offset length : Z)
    (inFile : incomingFile) (w : World) : (Z * goerror) * goerror * World :=
  let '((copyLength, err), inFile, w) :=
    ioCopy o key partialPath r 0 pos 0 inFile w in
  match err with
  | Some _ =>
      let '(e, w) := redactAndLogError "Copy" err w in ((0, e), err, w)
  | None =>
      if (0 <=? length) && negb (copyLength =? length) then
        let '(e, w) :=
          redactAndLogError "Copy"
            (Some (errorString "copied an unexpected number of bytes")) w in
        ((0, e), None, w)
      else
        match Close o w with
        | (Some e, w) =>
            let '(e, w) := redactAndLogError "Close" (Some e) w in
            ((0, e), None, w)
        | (None, w) =>
            let fileLength := wrap64 (offset + copyLength) in
            if avoidPartialRename then
              let w := storeIncoming key (set_done inFile true) w in
              let w := set_knownEmpty w false in
              let w := sendFileNotify w in
              ((fileLength, None), None, w)
            else
              let '(res, w) := finalize partialPath dstPath fileLength w in
              (res, None, w)
        end
  end.

(** The deferred function of lines 129-140; [err] is the function's
    variable [err] at the time of the return. *)
Definition deferredCleanup (avoidPartialRename : bool) (partialPath : string)
    (err : goerror) (w : World) : World :=
  let '(_, w) := Close o w in
  match err with
  | Some _ => if avoidPartialRename then (Remove o partialPath w).2 else w
  | None => w
  end.

(** Lines 124-241: the call once it is admitted. *)
Definition receiveAndPublish (avoidPartialRename : bool) (key : incomingFileKey)
    (partialPath dstPath : string) (r : Reader) (offset length : Z)
    (inFile : incomingFile) (w : World) : (Z * goerror) * World :=
  match OpenFile o partialPath w with
  | (Some e, w) =>
      let '(e, w) := redactAndLogError "Create" (Some e) w in ((0, e), w)
  | (None, w) =>
      let '(res, err, w) :=
        match resume partialPath offset w with
        | (inl res, w) => (res, None, w)
        | (inr pos, w) =>
            copyAndFinalize avoidPartialRename key partialPath dstPath r
                            pos offset length inFile w
        end in
      (res, deferredCleanup avoidPartialRename partialPath err w)
  end.

(** The function literal of lines 107-118, which builds the state of a
    new transfer. *)
Definition factory (m : Manager) (length : Z) (partialPath : string)
    (w : World) : incomingFile * World :=
  let '(now, w) := Now o w in
  (newIncomingFile now length (DirectFileMode m) partialPath, w).

Definition PutFile (m : option Manager) (id : ClientID) (baseName : string)
    (r : Reader) (offset length : Z) (w : World) : (Z * goerror) * World :=
  match m with
  | None => ((0, Some ErrNoTaildrop), w)
  | Some m =>
      if decide (Dir m = "") then ((0, Some ErrNoTaildrop), w)
      else if negb (CanTaildrop X) then ((0, Some ErrNoTaildrop), w)
      else if bool_decide (distroGet X = Unraid) && negb (DirectFileMode m)
      then ((0, Some ErrNotAccessible), w)
      else
        match joinDir X m baseName with
        | (_, Some e) => ((0, Some e), w)
        | (dstPath, None) =>
            let avoidPartialRename := DirectFileMode m && AvoidFinalRename m in
            let id := if avoidPartialRename then "" else id in
            let partialPath := dstPath +:+ partialSuffix X id in
            let inFileKey := mkKey id baseName in
            let '((inFile, loaded), w) :=
              LoadOrInit inFileKey (factory m length partialPath) w in
            if loaded then ((0, Some ErrFileExists), w)
            else
              let '(res, w) :=
                receiveAndPublish avoidPartialRename inFileKey partialPath dstPath
                            r offset length inFile w in
              (res, Delete inFileKey w)
        end
  end.
End PutFile.

Arguments BodyReturn {X}.
Arguments BodyBreak {X}.
Arguments BodyNext {X}.

(** ** A concrete instance

    One choice of the parameters, used to run the model on examples: the
    digest of a content is the content itself, the storage root is joined
    with a slash, a sender's partial files end in [.<id>.partial], and the
    next candidate name appends a tilde. *)
Definition exampleExt : Ext :=
  mkExt bytes _ (fun c => c)
        (fun m base => (Dir m +:+ "/" +:+ base, None))
        (fun id => if decide (id = "") then ".partial"
                   else "." +:+ id +:+ ".partial")
        (fun p => p +:+ "~")
        true OtherDistro.

(** The oracle of a call during which no system call fails for a reason of
    its own and the clock reads [t0 + k] seconds at its [k]-th reading. *)
Definition quietOracle (t0 : Time) : Oracle :=
  mkOracle (fun k => t0 + Z.of_nat k * Second) None None None None
           (fun _ => None) None (fun _ => None) (fun _ => None) None
           (fun _ => None) None.

Definition emptyWorld : World := mkWorld ∅ ∅ true 0 [].

Definition exampleManager : Manager := mkManager "/d" false false.

(** ** Vocabulary of the statements *)

(** The events a call appended to the trace. *)
Definition newEvents (w w' : World) : list event :=
  drop (length (trace w)) (trace w').

(** The sender identity [PutFile] works with (line 94-98), the key it
    claims, and the path of its partial file. *)
Definition effectiveID (m : Manager) (id : ClientID) : ClientID :=
  if DirectFileMode m && AvoidFinalRename m then "" else id.
Definition keyOf (m : Manager) (id : ClientID) (baseName : string)
    : incomingFileKey :=
  mkKey (effectiveID m id) baseName.
Definition dstPathOf (X : Ext) (m : Manager) (baseName : string) : string :=
  (joinDir X m baseName).1.
Definition partialPathOf (X : Ext) (m : Manager) (id : ClientID)
    (baseName : string) : string :=
  dstPathOf X m baseName +:+ partialSuffix X (effectiveID m id).

(** The checks of lines 74-85 pass. *)
Definition usable (X : Ext) (m : Manager) (baseName : string) : Prop :=
  Dir m ≠ "" ∧ CanTaildrop X = true ∧
  (distroGet X = Unraid → DirectFileMode m = true) ∧
  (joinDir X m baseName).2 = None.

(** The state in which a call arrives at [io.Copy] (line 162): the
    [incomingFile], the position of the file handle and the world; [None]
    when the call returns before. *)
Definition beforeCopy (X : Ext) (o : Oracle) (m : Manager) (id : ClientID)
    (baseName : string) (offset length : Z) (w : World)
    : option (incomingFile * Z * World) :=
  let partialPath := partialPathOf X m id baseName in
  let '((inFile, loaded), w) :=
    LoadOrInit (keyOf m id baseName) (factory o m length partialPath) w in
  if loaded then None
  else
    match OpenFile o partialPath w with
    | (Some _, _) => None
    | (None, w) =>
        match resume o partialPath offset w with
        | (inl _, _) => None
        | (inr pos, w) => Some (inFile, pos, w)
        end
    end.

(** What draining a reader yields: the bytes and the error that ends it. *)
Fixpoint readAll (r : Reader) : bytes * goerror :=
  match r with
  | [] => ([], None)
  | (p, ReadMore) :: r => let '(d, e) := readAll r in (p ++ d, e)
  | (p, ReadEOF) :: _ => (p, None)
  | (p, ReadErr e) :: _ => (p, Some e)
  end.

(** No system call fails for a reason of its own. *)
Definition faultless (o : Oracle) : Prop :=
  openFault o = None ∧ seekEndFault o = None ∧ seekStartFault o = None ∧
  truncateFault o = None ∧ (∀ k, writeFault o k = None) ∧
  closeFault o = None ∧ (∀ k, statFault o k = None) ∧
  (∀ k, renameFault o k = None) ∧ partialSumFault o = None ∧
  (∀ k, dstSumFault o k = None) ∧ removeFault o = None.

(** *** Observers of the trace *)

Definition isRename (e : event) : bool :=
  match e with EvRename _ _ => true | _ => false end.
Definition isRemove (e : event) : bool :=
  match e with EvRemove _ => true | _ => false end.
Definition isLogf (e : event) : bool :=
  match e with EvLogf _ _ => true | _ => false end.
Definition isSeekOrTruncate (e : event) : bool :=
  match e with
  | EvSeekEnd | EvSeekStart _ | EvTruncate _ => true
  | _ => false
  end.
Definition isFileSystemCall (e : event) : bool :=
  match e with
  | EvLogf _ _ | EvLock | EvUnlock | EvNotify => false
  | _ => true
  end.

(** The events by which a round of the finalize loop ends otherwise than by
    going on to the next candidate: a rename was attempted, the partial file
    was removed, or an error was logged. *)
Definition isOutcome (e : event) : bool := isRename e || isRemove e || isLogf e.

(** The calls of [os.Stat] in a trace, and the paths they were made on. *)
Fixpoint statPaths (evs : list event) : list string :=
  match evs with
  | [] => []
  | EvStat p _ :: evs => p :: statPaths evs
  | _ :: evs => statPaths evs
  end.

Definition statCount (evs : list event) : nat := length (statPaths evs).

(** The first [n] candidate names: [d], [NextFilename d], ... *)
Fixpoint candidates (X : Ext) (n : nat) (d : string) : list string :=
  match n with
  | O => []
  | S n => d :: candidates X n (NextFilename X d)
  end.

(** A monitor for the discipline of lines 196-207.  It reads a trace and
    stops ([None]) at the first event that breaks the discipline:
    [os.Stat] and [os.Rename] are called only with [renameMu] held, and
    [os.Rename] only onto the path that the last [os.Stat] since the lock
    was taken reported as not existing. *)
Inductive guard :=
| Unlocked
| Locked (free : option string).

Definition guardStep (g : guard) (e : event) : option guard :=
  match e, g with
  | EvLock, Unlocked => Some (Locked None)
  | EvLock, Locked _ => None
  | EvUnlock, Locked _ => Some Unlocked
  | EvUnlock, Unlocked => None
  | EvStat p StatNotExist, Locked _ => Some (Locked (Some p))
  | EvStat _ _, Locked _ => Some (Locked None)
  | EvStat _ _, Unlocked => None
  | EvRename _ new, Locked (Some p) =>
      if decide (new = p) then Some (Locked None) else None
  | EvRename _ _, _ => None
  | _, g => Some g
  end.

Fixpoint guardRun (g : guard) (evs : list event) : option guard :=
  match evs with
  | [] => Some g
  | e :: evs =>
      match guardStep g e with
      | Some g => guardRun g evs
      | None => None
      end
  end.

Definition renamesGuarded (evs : list event) : Prop :=
  guardRun Unlocked evs = Some Unlocked.

(** ** Concurrent calls

    The registry is the only state two calls of [PutFile] share through
    [send.go] besides the disk.  A call is before line 107, or between
    line 122 and its return, or has returned.  [LoadOrInit] and [Delete] are
    atomic; between them a call changes the disk and its own
    [incomingFile], nothing else of the registry. *)
Inductive callPoint :=
| Arriving (k : incomingFileKey)
| Active (k : incomingFileKey)
| Rejected                       (* returned [ErrFileExists], line 120 *)
| Returned.                      (* returned after the deferred [Delete] *)

(** One step of one of the calls: line 107 with its two outcomes, some work
    between line 124 and the return, and the deferred [Delete]. *)
Inductive step : World * list callPoint -> World * list callPoint -> Prop :=
| step_claim w pool i k o m length partialPath f w' :
    pool !! i = Some (Arriving k) ->
    LoadOrInit k (factory o m length partialPath) w = ((f, false), w') ->
    step (w, pool) (w', <[i := Active k]> pool)
| step_reject w pool i k o m length partialPath f w' :
    pool !! i = Some (Arriving k) ->
    LoadOrInit k (factory o m length partialPath) w = ((f, true), w') ->
    step (w, pool) (w', <[i := Rejected]> pool)
| step_work w pool i k f d :
    pool !! i = Some (Active k) ->
    step (w, pool) (storeIncoming k f (set_fs w d), pool)
| step_return w pool i k :
    pool !! i = Some (Active k) ->
    step (w, pool) (Delete k w, <[i := Returned]> pool).

Definition isArriving (c : callPoint) : Prop :=
  match c with Arriving _ => True | _ => False end.

(** Where the system starts: nothing is registered, no call is admitted. *)
Definition initial (s : World * list callPoint) : Prop :=
  incomingFiles s.1 = ∅ ∧ Forall isArriving s.2.

(** Every admitted call has its key in the registry, and no two admitted
    calls have the same key. *)
Definition registryInv (s : World * list callPoint) : Prop :=
  (∀ i k, s.2 !! i = Some (Active k) → is_Some (incomingFiles s.1 !! k)) ∧
  (∀ i j k, s.2 !! i = Some (Active k) → s.2 !! j = Some (Active k) → i = j).

(** *** Frames *)

(** Every file other than [pp] that is on the disk in [w] is on the disk in
    [w'] with the same content. *)
Definition othersKept (pp : string) (w w' : World) : Prop :=
  ∀ p c, p ≠ pp → fs w !! p = Some c → fs w' !! p = Some c.

(** From [w] to [w'] the events [evs] were appended, the files other than
    [pp] were kept, and the registry changed at most at [key]. *)
Definition runs (pp : string) (key : incomingFileKey) (w w' : World)
    (evs : list event) : Prop :=
  trace w' = trace w ++ evs ∧
  othersKept pp w w' ∧
  delete key (incomingFiles w') = delete key (incomingFiles w).

(** The events of the three parts of a call. *)
Definition receiveEv (e : event) : bool :=
  match e with
  | EvLogf _ _ | EvOpenFile _ | EvFileWrite _ _ | EvClose | EvRemove _
  | EvNotify => true
  | _ => false
  end.
Definition resumeEv (e : event) : bool :=
  match e with
  | EvLogf _ _ | EvSeekEnd | EvSeekStart _ | EvTruncate _ => true
  | _ => false
  end.
Definition finalizeEv (e : event) : bool :=
  match e with
  | EvLogf _ _ | EvLock | EvUnlock | EvStat _ _ | EvRename _ _
  | EvSha256File _ | EvRemove _ | EvNotify => true
  | _ => false
  end.

(** Events outside the finalize protocol. *)
Definition outsideFinalize (e : event) : bool := receiveEv e || resumeEv e.

Definition noOutcome (evs : list event) : Prop :=
  Forall (λ e, isOutcome e = false) evs.

(** The error of line 237. *)
Definition tooManyRetries : error :=
  errorString "too many retries trying to rename partial file".

(** What a round of the loop leaves behind, by the way it ends. *)
Definition roundEnds {X : Ext} (ex : bodyExit X) (evs : list event)
    (w w' : World) : Prop :=
  match ex with
  | BodyNext _ => fs w' = fs w ∧ noOutcome evs
  | BodyBreak => Exists (λ e, isOutcome e) evs
  | BodyReturn n err => n = 0 ∧ Exists (λ e, isOutcome e) evs
  end.

(** What the loop leaves behind when it was entered with [k] rounds to go
    and made [j]. *)
Definition loopEnds (k j : nat) (ex : loopExit) (evs : list event)
    (w w' : World) : Prop :=
  match ex with
  | LoopDone O => j = k ∧ fs w' = fs w ∧ noOutcome evs
  | LoopDone (S _) => Exists (λ e, isOutcome e) evs
  | LoopReturn n err => n = 0 ∧ Exists (λ e, isOutcome e) evs
  end.

(** What every call does, in one statement: the events it appends fall into
    those before the finalize protocol, those of the protocol and those of
    the deferred function; the protocol keeps the discipline of the monitor
    and stats the first [j] candidate names, [j ≤ 10]; an error comes with
    the length 0; and when all ten candidates were tried without a rename, a
    removal or a logged error, the call fails with the error of line 237 and
    the partial file is on the disk. *)
Definition callShape (X : Ext) (pp : string) (key : incomingFileKey)
    (dst : string) (offset : Z) (res : Z * goerror) (w w' : World) : Prop :=
  ∃ pre fin post j,
    runs pp key w w' (pre ++ fin ++ post) ∧
    Forall (λ e, outsideFinalize e) pre ∧
    (offset = 0 → Forall (λ e, receiveEv e) pre) ∧
    Forall (λ e, finalizeEv e) fin ∧
    guardRun Unlocked fin = Some Unlocked ∧
    (j ≤ 10)%nat ∧ statPaths fin = candidates X j dst ∧
    Forall (λ e, receiveEv e) post ∧
    (res.2 ≠ None → res.1 = 0) ∧
    (j = 10%nat → noOutcome (pre ++ fin ++ post) →
     res = (0, Some tooManyRetries) ∧ is_Some (fs w' !! pp)).

(** [p] is on the disk with a content whose length or digest is not that of
    the [fl] bytes [pc]. *)
Definition takenByOther (X : Ext) (w : World) (fl : Z) (pc : bytes)
    (p : string) : Prop :=
  ∃ c, fs w !! p = Some c ∧
       (Z.of_nat (length c) ≠ fl ∨ sha256Sum X c ≠ sha256Sum X pc).

(** ** Worlds and inputs for the examples *)

(** A reader that delivers [abc] in two reads. *)
Definition exampleData : bytes := ["a"; "b"; "c"]%byte.
Definition exampleReader : Reader :=
  [(["a"; "b"]%byte, ReadMore); (["c"]%byte, ReadEOF)].

(** A disk on which bob's partial file for [photo.jpg] holds five bytes. *)
Definition staleWorld : World :=
  mkWorld {[ "/d/photo.jpg.bob.partial" := ["v"; "w"; "x"; "y"; "z"]%byte ]}
          ∅ true 0 [].

(** A disk on which [photo.jpg] and its next nine candidate names are taken
    by files of one byte. *)
Definition crowdedWorld : World :=
  mkWorld (list_to_map ((λ p, (p, ["q"]%byte))
                          <$> candidates exampleExt 10 "/d/photo.jpg"))
          ∅ true 0 [].

(** Four writes: two bytes at second 1, one byte half a second later, an
    empty write, and three bytes at second 2.5. *)
Definition exampleWrites : list (Z * Time) :=
  [(2, 1000000000); (1, 1500000000); (0, 1600000000); (3, 2500000000)].


(** ** More observers, for the rest of [send.go] *)

(** The state of an [incomingFile] after a sequence of writes. *)
Fixpoint WritesEnd (f : incomingFile) (ws : list (Z * Time)) : incomingFile :=
  match ws with
  | [] => f
  | (n, now) :: ws => WritesEnd (Write f n now).1 ws
  end.

(** The bytes the underlying writer reported over a sequence of writes;
    [Write] counts a write only when it wrote at least one byte. *)
Fixpoint bytesWritten (ws : list (Z * Time)) : Z :=
  match ws with
  | [] => 0
  | (n, _) :: ws => (if 0 <? n then n else 0) + bytesWritten ws
  end.

(** The clock readings at which the notifier fired. *)
Fixpoint fireTimes (f : incomingFile) (ws : list (Z * Time)) : list Time :=
  match ws with
  | [] => []
  | (n, now) :: ws =>
      let '(f', fired) := Write f n now in
      if fired then now :: fireTimes f' ws else fireTimes f' ws
  end.


(** The calls of [sha256File] in a trace. *)
Fixpoint shaCount (evs : list event) : nat :=
  match evs with
  | [] => 0
  | EvSha256File _ :: evs => S (shaCount evs)
  | _ :: evs => shaCount evs
  end.

(** The candidate number [j]: [NextFilename] applied [j] times. *)
Definition nthCandidate (X : Ext) (j : nat) (d : string) : string :=
  Nat.iter j (NextFilename X) d.

(** The call runs in the mode of [AvoidFinalRename] (line 93). *)
Definition avoidPartialRename (m : Manager) : bool :=
  DirectFileMode m && AvoidFinalRename m.


(** One more digest may be computed when [computePartialSum] has not run. *)
Definition memoDue {A} (memo : option A) : nat :=
  match memo with None => 1 | Some _ => 0 end.

(** What a round of the loop does besides what [roundEnds] says: it stats
    once, computes at most one digest besides the partial file's (which it
    computes only if [memo] is empty), keeps the disk unless it ends in a
    [break], and returns only with an error. *)
Definition roundCosts {X : Ext} (memo : option (digest X)) (ex : bodyExit X)
    (evs : list event) (w w' : World) : Prop :=
  statCount evs = 1%nat ∧
  match ex with
  | BodyNext memo' =>
      fs w' = fs w ∧ (shaCount evs + memoDue memo' ≤ 1 + memoDue memo)%nat
  | BodyReturn n err =>
      fs w' = fs w ∧ err ≠ None ∧ (shaCount evs ≤ 1 + memoDue memo)%nat
  | BodyBreak => (shaCount evs ≤ 1 + memoDue memo)%nat
  end.

(** The calls of the finalize protocol (lines 185-241): the lock, the
    [os.Stat], the [os.Rename] and the digests. *)
Definition isFinalizeCall (e : event) : bool :=
  match e with
  | EvLock | EvUnlock | EvStat _ _ | EvRename _ _ | EvSha256File _ => true
  | _ => false
  end.

(** From [w] to [w'] no file other than [pp] was created, changed or
    removed. *)
Definition onlyTouches (pp : string) (w w' : World) : Prop :=
  ∀ p, p ≠ pp → fs w' !! p = fs w !! p.

(** A manager that writes into the destination directory and avoids the
    final rename. *)
Definition directManager : Manager := mkManager "/d" true true.

(** A reader that delivers [ab] and then fails. *)
Definition brokenReader : Reader :=
  [(["a"; "b"]%byte, ReadMore); ([], ReadErr (errorString "connection reset"))].

(** A disk on which [photo.jpg] and its first candidate name are taken by
    files of one byte. *)
Definition twoTakenWorld : World :=
  mkWorld (list_to_map ((λ p, (p, ["q"]%byte))
                          <$> candidates exampleExt 2 "/d/photo.jpg"))
          ∅ true 0 [].

(** The lines a call logs: the action and the error of each call of
    [m.Logf] (line 89). *)
Fixpoint logged (evs : list event) : list (string * goerror) :=
  match evs with
  | [] => []
  | EvLogf action err :: evs => (action, err) :: logged evs
  | _ :: evs => logged evs
  end.

(** Nothing was logged, or one line was, with the error that is returned,
    and the length returned is 0. *)
Definition logsItsError (evs : list event) (res : Z * goerror) : Prop :=
  logged evs = [] ∨ ∃ action, logged evs = [(action, res.2)] ∧ res.1 = 0.

(** * Properties *)

(** ** The progress-notifying writer *)

Lemma Sub_gt_Second (t u : Time) :
  (Second <? Sub t u) = true <-> Second < t - u.
Proof.
  unfold Sub, Second, int64_max, int64_min.
  repeat case_match; rewrite ?Z.ltb_lt, ?Z.ltb_ge in *; lia.
Qed.

Section Writes.
Implicit Types (f : incomingFile) (ws : list (Z * Time)).

Lemma readingsNonZero_tail n t ws :
  readingsNonZero ((n, t) :: ws) → readingsNonZero ws.
Proof. intros H i n' t' Hi. exact (H (S i) n' t' Hi). Qed.

Lemma Write_fired f n now f' :
  Write f n now = (f', true) →
  0 < n ∧ lastNotify f' = now ∧
  (lastNotify f = 0 ∨ Second < now - lastNotify f).
Proof.
  unfold Write. destruct (0 <? n) eqn:Hn; [|congruence].
  apply Z.ltb_lt in Hn. cbn.
  destruct (IsZero (lastNotify f)) eqn:Hz; cbn.
  - intros [= <-]. cbn. apply Z.eqb_eq in Hz. auto.
  - destruct (Second <? Sub now (lastNotify f)) eqn:Hs; intros [= <-]; cbn.
    apply Sub_gt_Second in Hs. auto.
Qed.

Lemma Write_quiet f n now f' :
  Write f n now = (f', false) → lastNotify f' = lastNotify f.
Proof.
  unfold Write. destruct (0 <? n); [|by intros [= <-]]. cbn.
  destruct (_ || _); intros [= <-]; done.
Qed.

(** Once a notification has been sent, every later one is more than a
    second after the last one sent. *)
Lemma Writes_after_notify ws : ∀ f,
  lastNotify f ≠ 0 → readingsNonZero ws →
  (∀ j nj tj, ws !! j = Some (nj, tj) → Writes f ws !! j = Some true →
              Second < tj - lastNotify f) ∧
  spaced ws (Writes f ws).
Proof.
  induction ws as [|[n t] ws IH]; intros f HL Hnz.
  { split; [intros ? ? ? Hnil | intros ? ? ? ? ? ? _ Hnil]; by rewrite lookup_nil in Hnil. }
  cbn [Writes]. destruct (Write f n t) as [f' fired] eqn:HW.
  assert (Hnz' := readingsNonZero_tail _ _ _ Hnz).
  destruct fired.
  - apply Write_fired in HW as (Hn & Hf' & Hgap).
    destruct Hgap as [?|Hgap]; [done|].
    assert (lastNotify f' ≠ 0) as HL'.
    { rewrite Hf'. exact (Hnz 0%nat n t eq_refl Hn). }
    destruct (IH f' HL' Hnz') as [IH1 IH2]. rewrite Hf' in IH1. split.
    + intros [|j] nj tj Hj Hfj; cbn in *.
      * by simplify_eq.
      * specialize (IH1 j nj tj Hj Hfj). unfold Second in *. lia.
    + intros [|i] [|j] ni ti nj tj Hij Hi Hj Hfi Hfj; cbn in *; try lia.
      * simplify_eq. exact (IH1 j nj tj Hj Hfj).
      * exact (IH2 i j ni ti nj tj ltac:(lia) Hi Hj Hfi Hfj).
  - apply Write_quiet in HW.
    assert (lastNotify f' ≠ 0) as HL' by congruence.
    destruct (IH f' HL' Hnz') as [IH1 IH2]. rewrite HW in IH1. split.
    + intros [|j] nj tj Hj Hfj; cbn in *; [done|]. eauto.
    + intros [|i] [|j] ni ti nj tj Hij Hi Hj Hfi Hfj; cbn in *; try lia.
      * done.
      * exact (IH2 i j ni ti nj tj ltac:(lia) Hi Hj Hfi Hfj).
Qed.

(** C7. Through an [incomingFile] that has not notified yet, with a clock
    that never reads the zero instant: the notifier fires at the first
    write that writes at least one byte, and any two writes at which it
    fires are more than one second of clock time apart, whatever the number
    of writes between them. *)
Theorem Write_notifies_first_then_at_most_once_per_second f ws :
  lastNotify f = 0 →
  readingsNonZero ws →
  (∀ i n t, ws !! i = Some (n, t) → 0 < n →
     (∀ j n' t', (j < i)%nat → ws !! j = Some (n', t') → n' ≤ 0) →
     Writes f ws !! i = Some true) ∧
  spaced ws (Writes f ws).
Proof.
  revert f. induction ws as [|[n t] ws IH]; intros f HL Hnz.
  { split; [intros ? ? ? Hnil | intros ? ? ? ? ? ? _ Hnil]; by rewrite lookup_nil in Hnil. }
  assert (Hnz' := readingsNonZero_tail _ _ _ Hnz).
  cbn [Writes]. destruct (Write f n t) as [f' fired] eqn:HW.
  destruct (decide (0 < n)) as [Hn|Hn].
  - assert (fired = true ∧ lastNotify f' = t) as [-> Hf'].
    { revert HW. unfold Write. apply Z.ltb_lt in Hn as ->. cbn.
      unfold IsZero. rewrite HL. cbn. by intros [= <- <-]. }
    assert (lastNotify f' ≠ 0) as HL'.
    { rewrite Hf'. exact (Hnz 0%nat n t eq_refl Hn). }
    destruct (Writes_after_notify ws f' HL' Hnz') as [A1 A2].
    rewrite Hf' in A1. split.
    + intros [|i] n' t' Hi Hn' Hfirst; cbn in *; [done|].
      specialize (Hfirst 0%nat n t ltac:(lia) eq_refl). lia.
    + intros [|i] [|j] ni ti nj tj Hij Hi Hj Hfi Hfj; cbn in *; try lia.
      * simplify_eq. exact (A1 j nj tj Hj Hfj).
      * exact (A2 i j ni ti nj tj ltac:(lia) Hi Hj Hfi Hfj).
  - assert (fired = false ∧ f' = f) as [-> ->].
    { revert HW. unfold Write.
      destruct (0 <? n) eqn:E; [apply Z.ltb_lt in E; lia|]. by intros [= <- <-]. }
    destruct (IH f HL Hnz') as [I1 I2]. split.
    + intros [|i] n' t' Hi Hn' Hfirst; cbn in *; [simplify_eq; lia|].
      apply (I1 i n' t' Hi Hn'). intros j n'' t'' Hj Hlk.
      exact (Hfirst (S j) n'' t'' ltac:(lia) Hlk).
    + intros [|i] [|j] ni ti nj tj Hij Hi Hj Hfi Hfj; cbn in *; try lia.
      * done.
      * exact (I2 i j ni ti nj tj ltac:(lia) Hi Hj Hfi Hfj).
Qed.
End Writes.

(** ** Arithmetic and file contents *)

Lemma wrap64_small z : int64_min ≤ z ≤ int64_max → wrap64 z = z.
Proof.
  unfold wrap64, int64_min, int64_max. intros H.
  rewrite Z.mod_small; lia.
Qed.

Lemma wrap64_add_l a b : wrap64 (wrap64 a + b) = wrap64 (a + b).
Proof.
  unfold wrap64.
  replace ((a + 2 ^ 63) mod 2 ^ 64 - 2 ^ 63 + b + 2 ^ 63)
    with ((a + 2 ^ 63) mod 2 ^ 64 + b) by lia.
  rewrite Zplus_mod_idemp_l. f_equal. f_equal. lia.
Qed.

Lemma truncateTo_le (c : bytes) n : (n ≤ length c)%nat → truncateTo c n = take n c.
Proof.
  intros H. unfold truncateTo.
  replace (n - length c)%nat with 0%nat by lia. cbn. by rewrite app_nil_r.
Qed.

Lemma writeAt_nil (c : bytes) pos : (pos ≤ length c)%nat → writeAt c pos [] = c.
Proof.
  intros H. unfold writeAt. rewrite truncateTo_le by done. cbn.
  rewrite Nat.add_0_r. apply take_drop.
Qed.

Lemma writeAt_length (c : bytes) pos p :
  (pos ≤ length c)%nat → (pos + length p ≤ length (writeAt c pos p))%nat.
Proof.
  intros H. unfold writeAt. rewrite truncateTo_le by done.
  rewrite !length_app, length_take. lia.
Qed.

Lemma writeAt_app (c : bytes) pos p q :
  (pos ≤ length c)%nat →
  writeAt (writeAt c pos p) (pos + length p) q = writeAt c pos (p ++ q).
Proof.
  intros H. unfold writeAt at 1 3.
  rewrite truncateTo_le by (by apply writeAt_length).
  rewrite (truncateTo_le c pos) by done.
  unfold writeAt. rewrite truncateTo_le by done.
  assert (length (take pos c) = pos) as Hl by (rewrite length_take; lia).
  rewrite (app_assoc (take pos c) p).
  rewrite take_app_length' by (rewrite length_app; lia).
  rewrite drop_app_ge by (rewrite length_app; lia).
  rewrite length_app, Hl, drop_drop, length_app.
  rewrite <- !app_assoc. do 4 f_equal. lia.
Qed.

Lemma writeAt_0_drop (c p : bytes) :
  writeAt c 0 p = p ++ drop (length p) c.
Proof. unfold writeAt, truncateTo. by rewrite take_0. Qed.

(** The parts of a call are reasoned about through their lemmas, not by
    unfolding. *)
#[global] Arguments redactErr : simpl never.
#[global] Arguments redactAndLogError : simpl never.
#[global] Arguments Now : simpl never.
#[global] Arguments sendFileNotify : simpl never.
#[global] Arguments OpenFile : simpl never.
#[global] Arguments SeekEnd : simpl never.
#[global] Arguments SeekStart : simpl never.
#[global] Arguments Truncate : simpl never.
#[global] Arguments FileWrite : simpl never.
#[global] Arguments Close : simpl never.
#[global] Arguments Remove : simpl never.
#[global] Arguments Rename : simpl never.
#[global] Arguments sha256File : simpl never.
#[global] Arguments LoadOrInit : simpl never.
#[global] Arguments Delete : simpl never.
#[global] Arguments storeIncoming : simpl never.
#[global] Arguments inFileWrite : simpl never.
#[global] Arguments statRename : simpl never.
#[global] Arguments computePartialSum : simpl never.
#[global] Arguments loopBody : simpl never.
#[global] Arguments finalize : simpl never.
#[global] Arguments resume : simpl never.
#[global] Arguments copyAndFinalize : simpl never.
#[global] Arguments deferredCleanup : simpl never.
#[global] Arguments receiveAndPublish : simpl never.
#[global] Arguments Write : simpl never.

(** ** Frames of the parts of a call *)

(** Closes [runs] for a world written as updates of the starting world. *)
Ltac runs_solve :=
  split_and!;
  [ cbn; first [ reflexivity | by rewrite app_nil_r
               | rewrite <- !app_assoc; reflexivity ]
  | intros ? ? ? ?; cbn; rewrite ?lookup_insert_ne, ?lookup_delete_ne by done; done
  | cbn; rewrite ?delete_insert_eq; done ].

Section Frames.
Variable X : Ext.
Variable o : Oracle.
Variable pp : string.
Variable key : incomingFileKey.

Lemma runs_refl w : runs pp key w w [].
Proof. runs_solve. Qed.

Lemma runs_trans w1 w2 w3 e1 e2 :
  runs pp key w1 w2 e1 → runs pp key w2 w3 e2 → runs pp key w1 w3 (e1 ++ e2).
Proof.
  intros (T1 & K1 & R1) (T2 & K2 & R2). split_and!.
  - by rewrite T2, T1, app_assoc.
  - intros p c Hp Hc. eauto.
  - congruence.
Qed.

Lemma runs_emit e w : runs pp key w (emit e w) [e].
Proof. runs_solve. Qed.

Lemma runs_set_knownEmpty b w : runs pp key w (set_knownEmpty w b) [].
Proof. runs_solve. Qed.

Lemma runs_storeIncoming f w : runs pp key w (storeIncoming key f w) [].
Proof. unfold storeIncoming. runs_solve. Qed.

Lemma runs_Now w : runs pp key w (Now o w).2 [].
Proof. unfold Now. runs_solve. Qed.

Lemma runs_sendFileNotify w : runs pp key w (sendFileNotify w) [EvNotify].
Proof. unfold sendFileNotify. runs_solve. Qed.

Lemma runs_redactAndLogError action err w :
  runs pp key w (redactAndLogError action err w).2
       [EvLogf action (redactErr err)].
Proof. unfold redactAndLogError. runs_solve. Qed.

Lemma runs_OpenFile w :
  runs pp key w (OpenFile o pp w).2 [EvOpenFile pp].
Proof.
  unfold OpenFile. destruct (openFault o); [runs_solve|].
  cbn. destruct (fs w !! pp); runs_solve.
Qed.

Lemma runs_Close w : runs pp key w (Close o w).2 [EvClose].
Proof. unfold Close. runs_solve. Qed.

Lemma runs_Remove w : runs pp key w (Remove o pp w).2 [EvRemove pp].
Proof.
  unfold Remove. destruct (removeFault o); [runs_solve|].
  cbn. destruct (fs w !! pp); runs_solve.
Qed.

Lemma runs_SeekEnd w : runs pp key w (SeekEnd o pp w).2 [EvSeekEnd].
Proof. unfold SeekEnd. destruct (seekEndFault o); runs_solve. Qed.

Lemma runs_SeekStart n w : runs pp key w (SeekStart o n w).2 [EvSeekStart n].
Proof. unfold SeekStart. runs_solve. Qed.

Lemma runs_Truncate n w : runs pp key w (Truncate o pp n w).2 [EvTruncate n].
Proof. unfold Truncate. destruct (truncateFault o); runs_solve. Qed.

Lemma runs_FileWrite k pos p w :
  runs pp key w (FileWrite o pp k pos p w).2
       [EvFileWrite p (FileWrite o pp k pos p w).1.1].
Proof.
  unfold FileWrite. destruct (writeFault o k) as [[n e]|]; runs_solve.
Qed.
End Frames.

(** ** Observers of the trace *)

Lemma newEvents_app w w' evs : trace w' = trace w ++ evs → newEvents w w' = evs.
Proof. unfold newEvents. intros ->. by rewrite drop_app_length. Qed.

Lemma statPaths_app a b : statPaths (a ++ b) = statPaths a ++ statPaths b.
Proof.
  induction a as [|e a IH]; [done|]. destruct e; cbn; by rewrite ?IH.
Qed.

Lemma statCount_app a b : statCount (a ++ b) = (statCount a + statCount b)%nat.
Proof. unfold statCount. by rewrite statPaths_app, length_app. Qed.

Lemma guardRun_app g a b :
  guardRun g (a ++ b) = guardRun g a ≫= λ g', guardRun g' b.
Proof.
  revert g. induction a as [|e a IH]; intros g; [done|].
  cbn. destruct (guardStep g e); [apply IH | done].
Qed.

(** Events outside the finalize protocol do not move the monitor and are
    not calls of [os.Stat]. *)
Lemma guardRun_outside g evs :
  Forall (λ e, outsideFinalize e) evs → guardRun g evs = Some g.
Proof.
  induction 1 as [|e evs He _ IH]; [done|].
  cbn. destruct e; try done; by destruct g.
Qed.

Lemma statPaths_outside evs :
  Forall (λ e, outsideFinalize e) evs → statPaths evs = [].
Proof. induction 1 as [|e evs He _ IH]; [done|]. by destruct e. Qed.

Lemma candidates_length X n d : length (candidates X n d) = n.
Proof. revert d. induction n as [|n IH]; intros d; cbn; by rewrite ?IH. Qed.

Section Phases.
Variable X : Ext.
Variable o : Oracle.
Variable pp : string.
Variable key : incomingFileKey.

(** Lines 143-159. *)
Lemma resume_runs offset w r w' :
  resume o pp offset w = (r, w') →
  ∃ evs, runs pp key w w' evs ∧ Forall (λ e, resumeEv e) evs ∧
         (offset = 0 → r = inr 0 ∧ w' = w) ∧
         (∀ res, r = inl res → res.1 = 0).
Proof.
  unfold resume. destruct (offset =? 0) eqn:Hoff; cbn.
  { intros [= <- <-]. exists []. split_and!; [apply runs_refl|done..]. }
  apply Z.eqb_neq in Hoff.
  pose proof (runs_SeekEnd o pp key w) as R1.
  destruct (SeekEnd o pp w) as [[currLength err] w1]. cbn in R1.
  destruct err as [e|].
  - intros [= <- <-].
    exists ([EvSeekEnd] ++ [EvLogf "Seek" (redactErr (Some e))]).
    split_and!; [|repeat constructor|done|by intros ? [= <-]].
    eapply runs_trans; [done | apply runs_emit].
  - destruct (_ || _).
    + intros [= <- <-].
      exists ([EvSeekEnd] ++ [EvLogf "Seek" (redactErr None)]).
      split_and!; [|repeat constructor|done|by intros ? [= <-]].
      eapply runs_trans; [done | apply runs_emit].
    + pose proof (runs_SeekStart o pp key offset w1) as R2.
      destruct (SeekStart o offset w1) as [err2 w2]; cbn in R2.
      destruct err2 as [e|]; cbn.
      * intros [= <- <-].
        exists (([EvSeekEnd] ++ [EvSeekStart offset]) ++ [EvLogf "Seek" (redactErr (Some e))]).
        split_and!; [|repeat constructor|done|by intros ? [= <-]].
        eapply runs_trans; [eapply runs_trans; done | apply runs_emit].
      * pose proof (runs_Truncate o pp key offset w2) as R3.
        destruct (Truncate o pp offset w2) as [err3 w3]; cbn in R3.
        destruct err3 as [e|]; cbn.
        -- intros [= <- <-].
           exists ((([EvSeekEnd] ++ [EvSeekStart offset]) ++ [EvTruncate offset])
                     ++ [EvLogf "Truncate" (redactErr (Some e))]).
           split_and!; [|repeat constructor|done|by intros ? [= <-]].
           eapply runs_trans; [do 2 (eapply runs_trans; [|done]); done | apply runs_emit].
        -- intros [= <- <-].
           exists (([EvSeekEnd] ++ [EvSeekStart offset]) ++ [EvTruncate offset]).
           split_and!; [|repeat constructor|done|done].
           do 2 (eapply runs_trans; [|done]); done.
Qed.

Lemma inFileWrite_runs k pos f p w res f' w' :
  inFileWrite o key pp k pos f p w = (res, f', w') →
  ∃ evs, runs pp key w w' evs ∧ Forall (λ e, receiveEv e) evs.
Proof.
  unfold inFileWrite.
  pose proof (runs_FileWrite o pp key k pos p w) as R1.
  destruct (FileWrite o pp k pos p w) as [[n err] w1]. cbn in R1.
  destruct (0 <? n); [|intros [= <- <- <-]; eexists; split; [done|repeat constructor]].
  pose proof (runs_Now o pp key w1) as RN.
  destruct (Now o w1) as [now w2]. cbn in RN.
  destruct (Write f n now) as [f1 needNotify].
  intros [= <- <- <-].
  pose proof (runs_trans pp key _ _ _ _ _ R1 RN) as R2.
  pose proof (runs_trans pp key _ _ _ _ _ R2
                (runs_storeIncoming pp key f1 w2)) as R3.
  destruct needNotify.
  - eexists. split; [eapply runs_trans; [exact R3 | apply runs_sendFileNotify]|].
    repeat constructor.
  - eexists. split; [exact R3|]. repeat constructor.
Qed.

(** [io.Copy] writes to the partial file and notifies; nothing else. *)
Lemma ioCopy_runs r : ∀ k pos written f w res f' w',
  ioCopy o key pp r k pos written f w = (res, f', w') →
  ∃ evs, runs pp key w w' evs ∧ Forall (λ e, receiveEv e) evs.
Proof.
  induction r as [|[p er] r IH]; intros k pos written f w res f' w'; cbn.
  { intros [= <- <- <-]. exists []. split; [apply runs_refl|constructor]. }
  assert (∀ written k pos f w,
    match er with
    | ReadMore => ioCopy o key pp r k pos written f w
    | ReadEOF => (written, None, f, w)
    | ReadErr e => (written, Some e, f, w)
    end = (res, f', w') →
    ∃ evs, runs pp key w w' evs ∧ Forall (λ e, receiveEv e) evs) as Hcont.
  { intros written0 k0 pos0 f0 w0. destruct er; [apply IH|..];
      intros [= <- <- <-]; exists []; (split; [apply runs_refl|constructor]). }
  destruct p as [|b p]; [apply Hcont|].
  destruct (inFileWrite o key pp k pos f (b :: p) w) as [[[nw ew] f1] w1] eqn:HW.
  apply inFileWrite_runs in HW as (evs1 & R1 & F1).
  destruct ew as [e|].
  { intros [= <- <- <-]. eauto. }
  destruct (negb _).
  { intros [= <- <- <-]. eauto. }
  intros (evs2 & R2 & F2)%Hcont.
  exists (evs1 ++ evs2). split; [by eapply runs_trans | by apply Forall_app].
Qed.
End Phases.

Section Finalize.
Variable X : Ext.
Variable o : Oracle.
Variable pp : string.
Variable key : incomingFileKey.

(** Lines 196-207: what the locked section does, case by case. *)
Lemma statRename_cases k dst w n err w' :
  statRename o k pp dst w = ((n, err), w') →
  runs pp key w w' (newEvents w w') ∧
  ((∃ e, newEvents w w' = [EvLock; EvStat dst (StatError e); EvUnlock] ∧
         n = -1 ∧ err = Some e ∧ fs w' = fs w) ∨
   (newEvents w w' = [EvLock; EvStat dst StatNotExist; EvRename pp dst; EvUnlock] ∧
    n = -1 ∧ fs w !! dst = None) ∨
   (∃ c, newEvents w w' = [EvLock; EvStat dst (StatOK n); EvUnlock] ∧
         n = Z.of_nat (length c) ∧ err = None ∧
         fs w !! dst = Some c ∧ fs w' = fs w)).
Proof.
  unfold statRename, Rename, newEvents. cbn.
  destruct (statFault o k) as [e|] eqn:Hfault.
  { intros [= <- <- <-]. cbn. rewrite <- !app_assoc, drop_app_length. cbn.
    split; [runs_solve|]. left. by exists e. }
  destruct (fs w !! dst) as [c|] eqn:Hdst.
  { intros [= <- <- <-]. cbn. rewrite <- !app_assoc, drop_app_length. cbn.
    split; [runs_solve|]. right; right. by exists c. }
  destruct (renameFault o k) as [e|].
  { intros [= <- <- <-]. cbn. rewrite <- !app_assoc, drop_app_length. cbn.
    split; [runs_solve|]. right; left. done. }
  destruct (fs w !! pp) as [c|] eqn:Hpp.
  2:{ intros [= <- <- <-]. cbn. rewrite <- !app_assoc, drop_app_length. cbn.
      split; [runs_solve|]. right; left. done. }
  intros [= <- <- <-]. cbn. rewrite <- !app_assoc, drop_app_length. cbn.
  split; [|right; left; done].
  split_and!; [cbn; by rewrite <- !app_assoc | | done].
  intros p c' Hp Hc. cbn.
  assert (dst ≠ p) as Hne by congruence.
  by rewrite lookup_insert_ne, lookup_delete_ne.
Qed.

Lemma loopBody_spec k dst fl memo w ex w' :
  loopBody X o k pp dst fl memo w = (ex, w') →
  ∃ evs, runs pp key w w' evs ∧ Forall (λ e, finalizeEv e) evs ∧
         guardRun Unlocked evs = Some Unlocked ∧ statPaths evs = [dst] ∧
         roundEnds ex evs w w'.
Proof.
  unfold loopBody.
  destruct (statRename o k pp dst w) as [[dstLength err] w1] eqn:HSR.
  apply statRename_cases in HSR as [R1 HSR].
  assert (∀ evs1 evs2,
    newEvents w w1 = evs1 → runs pp key w1 w' evs2 →
    runs pp key w w' (evs1 ++ evs2)) as Hrun.
  { intros evs1 evs2 <- R2. by eapply runs_trans. }
  unfold computePartialSum, sha256File, Remove, redactAndLogError.
  destruct HSR as [(e & Hev & -> & -> & Hfs)|[(Hev & -> & Hdst)|(c & Hev & Hn & -> & Hdst & Hfs)]].
  - cbn. intros [= <- <-]. eexists. split; [eapply Hrun; [done|runs_solve]|].
    cbn. split_and!; [repeat constructor|done|done|done|].
    do 3 apply Exists_cons_tl. by apply Exists_cons_hd.
  - destruct err as [e|]; cbn; intros [= <- <-].
    + eexists. split; [eapply Hrun; [done|runs_solve]|].
      cbn. rewrite decide_True by done.
      split_and!; [repeat constructor|done|done|done|].
      do 2 apply Exists_cons_tl. by apply Exists_cons_hd.
    + eexists. split; [eapply Hrun; [done|runs_solve]|].
      cbn. rewrite decide_True by done.
      split_and!; [repeat constructor|done|done|].
      do 2 apply Exists_cons_tl. by apply Exists_cons_hd.
  - assert ((dstLength <? 0) = false) as -> by lia.
    destruct (dstLength =? fl).
    2:{ intros [= <- <-]. eexists. split; [eapply Hrun; [done|runs_solve]|].
        cbn. unfold noOutcome.
        split_and!; [repeat constructor|done|done|done|repeat constructor]. }
    repeat case_match; simplify_eq; cbn; intros; simplify_eq;
      (eexists; split; [eapply Hrun; [done|runs_solve]|]);
      cbn; unfold noOutcome; (split_and!; [repeat constructor|done|done|..]);
      try done; try (by repeat constructor);
      try (by repeat first [apply Exists_cons_hd; done | apply Exists_cons_tl]).
Qed.

Lemma renameLoop_spec k : ∀ dst fl memo w ex w',
  renameLoop X o k pp dst fl memo w = (ex, w') →
  ∃ evs j, runs pp key w w' evs ∧ Forall (λ e, finalizeEv e) evs ∧
           guardRun Unlocked evs = Some Unlocked ∧
           (j ≤ k)%nat ∧ statPaths evs = candidates X j dst ∧
           loopEnds k j ex evs w w'.
Proof.
  induction k as [|k IH]; intros dst fl memo w ex w'; cbn [renameLoop].
  { intros [= <- <-]. exists [], 0%nat.
    split_and!; [apply runs_refl|done..|].
    cbn. split_and!; [done|done|constructor]. }
  destruct (loopBody X o (S k) pp dst fl memo w) as [bex w1] eqn:HB.
  apply loopBody_spec in HB as (evs1 & R1 & F1 & G1 & P1 & E1).
  unfold noOutcome in *.
  destruct bex as [n err| |memo1].
  - intros [= <- <-]. exists evs1, 1%nat.
    split_and!; [done|done|done|lia|done|done].
  - intros [= <- <-]. exists evs1, 1%nat.
    split_and!; [done|done|done|lia|done|done].
  - intros (evs2 & j & R2 & F2 & G2 & Hj & P2 & E2)%IH.
    exists (evs1 ++ evs2), (S j).
    split_and!; [by eapply runs_trans|by apply Forall_app| |lia| |].
    + by rewrite guardRun_app, G1.
    + by rewrite statPaths_app, P1, P2.
    + destruct E1 as [Hfs1 N1].
      destruct ex as [n err|[|m]]; cbn in *.
      * destruct E2 as [-> E2]. split; [done|]. apply Exists_app. by right.
      * destruct E2 as (-> & Hfs2 & N2).
        split_and!; [done|congruence|by apply Forall_app].
      * apply Exists_app. by right.
Qed.

(** Lines 185-241. *)
Lemma finalize_spec dst fl w n err w' :
  finalize X o pp dst fl w = ((n, err), w') →
  ∃ evs j, runs pp key w w' evs ∧ Forall (λ e, finalizeEv e) evs ∧
           guardRun Unlocked evs = Some Unlocked ∧
           (j ≤ 10)%nat ∧ statPaths evs = candidates X j dst ∧
           (err ≠ None → n = 0) ∧
           (j = 10%nat → noOutcome evs →
            n = 0 ∧
            err = Some tooManyRetries ∧
            fs w' = fs w).
Proof.
  unfold finalize.
  destruct (renameLoop X o 10 pp dst fl None w) as [ex w1] eqn:HL.
  apply renameLoop_spec in HL as (evs & j & R & F & G & Hj & P & E).
  unfold noOutcome in *.
  assert (∀ evs, Exists (λ e, isOutcome e) evs →
                 Forall (λ e, isOutcome e = false) evs → False) as Hex.
  { intros l [e [He1 He2]]%Exists_exists Hall.
    rewrite Forall_forall in Hall. specialize (Hall e He1).
    by rewrite Hall in He2. }
  destruct ex as [n0 err0|[|m]]; cbn in E.
  - intros [= <- <- <-]. destruct E as [-> E]. exists evs, j.
    split_and!; [done..|]. intros _ Hall. destruct (Hex _ E Hall).
  - cbn. intros [= <- <- <-]. destruct E as (-> & Hfs & N). exists evs, 10%nat.
    split_and!; done.
  - cbn. intros [= <- <- <-]. exists (evs ++ ([] ++ [EvNotify])), j.
    split_and!.
    + eapply runs_trans; [done|].
      eapply runs_trans; [apply runs_set_knownEmpty|apply runs_sendFileNotify].
    + apply Forall_app. split; [done|repeat constructor].
    + by rewrite guardRun_app, G.
    + done.
    + by rewrite statPaths_app, P, app_nil_r.
    + done.
    + intros _ [Hall _]%Forall_app. destruct (Hex _ E Hall).
Qed.
End Finalize.

Section Call.
Variable X : Ext.
Variable o : Oracle.

(** A call returns at once, leaving the world as it is, or it is
    admitted and returns what lines 124-241 return, after the deferred
    [Delete]. *)
Lemma PutFile_inv om id baseName r offset length w res w' :
  PutFile X o om id baseName r offset length w = (res, w') →
  (w' = w ∧ res.1 = 0 ∧ res.2 ≠ None ∧
   (∀ m, om = Some m → usable X m baseName →
         is_Some (incomingFiles w !! keyOf m id baseName) ∧
         res = (0, Some ErrFileExists))) ∨
  (∃ m inFile w1 w7,
     om = Some m ∧ usable X m baseName ∧
     incomingFiles w !! keyOf m id baseName = None ∧
     LoadOrInit (keyOf m id baseName)
                (factory o m length (partialPathOf X m id baseName)) w
       = ((inFile, false), w1) ∧
     receiveAndPublish X o (DirectFileMode m && AvoidFinalRename m)
                 (keyOf m id baseName) (partialPathOf X m id baseName)
                 (dstPathOf X m baseName) r offset length inFile w1
       = (res, w7) ∧
     w' = Delete (keyOf m id baseName) w7).
Proof.
  unfold PutFile, usable.
  destruct om as [m|]; [|intros [= <- <-]; left; split_and!; done].
  destruct (decide (Dir m = "")) as [HD|HD].
  { intros [= <- <-]; left; split_and!; try done. intros ? [= <-] [HH _]. by destruct HH. }
  destruct (CanTaildrop X) eqn:HC; cbn.
  2:{ intros [= <- <-]; left; split_and!; try done. intros ? [= <-] (_ & HH & _). congruence. }
  destruct (bool_decide (distroGet X = Unraid) && negb (DirectFileMode m)) eqn:HU.
  { intros [= <- <-]; left; split_and!; try done.
    intros ? [= <-] (_ & _ & HUn & _).
    apply andb_true_iff in HU as [HU1%bool_decide_eq_true HU2].
    rewrite (HUn HU1) in HU2. done. }
  unfold partialPathOf, dstPathOf, keyOf, effectiveID.
  destruct (joinDir X m baseName) as [dstPath [e|]] eqn:HJ; cbn.
  { intros [= <- <-]; left; split_and!; try done. intros ? [= <-] (_ & _ & _ & HH). rewrite HJ in HH. done. }
  destruct (LoadOrInit _ _ w) as [[inFile loaded] w1] eqn:HL.
  destruct loaded.
  { intros [= <- <-].
    unfold LoadOrInit in HL. destruct (incomingFiles w !! _) eqn:Hk.
    - simplify_eq. left. split_and!; try done. intros ? [= <-] _. split; [eauto|done].
    - destruct (factory _ _ _ _ w). simplify_eq. }
  destruct (receiveAndPublish _ _ _ _ _ _ _ _ _ _ _) as [res0 w7] eqn:HP.
  intros [= <- <-]. right. exists m, inFile, w1, w7.
  unfold partialPathOf, dstPathOf, keyOf, effectiveID. rewrite HJ. cbn [fst snd].
  split_and!; try done.
  - intros HUn. apply andb_false_iff in HU as [HU|HU].
    + by apply bool_decide_eq_false in HU.
    + by apply negb_false_iff in HU.
  - unfold LoadOrInit in HL. destruct (incomingFiles w !! _) eqn:Hk; [|done].
    simplify_eq.
Qed.
End Call.

Section Received.
Variable X : Ext.
Variable o : Oracle.
Variable pp : string.
Variable key : incomingFileKey.

Lemma OpenFile_creates w w' :
  OpenFile o pp w = (None, w') → is_Some (fs w' !! pp).
Proof.
  unfold OpenFile. destruct (openFault o); [done|]. cbn.
  destruct (fs w !! pp) eqn:E; intros [= <-]; cbn.
  - by rewrite E.
  - by rewrite lookup_insert_eq.
Qed.

Lemma resume_keeps offset w r w' :
  resume o pp offset w = (r, w') →
  is_Some (fs w !! pp) → is_Some (fs w' !! pp).
Proof.
  unfold resume, SeekEnd, SeekStart, Truncate, redactAndLogError.
  intros H Hpp. repeat case_match; simplify_eq; cbn; try done;
    by rewrite lookup_insert_eq.
Qed.

Lemma inFileWrite_keeps k pos f p w res f' w' :
  inFileWrite o key pp k pos f p w = (res, f', w') → is_Some (fs w' !! pp).
Proof.
  unfold inFileWrite, FileWrite, Now, storeIncoming, sendFileNotify.
  intros H. repeat case_match; simplify_eq; cbn; by rewrite lookup_insert_eq.
Qed.

Lemma ioCopy_keeps r : ∀ k pos written f w res f' w',
  ioCopy o key pp r k pos written f w = (res, f', w') →
  is_Some (fs w !! pp) → is_Some (fs w' !! pp).
Proof.
  induction r as [|[p er] r IH]; intros k pos written f w res f' w'; cbn.
  { by intros [= <- <- <-]. }
  destruct p as [|b p].
  { destruct er; [apply IH|..]; by intros [= <- <- <-]. }
  destruct (inFileWrite o key pp k pos f (b :: p) w) as [[[nw ew] f1] w1] eqn:HW.
  apply inFileWrite_keeps in HW.
  destruct ew as [e|]; [by intros [= <- <- <-]|].
  destruct (negb _); [by intros [= <- <- <-]|].
  destruct er; [intros H _; by eapply IH|..]; by intros [= <- <- <-].
Qed.

Lemma deferredCleanup_runs avoid err w :
  ∃ post, runs pp key w (deferredCleanup o avoid pp err w) post ∧
          Forall (λ e, receiveEv e) post ∧
          (err = None → fs (deferredCleanup o avoid pp err w) = fs w).
Proof.
  unfold deferredCleanup.
  pose proof (runs_Close o pp key w) as R1.
  destruct (Close o w) as [e1 w1] eqn:HC.
  assert (fs w1 = fs w) as Hfs by (unfold Close in HC; by simplify_eq).
  cbn in R1. destruct err as [e|]; [destruct avoid|].
  - exists ([EvClose] ++ [EvRemove pp]). split_and!; [|repeat constructor|done].
    eapply runs_trans; [done|apply runs_Remove].
  - exists [EvClose]. split_and!; [done|repeat constructor|done].
  - exists [EvClose]. split_and!; [done|repeat constructor|done].
Qed.

(** Lines 161-241. *)
Lemma copyAndFinalize_spec avoid dst r pos offset length f w res err w' :
  copyAndFinalize X o avoid key pp dst r pos offset length f w = (res, err, w') →
  is_Some (fs w !! pp) →
  ∃ pre fin j,
    runs pp key w w' (pre ++ fin) ∧
    Forall (λ e, receiveEv e) pre ∧ Forall (λ e, finalizeEv e) fin ∧
    guardRun Unlocked fin = Some Unlocked ∧
    (j ≤ 10)%nat ∧ statPaths fin = candidates X j dst ∧
    (res.2 ≠ None → res.1 = 0) ∧
    (j = 10%nat → noOutcome (pre ++ fin) →
     res = (0, Some tooManyRetries) ∧ err = None ∧ is_Some (fs w' !! pp)).
Proof.
  unfold copyAndFinalize. intros H Hpp.
  destruct (ioCopy o key pp r 0 pos 0 f w) as [[[copyLength cerr] f1] w1] eqn:HC.
  pose proof (ioCopy_keeps _ _ _ _ _ _ _ _ _ HC Hpp) as Hpp1.
  apply ioCopy_runs in HC as (evs1 & R1 & F1).
  assert (∀ w2 evs2 (res : Z * goerror) (err : goerror),
    runs pp key w1 w2 evs2 → Forall (λ e, receiveEv e) evs2 →
    (res.2 ≠ None → res.1 = 0) →
    ∃ pre fin j,
      runs pp key w w2 (pre ++ fin) ∧
      Forall (λ e, receiveEv e) pre ∧ Forall (λ e, finalizeEv e) fin ∧
      guardRun Unlocked fin = Some Unlocked ∧
      (j ≤ 10)%nat ∧ statPaths fin = candidates X j dst ∧
      (res.2 ≠ None → res.1 = 0) ∧
      (j = 10%nat → noOutcome (pre ++ fin) →
       res = (0, Some tooManyRetries) ∧ err = None ∧ is_Some (fs w2 !! pp)))
    as Hearly.
  { intros w2 evs2 res' err' R2 F2 Hz. exists (evs1 ++ evs2), [], 0%nat.
    rewrite app_nil_r.
    split_and!; [by eapply runs_trans|by apply Forall_app|done|done|lia|done|done|lia]. }
  destruct cerr as [e|].
  { pose proof (runs_redactAndLogError pp key "Copy" (Some e) w1) as R2.
    destruct (redactAndLogError "Copy" (Some e) w1) as [e' w2] eqn:HR.
    simplify_eq. eapply (Hearly _ [_]); [exact R2|repeat constructor|done]. }
  destruct ((0 <=? length) && negb (copyLength =? length)).
  { pose proof (runs_redactAndLogError pp key "Copy"
      (Some (errorString "copied an unexpected number of bytes")) w1) as R2.
    destruct (redactAndLogError "Copy" _ w1) as [e' w2] eqn:HR.
    simplify_eq. eapply (Hearly _ [_]); [exact R2|repeat constructor|done]. }
  pose proof (runs_Close o pp key w1) as R2.
  destruct (Close o w1) as [cl w2] eqn:HCl. cbn in R2.
  assert (fs w2 = fs w1) as Hfs2 by (unfold Close in HCl; by simplify_eq).
  destruct cl as [e|].
  { pose proof (runs_redactAndLogError pp key "Close" (Some e) w2) as R3.
    destruct (redactAndLogError "Close" (Some e) w2) as [e' w3] eqn:HR.
    simplify_eq. eapply (Hearly _ ([EvClose] ++ [_]));
      [by eapply runs_trans|cbn; repeat constructor|done]. }
  destruct avoid.
  { simplify_eq.
    eapply (Hearly _ ([EvClose] ++ ([] ++ ([] ++ [EvNotify]))));
      [|cbn; repeat constructor|done].
    eapply runs_trans; [done|].
    eapply runs_trans; [apply runs_storeIncoming|].
    eapply runs_trans; [apply runs_set_knownEmpty|apply runs_sendFileNotify]. }
  destruct (finalize X o pp dst (wrap64 (offset + copyLength)) w2)
    as [[n ferr] w3] eqn:HF.
  apply finalize_spec with (key := key) in HF
    as (fin & j & R3 & F3 & G3 & Hj & P3 & Hz & Hex).
  simplify_eq. exists (evs1 ++ [EvClose]), fin, j.
  split_and!; try done.
  - eapply runs_trans; [by eapply runs_trans|done].
  - apply Forall_app. split; [done|repeat constructor].
  - intros -> [_ Hno]%Forall_app. destruct (Hex eq_refl Hno) as (-> & -> & Hfs3).
    split_and!; [done|done|]. by rewrite Hfs3, Hfs2.
Qed.
End Received.

Section Summary.
Variable X : Ext.
Variable o : Oracle.

Lemma callShape_early pp key dst offset res w w' evs :
  runs pp key w w' evs → Forall (λ e, receiveEv e) evs →
  (res.2 ≠ None → res.1 = 0) →
  callShape X pp key dst offset res w w'.
Proof.
  intros R F Hz. unfold callShape. exists evs, [], [], 0%nat. cbn [app]. rewrite !app_nil_r.
  split_and!; [done| |done|constructor|done|lia|done|constructor|done|lia].
  eapply Forall_impl; [done|]. intros e He. unfold outsideFinalize.
  apply orb_True. by left.
Qed.

Lemma receiveEv_outside evs :
  Forall (λ e, receiveEv e) evs → Forall (λ e, outsideFinalize e) evs.
Proof.
  intros H. eapply Forall_impl; [exact H|]. intros e He. unfold outsideFinalize.
  apply orb_True. by left.
Qed.

Lemma resumeEv_outside evs :
  Forall (λ e, resumeEv e) evs → Forall (λ e, outsideFinalize e) evs.
Proof.
  intros H. eapply Forall_impl; [exact H|]. intros e He. unfold outsideFinalize.
  apply orb_True. by right.
Qed.

(** Lines 124-241. *)
Lemma receiveAndPublish_spec avoid key pp dst r offset length f w res w' :
  receiveAndPublish X o avoid key pp dst r offset length f w = (res, w') →
  callShape X pp key dst offset res w w'.
Proof.
  unfold receiveAndPublish.
  pose proof (runs_OpenFile o pp key w) as R1.
  destruct (OpenFile o pp w) as [operr w1] eqn:HO. cbn in R1.
  destruct operr as [e|].
  { pose proof (runs_redactAndLogError pp key "Create" (Some e) w1) as R2.
    destruct (redactAndLogError "Create" (Some e) w1) as [e' w2].
    intros [= <- <-]. eapply (callShape_early _ _ _ _ _ _ _ ([_] ++ [_]));
      [by eapply runs_trans|repeat constructor|done]. }
  apply OpenFile_creates in HO as Hpp1.
  destruct (resume o pp offset w1) as [rr w2] eqn:HR.
  pose proof (resume_keeps _ _ _ _ _ _ HR Hpp1) as Hpp2.
  apply resume_runs with (key := key) in HR as (evs2 & R2 & F2 & Hoff & Hinl).
  assert (offset = 0 → evs2 = []) as Hevs2.
  { intros [_ ->]%Hoff. destruct R2 as [T _].
    rewrite <- (app_nil_r (trace w1)) in T at 1. by apply app_inv_head in T. }
  destruct rr as [res0|pos].
  - destruct (deferredCleanup_runs o pp key avoid None w2) as (post & R3 & F3 & _).
    intros [= <- <-].
    unfold callShape. exists ([EvOpenFile pp] ++ evs2), [], post, 0%nat. cbn [app].
    split_and!; try done; try lia.
    + eapply (runs_trans _ _ _ _ _ ([EvOpenFile pp] ++ evs2));
        [by eapply runs_trans|done].
    + constructor; [done|by apply resumeEv_outside].
    + intros ->%Hevs2. by repeat constructor.
    + intros _. by apply Hinl.
  - destruct (copyAndFinalize X o avoid key pp dst r pos offset length f w2)
      as [[res0 err] w3] eqn:HC.
    apply copyAndFinalize_spec in HC
      as (pre & fin & j & R3 & F3 & F4 & G & Hj & P & Hz & Hex); [|done].
    destruct (deferredCleanup_runs o pp key avoid err w3) as (post & R4 & F5 & Hfs).
    intros [= <- <-].
    unfold callShape. exists (([EvOpenFile pp] ++ evs2) ++ pre), fin, post, j.
    split_and!; try done.
    + rewrite (app_assoc _ fin post), <- (app_assoc _ pre fin).
      eapply runs_trans; [|done].
      eapply runs_trans; [by eapply runs_trans|done].
    + apply Forall_app. split; [|by apply receiveEv_outside].
      constructor; [done|by apply resumeEv_outside].
    + intros ->%Hevs2. apply Forall_app. split; [by repeat constructor|done].
    + intros -> Hno. unfold noOutcome in Hno.
      rewrite <- app_assoc, !Forall_app in Hno.
      destruct Hno as (_ & Hpre & Hfin & _).
      destruct Hex as (-> & -> & Hpp3); [done|by apply Forall_app|].
      split; [done|]. by rewrite Hfs.
Qed.

Lemma LoadOrInit_fresh pp key init w f w1 :
  LoadOrInit key init w = ((f, false), w1) →
  (∀ w, fs (init w).2 = fs w ∧ trace (init w).2 = trace w ∧
        incomingFiles (init w).2 = incomingFiles w) →
  runs pp key w w1 [] ∧ fs w1 = fs w.
Proof.
  unfold LoadOrInit. intros H Hinit. destruct (incomingFiles w !! key); [done|].
  specialize (Hinit w). destruct (init w) as [v w0]. cbn in Hinit.
  destruct Hinit as (Hfs & Htr & Hreg). simplify_eq. split; [|done].
  split_and!.
  - cbn. by rewrite app_nil_r.
  - intros p c _. cbn. by rewrite Hfs.
  - cbn. by rewrite delete_insert_eq, Hreg.
Qed.

Lemma factory_frame m length pp w :
  fs (factory o m length pp w).2 = fs w ∧
  trace (factory o m length pp w).2 = trace w ∧
  incomingFiles (factory o m length pp w).2 = incomingFiles w.
Proof. done. Qed.

Lemma runs_Delete pp key w : runs pp key w (Delete key w) [].
Proof.
  unfold Delete. split_and!; cbn; [by rewrite app_nil_r|by intros ?|].
  by rewrite delete_delete_eq.
Qed.

(** The whole of [PutFile]. *)
Lemma PutFile_spec m id baseName r offset length w res w' :
  PutFile X o (Some m) id baseName r offset length w = (res, w') →
  callShape X (partialPathOf X m id baseName) (keyOf m id baseName)
            (dstPathOf X m baseName) offset res w w'.
Proof.
  intros [(-> & Hz & Hn & _)|(m' & f & w1 & w7 & [= <-] & HU & Hk & HL & HP & ->)]%PutFile_inv.
  { eapply callShape_early; [apply runs_refl|done|done]. }
  apply (LoadOrInit_fresh (partialPathOf X m id baseName)) in HL as [R0 _];
    [|apply factory_frame].
  apply receiveAndPublish_spec in HP
    as (pre & fin & post & j & R & F1 & F2 & F3 & G & Hj & P & F4 & Hz & Hex).
  unfold callShape. exists pre, fin, post, j. split_and!; try done.
  - pose proof (runs_trans _ _ _ _ _ _ _
                  (runs_trans _ _ _ _ _ _ _ R0 R)
                  (runs_Delete _ (keyOf m id baseName) w7)) as R'.
    cbn [app] in R'. by rewrite app_nil_r in R'.
Qed.
(** An admitted call finds the registry, at its return, as it was. *)
Lemma PutFile_registry m id baseName r offset length w :
  usable X m baseName →
  incomingFiles w !! keyOf m id baseName = None →
  incomingFiles (PutFile X o (Some m) id baseName r offset length w).2
    = incomingFiles w.
Proof.
  intros HU Hfree.
  destruct (PutFile X o (Some m) id baseName r offset length w)
    as [res w'] eqn:HP. cbn.
  assert (incomingFiles w' !! keyOf m id baseName = None) as Hgone.
  { apply PutFile_inv in HP
      as [(-> & _)|(m' & f & w1 & w7 & [= <-] & _ & _ & _ & _ & ->)]; [done|].
    unfold Delete. cbn. apply lookup_delete_eq. }
  apply PutFile_spec in HP as (pre & fin & post & j & (_ & _ & Hreg) & _).
  by rewrite !delete_id in Hreg.
Qed.

End Summary.

(** ** What [io.Copy] leaves in the partial file *)

Lemma wrap64_idem z : wrap64 (wrap64 z) = wrap64 z.
Proof. pose proof (wrap64_add_l z 0) as H. by rewrite !Z.add_0_r in H. Qed.

Lemma redactErr_Some e : redactErr (Some e) ≠ None.
Proof. unfold redactErr. by destruct e. Qed.

Section Content.
Variable X : Ext.
Variable o : Oracle.
Variable pp : string.
Variable key : incomingFileKey.

Lemma inFileWrite_content k pos f p w nw ew f' w' :
  inFileWrite o key pp k pos f p w = ((nw, ew), f', w') →
  ∃ m, nw = Z.of_nat m ∧ (m ≤ length p)%nat ∧
       fs w' = <[pp := writeAt (content w pp) (Z.to_nat pos) (take m p)]> (fs w) ∧
       (writeFault o k = None → m = length p ∧ ew = None).
Proof.
  unfold inFileWrite, FileWrite, Now, storeIncoming, sendFileNotify.
  intros H.
  destruct (writeFault o k) as [[m e]|] eqn:HF.
  - exists (m `min` length p)%nat.
    repeat case_match; simplify_eq; cbn; split_and!; try done; lia.
  - exists (length p).
    repeat case_match; simplify_eq; cbn; split_and!; try done.
Qed.

Lemma ioCopy_content r : ∀ k pos written f w n e f' w' c,
  ioCopy o key pp r k pos written f w = ((n, e), f', w') →
  fs w !! pp = Some c → 0 ≤ pos → (Z.to_nat pos ≤ length c)%nat →
  wrap64 written = written →
  ∃ data,
    fs w' = <[pp := writeAt c (Z.to_nat pos) data]> (fs w) ∧
    n = wrap64 (written + Z.of_nat (length data)) ∧
    ((∀ k, writeFault o k = None) → readAll r = (data, e)).
Proof.
  induction r as [|[p er] r IH];
    intros k pos written f w n e f' w' c H Hc Hpos Hle Hwr.
  { cbn in H. simplify_eq. exists []. cbn.
    rewrite writeAt_nil, insert_id, Z.add_0_r by done. done. }
  cbn [ioCopy] in H.
  destruct p as [|b p].
  { destruct er.
    - destruct (IH _ _ _ _ _ _ _ _ _ _ H Hc Hpos Hle Hwr) as (data & ? & ? & Hr).
      exists data. split_and!; [done..|]. intros HF. cbn. by rewrite (Hr HF).
    - simplify_eq. exists []. cbn.
      rewrite writeAt_nil, insert_id, Z.add_0_r by done. done.
    - simplify_eq. exists []. cbn.
      rewrite writeAt_nil, insert_id, Z.add_0_r by done. done. }
  destruct (inFileWrite o key pp k pos f (b :: p) w) as [[[nw ew] f1] w1] eqn:HW.
  apply inFileWrite_content in HW as (m & -> & Hm & Hfs1 & Hfault).
  unfold content in Hfs1. rewrite Hc in Hfs1. cbn [default] in Hfs1.
  destruct ew as [e0|].
  { simplify_eq. exists (take m (b :: p)). split_and!; [done| |].
    - rewrite length_take. do 2 f_equal. lia.
    - intros HF. by destruct (Hfault (HF k)). }
  destruct (negb (Z.of_nat (length (b :: p)) =? Z.of_nat m)) eqn:Hshort.
  { simplify_eq. exists (take m (b :: p)). split_and!; [done| |].
    - rewrite length_take. do 2 f_equal. lia.
    - intros HF. destruct (Hfault (HF k)) as [-> _].
      by rewrite Z.eqb_refl in Hshort. }
  apply negb_false_iff, Z.eqb_eq, Nat2Z.inj in Hshort. subst m.
  rewrite firstn_all in Hfs1.
  set (c1 := writeAt c (Z.to_nat pos) (b :: p)) in *.
  assert (fs w1 !! pp = Some c1) as Hc1 by (rewrite Hfs1; apply lookup_insert_eq).
  assert (Z.to_nat (pos + Z.of_nat (length (b :: p)))
          = (Z.to_nat pos + length (b :: p))%nat) as Hpos1 by lia.
  assert (Z.to_nat (pos + Z.of_nat (length (b :: p))) ≤ length c1)%nat as Hle1.
  { rewrite Hpos1. by apply writeAt_length. }
  assert (∀ n e f' w',
    ioCopy o key pp r (S k) (pos + Z.of_nat (length (b :: p)))
           (wrap64 (written + Z.of_nat (length (b :: p)))) f1 w1
      = ((n, e), f', w') →
    ∃ data,
      fs w' = <[pp := writeAt c (Z.to_nat pos) ((b :: p) ++ data)]> (fs w) ∧
      n = wrap64 (written + Z.of_nat (length ((b :: p) ++ data))) ∧
      ((∀ k, writeFault o k = None) → readAll r = (data, e))) as Hnext.
  { intros n0 e0 f0 w0 H0.
    destruct (IH _ _ _ _ _ _ _ _ _ _ H0 Hc1 ltac:(lia) Hle1 (wrap64_idem _))
      as (data & Hfs & Hn & Hr).
    exists data. split_and!; [| |done].
    - rewrite Hfs, Hfs1, insert_insert_eq, Hpos1. unfold c1.
      by rewrite writeAt_app.
    - rewrite Hn, wrap64_add_l, length_app. f_equal. lia. }
  destruct er.
  - destruct (Hnext _ _ _ _ H) as (data & ? & ? & Hr).
    exists ((b :: p) ++ data). split_and!; [done..|].
    intros HF. cbn [readAll]. by rewrite (Hr HF).
  - simplify_eq. exists (b :: p). split_and!; [by rewrite Hfs1|done|done].
  - simplify_eq. exists (b :: p). split_and!; [by rewrite Hfs1|done|done].
Qed.
End Content.

(** ** Claims about every call *)

Section Claims.
Variable X : Ext.
Variable o : Oracle.

(** C9. Whenever [PutFile] returns an error, the length it returns with it
    is 0. *)
Theorem PutFile_error_has_zero_length om id baseName r offset length w :
  (PutFile X o om id baseName r offset length w).1.2 ≠ None →
  (PutFile X o om id baseName r offset length w).1.1 = 0.
Proof.
  destruct om as [m|]; [|done].
  destruct (PutFile X o (Some m) id baseName r offset length w)
    as [res w'] eqn:HP.
  apply PutFile_spec in HP as (pre & fin & post & j & _ & _ & _ & _ & _ & _ & _ & _ & Hz & _).
  exact Hz.
Qed.

(** C5. A call that is admitted (the checks pass and its key is free) has
    removed its key from the registry when it returns, whatever the
    reader, the offset, the length and the outcome of every system call;
    the registry is then what it was before the call. *)
Theorem PutFile_deregisters_key m id baseName r offset length w :
  usable X m baseName →
  incomingFiles w !! keyOf m id baseName = None →
  incomingFiles (PutFile X o (Some m) id baseName r offset length w).2
    !! keyOf m id baseName = None ∧
  incomingFiles (PutFile X o (Some m) id baseName r offset length w).2
    = incomingFiles w.
Proof.
  intros HU Hfree.
  rewrite (PutFile_registry X o m id baseName r offset length w HU Hfree).
  done.
Qed.

(** C3. In every call, [os.Stat] and [os.Rename] are made with [renameMu]
    held, and [os.Rename] only onto a path that the [os.Stat] just before
    it, under the same lock, reported as not existing; the paths statted
    are the first candidates [dstPath], [NextFilename(dstPath)], ..., at
    most ten of them; and every file that was on the disk before the call,
    other than the call's own partial file, is on the disk after it with
    the content it had. *)
Theorem PutFile_never_overwrites m id baseName r offset length w :
  renamesGuarded
    (newEvents w (PutFile X o (Some m) id baseName r offset length w).2) ∧
  (∃ j, (j ≤ 10)%nat ∧
     statPaths (newEvents w (PutFile X o (Some m) id baseName r offset length w).2)
     = candidates X j (dstPathOf X m baseName)) ∧
  othersKept (partialPathOf X m id baseName) w
    (PutFile X o (Some m) id baseName r offset length w).2.
Proof.
  destruct (PutFile X o (Some m) id baseName r offset length w)
    as [res w'] eqn:HP. cbn.
  apply PutFile_spec in HP
    as (pre & fin & post & j & (T & K & _) & F1 & _ & _ & G & Hj & P & F4 & _).
  rewrite (newEvents_app _ _ _ T).
  apply receiveEv_outside in F4.
  split_and!; [|exists j; split; [done|]|done].
  - unfold renamesGuarded.
    rewrite guardRun_app, (guardRun_outside _ _ F1). cbn.
    rewrite guardRun_app, G. cbn. by apply guardRun_outside.
  - rewrite !statPaths_app, (statPaths_outside _ F1), (statPaths_outside _ F4), P.
    by rewrite app_nil_r.
Qed.

(** C8. In every call [os.Stat] is called at most ten times; and when it
    was called ten times and none of the ten rounds ended in a rename, a
    removal or a logged error (all ten candidate names were taken by other
    content), the call returns the error of line 237 with the length 0, and
    the partial file is still on the disk. *)
Theorem PutFile_at_most_ten_attempts m id baseName r offset length w :
  (statCount
     (newEvents w (PutFile X o (Some m) id baseName r offset length w).2)
   ≤ 10)%nat ∧
  (statCount
     (newEvents w (PutFile X o (Some m) id baseName r offset length w).2)
   = 10%nat →
   noOutcome
     (newEvents w (PutFile X o (Some m) id baseName r offset length w).2) →
   (PutFile X o (Some m) id baseName r offset length w).1
     = (0, Some tooManyRetries) ∧
   is_Some (fs (PutFile X o (Some m) id baseName r offset length w).2
              !! partialPathOf X m id baseName)).
Proof.
  destruct (PutFile X o (Some m) id baseName r offset length w)
    as [res w'] eqn:HP. cbn.
  apply PutFile_spec in HP
    as (pre & fin & post & j & (T & _) & F1 & _ & _ & _ & Hj & P & F4 & _ & Hex).
  rewrite (newEvents_app _ _ _ T).
  apply receiveEv_outside in F4.
  assert (statCount (pre ++ fin ++ post) = j) as ->.
  { unfold statCount.
    rewrite !statPaths_app, (statPaths_outside _ F1), (statPaths_outside _ F4), P.
    cbn [app]. by rewrite app_nil_r, candidates_length. }
  split; [done|]. exact Hex.
Qed.
End Claims.

(** ** Calls that arrive at [io.Copy] *)

Section Copy.
Variable X : Ext.
Variable o : Oracle.

Lemma PutFile_via_beforeCopy m id baseName r offset length w f pos w3 :
  usable X m baseName →
  beforeCopy X o m id baseName offset length w = Some (f, pos, w3) →
  PutFile X o (Some m) id baseName r offset length w =
    let '(res, err, w4) :=
      copyAndFinalize X o (DirectFileMode m && AvoidFinalRename m)
        (keyOf m id baseName) (partialPathOf X m id baseName)
        (dstPathOf X m baseName) r pos offset length f w3 in
    (res, Delete (keyOf m id baseName)
            (deferredCleanup o (DirectFileMode m && AvoidFinalRename m)
               (partialPathOf X m id baseName) err w4)).
Proof.
  intros (HD & HC & HUn & HJ).
  unfold beforeCopy, PutFile, receiveAndPublish, partialPathOf, dstPathOf, keyOf,
    effectiveID.
  rewrite decide_False by done. rewrite HC. cbn [negb].
  destruct (joinDir X m baseName) as [dstPath jerr]. cbn in HJ. subst jerr.
  cbn [fst].
  assert (bool_decide (distroGet X = Unraid) && negb (DirectFileMode m) = false)
    as ->.
  { destruct (decide (distroGet X = Unraid)) as [E|E].
    - rewrite (HUn E). by rewrite andb_false_r.
    - by rewrite bool_decide_eq_false_2. }
  destruct (LoadOrInit _ _ w) as [[inFile loaded] w1].
  destruct loaded; [done|].
  destruct (OpenFile o _ w1) as [operr w2].
  destruct operr; [done|].
  destruct (resume o _ offset w2) as [[?|pos'] w3']; [done|].
  intros [= <- <- <-].
  by destruct (copyAndFinalize _ _ _ _ _ _ _ _ _ _ _ _) as [[res err] w4].
Qed.

(** C6. A call that arrives at [io.Copy] with a declared length that is
    not negative, and whose copy returns another count than the declared
    one, returns an error (and the length 0), whether the copy itself
    failed or not. *)
Theorem PutFile_rejects_length_mismatch m id baseName r offset length w
    f pos w3 :
  usable X m baseName →
  beforeCopy X o m id baseName offset length w = Some (f, pos, w3) →
  0 ≤ length →
  (ioCopy o (keyOf m id baseName) (partialPathOf X m id baseName)
          r 0 pos 0 f w3).1.1.1 ≠ length →
  (PutFile X o (Some m) id baseName r offset length w).1.1 = 0 ∧
  (PutFile X o (Some m) id baseName r offset length w).1.2 ≠ None.
Proof.
  intros HU HB Hlen Hne.
  rewrite (PutFile_via_beforeCopy _ _ _ r _ _ _ _ _ _ HU HB).
  unfold copyAndFinalize.
  destruct (ioCopy _ _ _ r 0 pos 0 f w3) as [[[copyLength cerr] f1] w4].
  cbn in Hne.
  destruct cerr as [e|].
  { unfold redactAndLogError. cbn. split; [done|apply redactErr_Some]. }
  assert ((0 <=? length) && negb (copyLength =? length) = true) as ->.
  { apply andb_true_iff. split; [lia|]. apply negb_true_iff. lia. }
  unfold redactAndLogError. cbn. split; [done|apply redactErr_Some].
Qed.

Lemma beforeCopy_offset_zero m id baseName length w f pos w3 :
  beforeCopy X o m id baseName 0 length w = Some (f, pos, w3) →
  pos = 0 ∧
  trace w3 = trace w ++ [EvOpenFile (partialPathOf X m id baseName)] ∧
  fs w3 !! partialPathOf X m id baseName
    = Some (content w (partialPathOf X m id baseName)).
Proof.
  unfold beforeCopy, LoadOrInit, factory, Now, OpenFile, resume, content.
  cbn. intros H.
  repeat case_match; simplify_eq; cbn in *; split_and!; try done.
  - match goal with E : fs w !! _ = Some _ |- _ => by rewrite E end.
  - match goal with E : fs w !! _ = None |- _ => rewrite E end.
    by rewrite lookup_insert_eq.
Qed.

(** C10. With [offset = 0], a call that arrives at [io.Copy] has only
    opened the partial file, without truncation (its content is what it was
    before the call) and with the file handle at position 0; after the copy
    the file holds the bytes written followed by the bytes the old content
    had beyond them; and the whole call makes no [Seek] and no [Truncate]. *)
Theorem PutFile_offset_zero_keeps_stale_tail m id baseName r length w f pos w3 :
  beforeCopy X o m id baseName 0 length w = Some (f, pos, w3) →
  pos = 0 ∧
  newEvents w w3 = [EvOpenFile (partialPathOf X m id baseName)] ∧
  content w3 (partialPathOf X m id baseName)
    = content w (partialPathOf X m id baseName) ∧
  (∃ data,
     (ioCopy o (keyOf m id baseName) (partialPathOf X m id baseName)
             r 0 pos 0 f w3).1.1.1 = wrap64 (Z.of_nat (List.length data)) ∧
     fs (ioCopy o (keyOf m id baseName) (partialPathOf X m id baseName)
                r 0 pos 0 f w3).2
       !! partialPathOf X m id baseName
     = Some (data ++ drop (List.length data)
                          (content w (partialPathOf X m id baseName)))) ∧
  Forall (λ e, isSeekOrTruncate e = false)
    (newEvents w (PutFile X o (Some m) id baseName r 0 length w).2).
Proof.
  intros HB. destruct (beforeCopy_offset_zero _ _ _ _ _ _ _ _ HB) as (-> & T & Hc).
  split_and!; [done|by apply newEvents_app|by unfold content; rewrite Hc| |].
  - destruct (ioCopy _ _ _ r 0 0 0 f w3) as [[[n e] f1] w4] eqn:HC.
    eapply ioCopy_content in HC as (data & Hfs & Hn & _);
      [|exact Hc|lia|cbn; lia|done].
    exists data. cbn. split; [done|].
    by rewrite Hfs, lookup_insert_eq, writeAt_0_drop.
  - destruct (PutFile X o (Some m) id baseName r 0 length w) as [res w'] eqn:HP.
    apply PutFile_spec in HP
      as (pre & fin & post & j & (T' & _) & _ & F1 & F2 & _ & _ & _ & F3 & _).
    cbn. rewrite (newEvents_app _ _ _ T'). specialize (F1 eq_refl).
    rewrite !Forall_app. split_and!.
    + eapply Forall_impl; [exact F1|]. by intros [].
    + eapply Forall_impl; [exact F2|]. by intros [].
    + eapply Forall_impl; [exact F3|]. by intros [].
Qed.
End Copy.

(** ** Resuming at an offset the partial file does not have *)

Section BadOffset.
Variable X : Ext.
Variable o : Oracle.

(** X13. When the call is admitted, the partial file opens and its length
    is read, an offset that is negative or beyond that length makes the call
    return at line 151 with the [err] of the successful [Seek]: the pair
    [(0, nil)].  The content of the partial file stays as it was. *)
Lemma PutFile_invalid_offset m id baseName r offset length w :
  usable X m baseName →
  incomingFiles w !! keyOf m id baseName = None →
  openFault o = None → seekEndFault o = None →
  offset < 0 ∨
    Z.of_nat (List.length (content w (partialPathOf X m id baseName))) < offset →
  (PutFile X o (Some m) id baseName r offset length w).1 = (0, None) ∧
  content (PutFile X o (Some m) id baseName r offset length w).2
          (partialPathOf X m id baseName)
    = content w (partialPathOf X m id baseName).
Proof.
  intros (HD & HC & HUn & HJ) Hfree Hopen Hseek Hoff.
  unfold PutFile, receiveAndPublish, partialPathOf, dstPathOf, keyOf, effectiveID in *.
  rewrite decide_False by done. rewrite HC. cbn [negb].
  destruct (joinDir X m baseName) as [dstPath jerr]. cbn in HJ. subst jerr.
  cbn [fst] in *.
  assert (bool_decide (distroGet X = Unraid) && negb (DirectFileMode m) = false)
    as ->.
  { destruct (decide (distroGet X = Unraid)) as [E|E].
    - rewrite (HUn E). by rewrite andb_false_r.
    - by rewrite bool_decide_eq_false_2. }
  set (pp := dstPath +:+ _) in *.
  unfold LoadOrInit. rewrite Hfree. unfold factory, Now. cbn.
  unfold OpenFile, resume, SeekEnd, redactAndLogError, deferredCleanup, Close,
    Delete, content in *.
  rewrite Hopen, Hseek. cbn.
  assert ((offset =? 0) = false) as -> by lia. cbn.
  destruct (fs w !! pp) as [c|] eqn:Hpp; cbn in Hoff;
    cbn; rewrite ?lookup_insert_eq; cbn.
  - rewrite Hpp. cbn.
    match goal with
    | |- context [(?a <? ?b) || (?c <? ?d)] =>
        assert ((a <? b) || (c <? d) = true) as ->
          by (apply orb_true_iff; rewrite !Z.ltb_lt; lia)
    end.
    cbn. by rewrite Hpp.
  - match goal with
    | |- context [(?a <? ?b) || (?c <? ?d)] =>
        assert ((a <? b) || (c <? d) = true) as ->
          by (apply orb_true_iff; rewrite !Z.ltb_lt; lia)
    end.
    cbn. by rewrite lookup_insert_eq.
Qed.
End BadOffset.

(** ** Concurrent calls *)

Section Registry.
Lemma registryInv_initial s : initial s → registryInv s.
Proof.
  intros [_ HA]. rewrite Forall_lookup in HA.
  split; intros i; intros; by specialize (HA i _ ltac:(eassumption)).
Qed.

Lemma LoadOrInit_factory k o m length pp w f loaded w' :
  LoadOrInit k (factory o m length pp) w = ((f, loaded), w') →
  if loaded then is_Some (incomingFiles w !! k) ∧ w' = w
  else incomingFiles w !! k = None ∧
       incomingFiles w' = <[k := f]> (incomingFiles w).
Proof.
  unfold LoadOrInit, factory, Now.
  destruct (incomingFiles w !! k) eqn:E; cbn; intros [= <- <- <-]; [eauto|done].
Qed.

Lemma registryInv_step s s' : step s s' → registryInv s → registryInv s'.
Proof.
  intros Hstep [Hreg Huniq].
  destruct Hstep as [w pool i k o m length pp f w' Hi HL
                    |w pool i k o m length pp f w' Hi HL
                    |w pool i k f d Hi
                    |w pool i k Hi]; cbn in *.
  - apply LoadOrInit_factory in HL as [Hfree Hins].
    pose proof (lookup_lt_Some _ _ _ Hi) as Hlt.
    split; cbn.
    + intros j k' Hj. rewrite Hins.
      destruct (decide (i = j)) as [<-|Hne].
      * rewrite list_lookup_insert_eq in Hj by done. simplify_eq.
        by rewrite lookup_insert_eq.
      * rewrite list_lookup_insert_ne in Hj by done.
        destruct (decide (k = k')) as [<-|Hk];
          [by rewrite lookup_insert_eq|].
        rewrite lookup_insert_ne by done. eauto.
    + intros j1 j2 k' H1 H2.
      destruct (decide (i = j1)) as [<-|N1], (decide (i = j2)) as [<-|N2];
        [done|..].
      * rewrite list_lookup_insert_eq in H1 by done.
        rewrite list_lookup_insert_ne in H2 by done. simplify_eq.
        destruct (Hreg _ _ H2) as [? ?]. congruence.
      * rewrite list_lookup_insert_ne in H1 by done.
        rewrite list_lookup_insert_eq in H2 by done. simplify_eq.
        destruct (Hreg _ _ H1) as [? ?]. congruence.
      * rewrite list_lookup_insert_ne in H1, H2 by done. eauto.
  - apply LoadOrInit_factory in HL as [_ ->].
    pose proof (lookup_lt_Some _ _ _ Hi) as Hlt.
    split; cbn.
    + intros j k' Hj. destruct (decide (i = j)) as [<-|Hne].
      * rewrite list_lookup_insert_eq in Hj by done. done.
      * rewrite list_lookup_insert_ne in Hj by done. eauto.
    + intros j1 j2 k' H1 H2.
      destruct (decide (i = j1)) as [<-|N1];
        [by rewrite list_lookup_insert_eq in H1|].
      destruct (decide (i = j2)) as [<-|N2];
        [by rewrite list_lookup_insert_eq in H2|].
      rewrite list_lookup_insert_ne in H1, H2 by done. eauto.
  - split; cbn; [|done].
    intros j k' Hj. unfold storeIncoming. cbn.
    destruct (decide (k = k')) as [<-|Hk]; [by rewrite lookup_insert_eq|].
    rewrite lookup_insert_ne by done. eauto.
  - pose proof (lookup_lt_Some _ _ _ Hi) as Hlt.
    split; cbn.
    + intros j k' Hj. unfold Delete. cbn.
      destruct (decide (i = j)) as [<-|Hne].
      * by rewrite list_lookup_insert_eq in Hj.
      * rewrite list_lookup_insert_ne in Hj by done.
        rewrite lookup_delete_ne; [eauto|].
        intros <-. by specialize (Huniq _ _ _ Hi Hj).
    + intros j1 j2 k' H1 H2.
      destruct (decide (i = j1)) as [<-|N1];
        [by rewrite list_lookup_insert_eq in H1|].
      destruct (decide (i = j2)) as [<-|N2];
        [by rewrite list_lookup_insert_eq in H2|].
      rewrite list_lookup_insert_ne in H1, H2 by done. eauto.
Qed.

Lemma registryInv_reachable s s' :
  initial s → rtc step s s' → registryInv s'.
Proof.
  intros Hinit Hsteps. apply registryInv_initial in Hinit.
  induction Hsteps as [|s1 s2 s3 H12 _ IH]; [done|].
  apply IH. by eapply registryInv_step.
Qed.

(** C4. In every state that concurrent calls can reach (by the atomic
    [LoadOrInit] of line 107, work of the admitted calls, and the deferred
    [Delete]), a call that is past admission with some key is the only one
    past admission with that key; and [PutFile] called with that key in
    that state returns [(0, ErrFileExists)] and leaves the world as it is:
    the disk, the registry, the clock and the trace (no system call is
    made). *)
Theorem PutFile_one_transfer_per_key X o m id baseName r offset length s s' i :
  initial s → rtc step s s' →
  usable X m baseName →
  s'.2 !! i = Some (Active (keyOf m id baseName)) →
  (∀ j, s'.2 !! j = Some (Active (keyOf m id baseName)) → j = i) ∧
  PutFile X o (Some m) id baseName r offset length s'.1
    = ((0, Some ErrFileExists), s'.1).
Proof.
  intros Hinit Hsteps HU Hi.
  destruct (registryInv_reachable _ _ Hinit Hsteps) as [Hreg Huniq].
  split; [intros j Hj; by eapply Huniq|].
  destruct (PutFile X o (Some m) id baseName r offset length s'.1)
    as [res w'] eqn:HP.
  apply PutFile_inv in HP
    as [(-> & _ & _ & Hrej)|(m' & f & w1 & w7 & [= <-] & _ & Hfree & _)].
  - by destruct (Hrej m eq_refl HU) as [_ ->].
  - destruct (Hreg _ _ Hi) as [? ?]. congruence.
Qed.
End Registry.

(** ** Calls during which nothing fails *)

Lemma append_eq_self (d s : string) : d +:+ s = d → s = "".
Proof.
  induction d as [|a d IH]; cbn; [done|]. intros [= H]. by apply IH.
Qed.

Section Faultless.
Variable X : Ext.
Variable o : Oracle.
Hypothesis quiet : faultless o.

(** The first round finds the destination free: the partial file is
    renamed onto it. *)
Lemma finalize_fresh pp dst fl c w :
  fs w !! dst = None → fs w !! pp = Some c →
  ∃ w', finalize X o pp dst fl w = ((fl, None), w') ∧
        fs w' = <[dst := c]> (delete pp (fs w)) ∧
        incomingFiles w' = incomingFiles w.
Proof.
  destruct quiet as (_ & _ & _ & _ & _ & _ & Hstat & Hren & _).
  intros Hdst Hpp. unfold finalize. cbn [renameLoop].
  unfold loopBody, statRename, Rename. rewrite Hstat. cbn.
  rewrite Hdst, Hren, Hpp. cbn.
  change (Z.of_nat 10 <=? 0) with false. cbn. unfold sendFileNotify.
  eexists. split_and!; reflexivity.
Qed.

(** The first round finds the destination taken by a file of the same
    length and the same digest: the partial file is removed. *)
Lemma finalize_dedup pp dst fl c d w :
  fs w !! dst = Some d → fs w !! pp = Some c →
  Z.of_nat (length d) = fl → sha256Sum X d = sha256Sum X c →
  ∃ w', finalize X o pp dst fl w = ((fl, None), w') ∧
        fs w' = delete pp (fs w) ∧
        incomingFiles w' = incomingFiles w.
Proof.
  destruct quiet as (_ & _ & _ & _ & _ & _ & Hstat & _ & Hps & Hds & Hrm).
  intros Hdst Hpp Hlen Hsum. unfold finalize. cbn [renameLoop].
  unfold loopBody, statRename, computePartialSum, sha256File, Remove.
  rewrite Hstat. cbn. rewrite Hdst. cbn.
  assert ((Z.of_nat (length d) <? 0) = false) as -> by lia.
  rewrite Hlen, Z.eqb_refl, Hps. cbn. rewrite Hpp, Hds. cbn. rewrite Hdst.
  rewrite decide_True by done. rewrite Hrm. cbn. rewrite Hpp. cbn.
  change (Z.of_nat 10 <=? 0) with false. cbn. unfold sendFileNotify.
  eexists. split_and!; reflexivity.
Qed.

(** A fresh transfer at offset 0 whose reader delivers [data]: the call
    arrives at the finalize protocol with [data] in the partial file. *)
Lemma receiveAndPublish_receives key pp dst r length f data w :
  readAll r = (data, None) →
  length < 0 ∨ length = Z.of_nat (List.length data) →
  Z.of_nat (List.length data) ≤ int64_max →
  fs w !! pp = None →
  ∃ w5, fs w5 = <[pp := data]> (fs w) ∧
        delete key (incomingFiles w5) = delete key (incomingFiles w) ∧
        receiveAndPublish X o false key pp dst r 0 length f w =
          let '(res, w6) :=
            finalize X o pp dst (Z.of_nat (List.length data)) w5 in
          (res, deferredCleanup o false pp None w6).
Proof.
  destruct quiet as (Hopen & _ & _ & _ & Hwrite & Hclose & _).
  intros Hread Hlen Hmax Hpp.
  unfold receiveAndPublish, OpenFile, resume. rewrite Hopen. cbn. rewrite Hpp. cbn.
  unfold copyAndFinalize.
  set (w2 := set_fs _ _).
  destruct (ioCopy o key pp r 0 0 0 f w2) as [[[n e] f1] w4] eqn:HC.
  pose proof (ioCopy_runs o pp key _ _ _ _ _ _ _ _ _ HC) as (evs & (_ & _ & Hreg) & _).
  eapply (ioCopy_content o pp key) in HC as (data' & Hfs & Hn & Hr);
    [|by apply lookup_insert_eq|lia|cbn; lia|done].
  rewrite Hread in Hr. specialize (Hr Hwrite). simplify_eq.
  rewrite Z.add_0_l, wrap64_small by (unfold int64_min; lia).
  assert ((0 <=? length) && negb (Z.of_nat (List.length data') =? length) = false)
    as ->.
  { destruct Hlen as [Hlen| ->].
    - assert ((0 <=? length) = false) as -> by lia. done.
    - by rewrite Z.eqb_refl, andb_false_r. }
  unfold Close. rewrite Hclose.
  rewrite Z.add_0_l, wrap64_small by (unfold int64_min; lia).
  exists (emit EvClose w4). split_and!; [|exact Hreg|by destruct (finalize _ _ _ _ _ _)].
  cbn. rewrite Hfs. unfold w2. cbn.
  rewrite insert_insert_eq. f_equal.
  change (Z.to_nat 0) with 0%nat. rewrite writeAt_0_drop.
  by rewrite drop_nil, app_nil_r.
Qed.
End Faultless.

Section TwoCalls.
Variable X : Ext.

(** A fresh transfer whose reader delivers [data], in a call during which
    nothing fails, with the finalize protocol: what it returns and what it
    leaves on the disk, when the destination is free and when it holds a
    file of the same length and digest. *)
Lemma PutFile_faultless o m id baseName r length data w :
  faultless o → usable X m baseName →
  DirectFileMode m && AvoidFinalRename m = false →
  incomingFiles w !! keyOf m id baseName = None →
  readAll r = (data, None) →
  length < 0 ∨ length = Z.of_nat (List.length data) →
  Z.of_nat (List.length data) ≤ int64_max →
  partialPathOf X m id baseName ≠ dstPathOf X m baseName →
  fs w !! partialPathOf X m id baseName = None →
  (fs w !! dstPathOf X m baseName = None →
   (PutFile X o (Some m) id baseName r 0 length w).1
     = (Z.of_nat (List.length data), None) ∧
   fs (PutFile X o (Some m) id baseName r 0 length w).2
     = <[dstPathOf X m baseName := data]> (fs w)) ∧
  (∀ d, fs w !! dstPathOf X m baseName = Some d →
        List.length d = List.length data →
        sha256Sum X d = sha256Sum X data →
   (PutFile X o (Some m) id baseName r 0 length w).1
     = (Z.of_nat (List.length data), None) ∧
   fs (PutFile X o (Some m) id baseName r 0 length w).2 = fs w).
Proof.
  intros Hq HU Havoid Hfree Hread Hlen Hmax Hne Hpp.
  destruct (PutFile X o (Some m) id baseName r 0 length w) as [res w'] eqn:HP.
  cbn.
  apply PutFile_inv in HP
    as [(_ & _ & _ & Hrej)|(m' & f & w1 & w7 & [= <-] & _ & _ & HL & HA & ->)].
  { destruct (Hrej m eq_refl HU) as [[? ?] _]. congruence. }
  apply (LoadOrInit_fresh (partialPathOf X m id baseName)) in HL as [_ Hfs1];
    [|apply factory_frame].
  rewrite Havoid in HA.
  destruct (receiveAndPublish_receives X o Hq (keyOf m id baseName)
              (partialPathOf X m id baseName) (dstPathOf X m baseName)
              r length f data w1 Hread Hlen Hmax)
    as (w5 & Hfs5 & _ & Heq); [by rewrite Hfs1|].
  rewrite Heq in HA. clear Heq.
  assert (fs w5 !! partialPathOf X m id baseName = Some data) as Hpp5
    by (rewrite Hfs5; apply lookup_insert_eq).
  assert (fs w5 !! dstPathOf X m baseName = fs w !! dstPathOf X m baseName)
    as Hdst5 by (by rewrite Hfs5, lookup_insert_ne, Hfs1).
  assert (∀ w6, fs (Delete (keyOf m id baseName)
                      (deferredCleanup o false (partialPathOf X m id baseName)
                                       None w6)) = fs w6) as Hpost by done.
  split.
  - intros Hdst.
    destruct (finalize_fresh X o Hq (partialPathOf X m id baseName)
                (dstPathOf X m baseName) (Z.of_nat (List.length data)) data w5)
      as (w6 & HF & Hfs6 & _); [congruence|done|].
    rewrite HF in HA. simplify_eq. split; [done|].
    rewrite Hpost, Hfs6, Hfs5, delete_insert_eq, Hfs1.
    by rewrite delete_id.
  - intros d Hdst Hdlen Hsum.
    destruct (finalize_dedup X o Hq (partialPathOf X m id baseName)
                (dstPathOf X m baseName) (Z.of_nat (List.length data)) data d w5)
      as (w6 & HF & Hfs6 & _); [congruence|done|by rewrite Hdlen|done|].
    rewrite HF in HA. simplify_eq. split; [done|].
    rewrite Hpost, Hfs6, Hfs5, delete_insert_eq, Hfs1.
    by rewrite delete_id.
Qed.

(** C2. Two calls, one after the other, for the same base name, whose
    readers deliver the same bytes, with the finalize protocol and without
    a failing system call, on a disk that has neither the destination nor
    the partial files: the first call publishes the destination; the
    second finds it with the same length and digest, returns the length
    and no error, removes its own partial file and leaves the disk as the
    first call left it, so the content is there once, under the destination
    name. *)
Theorem PutFile_twice_publishes_once o1 o2 m id1 id2 baseName r1 r2 length
    data w :
  faultless o1 → faultless o2 →
  usable X m baseName →
  DirectFileMode m && AvoidFinalRename m = false →
  partialSuffix X id1 ≠ "" → partialSuffix X id2 ≠ "" →
  incomingFiles w !! keyOf m id1 baseName = None →
  incomingFiles w !! keyOf m id2 baseName = None →
  readAll r1 = (data, None) → readAll r2 = (data, None) →
  length < 0 ∨ length = Z.of_nat (List.length data) →
  Z.of_nat (List.length data) ≤ int64_max →
  fs w !! dstPathOf X m baseName = None →
  fs w !! partialPathOf X m id1 baseName = None →
  fs w !! partialPathOf X m id2 baseName = None →
  let first := PutFile X o1 (Some m) id1 baseName r1 0 length w in
  let second := PutFile X o2 (Some m) id2 baseName r2 0 length first.2 in
  first.1 = (Z.of_nat (List.length data), None) ∧
  fs first.2 = <[dstPathOf X m baseName := data]> (fs w) ∧
  second.1 = (Z.of_nat (List.length data), None) ∧
  fs second.2 !! partialPathOf X m id2 baseName = None ∧
  fs second.2 = <[dstPathOf X m baseName := data]> (fs w).
Proof.
  intros Hq1 Hq2 HU Havoid Hs1 Hs2 Hk1 Hk2 Hr1 Hr2 Hlen Hmax Hdst Hp1 Hp2.
  assert (∀ id, partialSuffix X id ≠ "" → effectiveID m id = id →
                partialPathOf X m id baseName ≠ dstPathOf X m baseName) as Hne.
  { intros id Hs Hid E. unfold partialPathOf in E. rewrite Hid in E.
    by apply append_eq_self in E. }
  assert (∀ id, effectiveID m id = id) as Hid.
  { intros id. unfold effectiveID. by rewrite Havoid. }
  cbn zeta.
  destruct (PutFile_faultless o1 m id1 baseName r1 length data w
              Hq1 HU Havoid Hk1 Hr1 Hlen Hmax (Hne _ Hs1 (Hid _)) Hp1)
    as [Hfresh _].
  destruct (Hfresh Hdst) as [Hres1 Hfs1].
  pose proof (PutFile_registry X o1 m id1 baseName r1 0 length w HU Hk1) as Hreg1.
  set (w1 := (PutFile X o1 (Some m) id1 baseName r1 0 length w).2) in *.
  assert (fs w1 !! partialPathOf X m id2 baseName = None) as Hp2'.
  { rewrite Hfs1, lookup_insert_ne; [done|].
    intros E. by apply (Hne _ Hs2 (Hid _)). }
  destruct (PutFile_faultless o2 m id2 baseName r2 length data w1
              Hq2 HU Havoid ltac:(by rewrite Hreg1) Hr2 Hlen Hmax
              (Hne _ Hs2 (Hid _)) Hp2')
    as [_ Hdedup].
  destruct (Hdedup data) as [Hres2 Hfs2];
    [by rewrite Hfs1, lookup_insert_eq|done|done|].
  split_and!; [done|done|done| |].
  - by rewrite Hfs2.
  - by rewrite Hfs2.
Qed.
End TwoCalls.

(** ** Ten candidate names taken by other content *)

Section Collisions.
Variable X : Ext.
Variable o : Oracle.
Hypothesis quiet : faultless o.

Lemma renameLoop_all_taken pp fl pc k : ∀ dst memo w,
  fs w !! pp = Some pc →
  memo = None ∨ memo = Some (sha256Sum X pc) →
  Forall (takenByOther X w fl pc) (candidates X k dst) →
  ∃ w', renameLoop X o k pp dst fl memo w = (LoopDone 0, w') ∧ fs w' = fs w.
Proof.
  destruct quiet as (_ & _ & _ & _ & _ & _ & Hstat & _ & Hps & Hds & _).
  induction k as [|k IH]; intros dst memo w Hpp Hmemo Htaken; cbn [renameLoop].
  { by exists w. }
  cbn [candidates] in Htaken. apply Forall_cons in Htaken as [(c & Hc & Hother) Hrest].
  assert (∃ memo' w1,
    loopBody X o (S k) pp dst fl memo w = (BodyNext memo', w1) ∧
    fs w1 = fs w ∧ (memo' = None ∨ memo' = Some (sha256Sum X pc)))
    as (memo' & w1 & -> & Hfs1 & Hmemo').
  { unfold loopBody, statRename, computePartialSum, sha256File.
    rewrite Hstat. cbn. rewrite Hc. cbn.
    assert ((Z.of_nat (length c) <? 0) = false) as -> by lia.
    destruct (Z.of_nat (length c) =? fl) eqn:Hlen;
      [|by eexists _, _; split_and!; [reflexivity|reflexivity|exact Hmemo]].
    apply Z.eqb_eq in Hlen. destruct Hother as [?|Hsum]; [done|].
    destruct Hmemo as [-> | ->].
    - rewrite Hps. cbn. rewrite Hpp, Hds. cbn. rewrite Hc.
      rewrite decide_False by done.
      eexists _, _. split_and!; [reflexivity|reflexivity|by right].
    - rewrite Hds. cbn. rewrite Hc. rewrite decide_False by done.
      eexists _, _. split_and!; [reflexivity|reflexivity|by right]. }
  destruct (IH (NextFilename X dst) memo' w1) as (w' & HL & Hfs');
    [by rewrite Hfs1|done| |].
  { eapply Forall_impl; [exact Hrest|]. intros p (c' & ? & ?).
    exists c'. by rewrite Hfs1. }
  exists w'. split; [done|congruence].
Qed.

(** X14. A fresh transfer whose reader delivers [data], in a call during
    which nothing fails, on a disk where the destination and its next nine
    candidate names are taken by other content: the call returns the error
    of line 237, and the partial file stays on the disk with [data]. *)
Lemma PutFile_ten_names_taken m id baseName r length data w :
  usable X m baseName →
  DirectFileMode m && AvoidFinalRename m = false →
  incomingFiles w !! keyOf m id baseName = None →
  readAll r = (data, None) →
  length < 0 ∨ length = Z.of_nat (List.length data) →
  Z.of_nat (List.length data) ≤ int64_max →
  fs w !! partialPathOf X m id baseName = None →
  Forall (takenByOther X w (Z.of_nat (List.length data)) data)
         (candidates X 10 (dstPathOf X m baseName)) →
  (PutFile X o (Some m) id baseName r 0 length w).1 = (0, Some tooManyRetries) ∧
  fs (PutFile X o (Some m) id baseName r 0 length w).2
    = <[partialPathOf X m id baseName := data]> (fs w).
Proof.
  intros HU Havoid Hfree Hread Hlen Hmax Hpp Htaken.
  destruct (PutFile X o (Some m) id baseName r 0 length w) as [res w'] eqn:HP.
  cbn.
  apply PutFile_inv in HP
    as [(_ & _ & _ & Hrej)|(m' & f & w1 & w7 & [= <-] & _ & _ & HL & HA & ->)].
  { destruct (Hrej m eq_refl HU) as [[? ?] _]. congruence. }
  apply (LoadOrInit_fresh (partialPathOf X m id baseName)) in HL as [_ Hfs1];
    [|apply factory_frame].
  rewrite Havoid in HA.
  destruct (receiveAndPublish_receives X o quiet (keyOf m id baseName)
              (partialPathOf X m id baseName) (dstPathOf X m baseName)
              r length f data w1 Hread Hlen Hmax)
    as (w5 & Hfs5 & _ & Heq); [by rewrite Hfs1|].
  rewrite Heq in HA. clear Heq.
  destruct (renameLoop_all_taken (partialPathOf X m id baseName)
              (Z.of_nat (List.length data)) data 10
              (dstPathOf X m baseName) None w5) as (w6 & HLoop & Hfs6).
  { rewrite Hfs5. apply lookup_insert_eq. }
  { by left. }
  { eapply Forall_impl; [exact Htaken|]. intros p (c & Hc & Hother).
    exists c. split; [|done].
    rewrite Hfs5, lookup_insert_ne, Hfs1; [done|]. intros <-. congruence. }
  unfold finalize in HA. rewrite HLoop in HA.
  change (Z.of_nat 0 <=? 0) with true in HA. cbn in HA. simplify_eq.
  split; [done|]. unfold deferredCleanup, Close, Delete. cbn.
  by rewrite Hfs6, Hfs5, Hfs1.
Qed.
End Collisions.

(** ** The statements at concrete inputs *)

Lemma quietOracle_faultless t0 : faultless (quietOracle t0).
Proof. by repeat split. Qed.

Lemma exampleManager_usable baseName :
  usable exampleExt exampleManager baseName.
Proof. by repeat split. Qed.

(** C1. On a disk where bob's partial file has five bytes, a call that
    resumes at offset 7 returns the length 0 and the error [nil]: the call
    does not fail. *)
Theorem PutFile_offset_beyond_partial_returns_nil :
  (PutFile exampleExt (quietOracle 100) (Some exampleManager) "bob" "photo.jpg"
           exampleReader 7 3 staleWorld).1 = (0, None).
Proof. vm_compute. reflexivity. Qed.

(** The same at a negative offset, and in both cases the partial file keeps
    its five bytes. *)
Example PutFile_negative_offset_returns_nil :
  (PutFile exampleExt (quietOracle 100) (Some exampleManager) "bob" "photo.jpg"
           exampleReader (-1) 3 staleWorld).1 = (0, None) ∧
  fs (PutFile exampleExt (quietOracle 100) (Some exampleManager) "bob"
              "photo.jpg" exampleReader (-1) 3 staleWorld).2
    = fs staleWorld.
Proof. vm_compute. split; reflexivity. Qed.

Lemma PutFile_twice_publishes_once_witness :
  let first := PutFile exampleExt (quietOracle 100) (Some exampleManager)
                       "alice" "photo.jpg" exampleReader 0 3 emptyWorld in
  let second := PutFile exampleExt (quietOracle 200) (Some exampleManager)
                        "bob" "photo.jpg" exampleReader 0 3 first.2 in
  first.1 = (3, None) ∧
  fs first.2 = <["/d/photo.jpg" := exampleData]> ∅ ∧
  second.1 = (3, None) ∧
  fs second.2 !! "/d/photo.jpg.bob.partial" = None ∧
  fs second.2 = <["/d/photo.jpg" := exampleData]> ∅.
Proof.
  apply (PutFile_twice_publishes_once exampleExt (quietOracle 100)
           (quietOracle 200) exampleManager "alice" "bob" "photo.jpg"
           exampleReader exampleReader 3 exampleData emptyWorld).
  - apply quietOracle_faultless.
  - apply quietOracle_faultless.
  - apply exampleManager_usable.
  - reflexivity.
  - vm_compute. discriminate.
  - vm_compute. discriminate.
  - reflexivity.
  - reflexivity.
  - reflexivity.
  - reflexivity.
  - right. reflexivity.
  - vm_compute. discriminate.
  - reflexivity.
  - reflexivity.
  - reflexivity.
Defined.

Lemma PutFile_one_transfer_per_key_witness :
  let k := keyOf exampleManager "alice" "photo.jpg" in
  let claimed :=
    (LoadOrInit k (factory (quietOracle 100) exampleManager 3
                           "/d/photo.jpg.alice.partial") emptyWorld).2 in
  (∀ j, [Active k; Arriving k] !! j = Some (Active k) → j = 0%nat) ∧
  PutFile exampleExt (quietOracle 200) (Some exampleManager) "alice" "photo.jpg"
          exampleReader 0 3 claimed
    = ((0, Some ErrFileExists), claimed).
Proof.
  intros k claimed.
  apply (PutFile_one_transfer_per_key exampleExt (quietOracle 200)
           exampleManager "alice" "photo.jpg" exampleReader 0 3
           (emptyWorld, [Arriving k; Arriving k])
           (claimed, [Active k; Arriving k]) 0%nat).
  - split; [reflexivity|]. by repeat constructor.
  - apply rtc_once.
    apply (step_claim emptyWorld [Arriving k; Arriving k] 0 k (quietOracle 100)
             exampleManager 3 "/d/photo.jpg.alice.partial"
             (newIncomingFile 100 3 false "/d/photo.jpg.alice.partial")
             claimed); reflexivity.
  - apply exampleManager_usable.
  - reflexivity.
Defined.

Lemma PutFile_deregisters_key_witness :
  incomingFiles (PutFile exampleExt (quietOracle 100) (Some exampleManager)
                   "alice" "photo.jpg" exampleReader 0 5 emptyWorld).2
    !! keyOf exampleManager "alice" "photo.jpg" = None ∧
  incomingFiles (PutFile exampleExt (quietOracle 100) (Some exampleManager)
                   "alice" "photo.jpg" exampleReader 0 5 emptyWorld).2
    = incomingFiles emptyWorld.
Proof.
  apply (PutFile_deregisters_key exampleExt (quietOracle 100) exampleManager
           "alice" "photo.jpg" exampleReader 0 5 emptyWorld).
  - apply exampleManager_usable.
  - reflexivity.
Defined.

Lemma PutFile_rejects_length_mismatch_witness :
  (PutFile exampleExt (quietOracle 100) (Some exampleManager) "alice"
           "photo.jpg" exampleReader 0 5 emptyWorld).1.1 = 0 ∧
  (PutFile exampleExt (quietOracle 100) (Some exampleManager) "alice"
           "photo.jpg" exampleReader 0 5 emptyWorld).1.2 ≠ None.
Proof.
  eapply (PutFile_rejects_length_mismatch exampleExt (quietOracle 100)
            exampleManager "alice" "photo.jpg" exampleReader 0 5 emptyWorld).
  - apply exampleManager_usable.
  - reflexivity.
  - lia.
  - vm_compute. discriminate.
Defined.

Lemma Write_notifies_first_then_at_most_once_per_second_witness :
  Writes (newIncomingFile 0 3 false "") exampleWrites !! 0%nat = Some true ∧
  spaced exampleWrites (Writes (newIncomingFile 0 3 false "") exampleWrites).
Proof.
  destruct (Write_notifies_first_then_at_most_once_per_second
              (newIncomingFile 0 3 false "") exampleWrites) as [Hfirst Hspaced].
  - reflexivity.
  - intros [|[|[|[|i]]]] n t Hi Hn; cbn in Hi; simplify_eq; lia.
  - split; [|exact Hspaced].
    apply (Hfirst 0%nat 2 1000000000); [reflexivity|lia|]. intros j n' t' Hj. lia.
Defined.

Lemma PutFile_at_most_ten_attempts_witness :
  (PutFile exampleExt (quietOracle 100) (Some exampleManager) "alice"
           "photo.jpg" exampleReader 0 3 crowdedWorld).1
    = (0, Some tooManyRetries) ∧
  is_Some (fs (PutFile exampleExt (quietOracle 100) (Some exampleManager)
                 "alice" "photo.jpg" exampleReader 0 3 crowdedWorld).2
             !! partialPathOf exampleExt exampleManager "alice" "photo.jpg").
Proof.
  destruct (PutFile_at_most_ten_attempts exampleExt (quietOracle 100)
              exampleManager "alice" "photo.jpg" exampleReader 0 3 crowdedWorld)
    as [_ Hexhausted].
  apply Hexhausted.
  - vm_compute. reflexivity.
  - unfold noOutcome. vm_compute. repeat constructor.
Defined.

Lemma PutFile_error_has_zero_length_witness :
  (PutFile exampleExt (quietOracle 100) (Some exampleManager) "alice"
           "photo.jpg" exampleReader 0 5 emptyWorld).1.1 = 0.
Proof.
  apply (PutFile_error_has_zero_length exampleExt (quietOracle 100)
           (Some exampleManager) "alice" "photo.jpg" exampleReader 0 5 emptyWorld).
  vm_compute. discriminate.
Defined.

Lemma PutFile_offset_zero_keeps_stale_tail_witness :
  ∃ f w3,
    beforeCopy exampleExt (quietOracle 100) exampleManager "bob" "photo.jpg"
               0 3 staleWorld = Some (f, 0, w3) ∧
    (0 = 0 ∧
     newEvents staleWorld w3
       = [EvOpenFile (partialPathOf exampleExt exampleManager "bob" "photo.jpg")] ∧
     content w3 (partialPathOf exampleExt exampleManager "bob" "photo.jpg")
       = content staleWorld
           (partialPathOf exampleExt exampleManager "bob" "photo.jpg") ∧
     (∃ data,
        (ioCopy (quietOracle 100) (keyOf exampleManager "bob" "photo.jpg")
                (partialPathOf exampleExt exampleManager "bob" "photo.jpg")
                exampleReader 0 0 0 f w3).1.1.1
          = wrap64 (Z.of_nat (List.length data)) ∧
        fs (ioCopy (quietOracle 100) (keyOf exampleManager "bob" "photo.jpg")
                   (partialPathOf exampleExt exampleManager "bob" "photo.jpg")
                   exampleReader 0 0 0 f w3).2
          !! partialPathOf exampleExt exampleManager "bob" "photo.jpg"
        = Some (data ++ drop (List.length data)
                  (content staleWorld
                     (partialPathOf exampleExt exampleManager "bob"
                                    "photo.jpg")))) ∧
     Forall (λ e, isSeekOrTruncate e = false)
       (newEvents staleWorld
          (PutFile exampleExt (quietOracle 100) (Some exampleManager) "bob"
                   "photo.jpg" exampleReader 0 3 staleWorld).2)).
Proof.
  eexists _, _. split; [reflexivity|].
  apply (PutFile_offset_zero_keeps_stale_tail exampleExt (quietOracle 100)
           exampleManager "bob" "photo.jpg" exampleReader 3 staleWorld).
  reflexivity.
Defined.

(** The same call, to its end: it returns the length 3 and
    publishes a file of five bytes, the three received and the last two of
    the old partial file. *)
Example PutFile_publishes_stale_tail :
  (PutFile exampleExt (quietOracle 100) (Some exampleManager) "bob" "photo.jpg"
           exampleReader 0 3 staleWorld).1 = (3, None) ∧
  fs (PutFile exampleExt (quietOracle 100) (Some exampleManager) "bob"
              "photo.jpg" exampleReader 0 3 staleWorld).2
    = {[ "/d/photo.jpg" := ["a"; "b"; "c"; "y"; "z"]%byte ]}.
Proof. vm_compute. split; reflexivity. Qed.

(** With a clock that reads the zero instant the second write notifies
    again: the hypothesis on the readings in C7 cannot be dropped. *)
Example Write_zero_reading_notifies_again :
  Writes (newIncomingFile 0 3 false "") [(1, 0); (1, 0)] = [true; true].
Proof. reflexivity. Qed.


(** * More of [send.go] *)

(** ** The counter and the notifications of [incomingFile.Write] *)

Lemma Write_copied f n now :
  copied (Write f n now).1 = if 0 <? n then wrap64 (copied f + n) else copied f.
Proof. unfold Write. destruct (0 <? n); [|done]. cbn. by destruct (_ || _). Qed.

Lemma Write_static f n now :
  started (Write f n now).1 = started f ∧ size (Write f n now).1 = size f ∧
  partialPath (Write f n now).1 = partialPath f ∧ done (Write f n now).1 = done f.
Proof. unfold Write. destruct (0 <? n); [|done]. cbn. by destruct (_ || _). Qed.

(** X1. After any sequence of writes the counter [copied] is its value
    before plus the bytes of the writes that wrote at least one byte, as an
    [int64]; writes that report no byte or a negative count do not move it,
    and the other fields of the transfer (start time, declared size, path,
    completion flag) are never touched by [Write]. *)
Theorem Write_counts_bytes f ws :
  wrap64 (copied f) = copied f →
  copied (WritesEnd f ws) = wrap64 (copied f + bytesWritten ws) ∧
  started (WritesEnd f ws) = started f ∧ size (WritesEnd f ws) = size f ∧
  partialPath (WritesEnd f ws) = partialPath f ∧
  done (WritesEnd f ws) = done f.
Proof.
  revert f. induction ws as [|[n t] ws IH]; intros f Hc; cbn [WritesEnd bytesWritten].
  { by rewrite Z.add_0_r, Hc. }
  destruct (Write_static f n t) as (S1 & S2 & S3 & S4).
  destruct (IH (Write f n t).1) as (IH1 & IH2 & IH3 & IH4 & IH5).
  { rewrite Write_copied. destruct (0 <? n); [apply wrap64_idem|done]. }
  split_and!; [|congruence..].
  rewrite IH1, Write_copied. destruct (0 <? n).
  - rewrite wrap64_add_l. f_equal. lia.
  - f_equal.
Qed.

Lemma Write_counts_bytes_witness :
  copied (WritesEnd (newIncomingFile 0 3 false "") exampleWrites) = 6 ∧
  started (WritesEnd (newIncomingFile 0 3 false "") exampleWrites) = 0 ∧
  size (WritesEnd (newIncomingFile 0 3 false "") exampleWrites) = 3 ∧
  partialPath (WritesEnd (newIncomingFile 0 3 false "") exampleWrites) = "" ∧
  done (WritesEnd (newIncomingFile 0 3 false "") exampleWrites) = false.
Proof.
  apply (Write_counts_bytes (newIncomingFile 0 3 false "") exampleWrites).
  reflexivity.
Defined.

Lemma fireTimes_after_notify ws : ∀ f,
  lastNotify f ≠ 0 → readingsNonZero ws →
  ∀ i t, fireTimes f ws !! i = Some t →
         Z.of_nat (S i) * Second < t - lastNotify f.
Proof.
  induction ws as [|[n now] ws IH]; intros f HL Hnz i t; cbn [fireTimes].
  { intros H. by rewrite lookup_nil in H. }
  assert (Hnz' := readingsNonZero_tail _ _ _ Hnz).
  destruct (Write f n now) as [f' fired] eqn:HW. destruct fired.
  - apply Write_fired in HW as (Hn & Hf' & Hgap).
    destruct Hgap as [?|Hgap]; [done|].
    assert (lastNotify f' ≠ 0) as HL'.
    { rewrite Hf'. exact (Hnz 0%nat n now eq_refl Hn). }
    destruct i as [|i]; cbn.
    + intros [= <-]. unfold Second in *. lia.
    + intros Hi. specialize (IH f' HL' Hnz' i t Hi). rewrite Hf' in IH.
      unfold Second in *. lia.
  - apply Write_quiet in HW. intros Hi.
    assert (lastNotify f' ≠ 0) as HL' by congruence.
    specialize (IH f' HL' Hnz' i t Hi). by rewrite HW in IH.
Qed.

(** X2. Through an [incomingFile] that has not notified yet, with a clock
    that never reads the zero instant: the notification number [i] after the
    first one comes more than [i] seconds of clock time after the first one;
    so [k] notifications take more than [k - 1] seconds, however many writes
    there are. *)
Theorem Write_notifications_take_time f ws t0 i t :
  lastNotify f = 0 → readingsNonZero ws →
  fireTimes f ws !! 0%nat = Some t0 →
  fireTimes f ws !! S i = Some t →
  Z.of_nat (S i) * Second < t - t0.
Proof.
  revert f. induction ws as [|[n now] ws IH]; intros f HL Hnz; cbn [fireTimes].
  { intros H. by rewrite lookup_nil in H. }
  assert (Hnz' := readingsNonZero_tail _ _ _ Hnz).
  destruct (Write f n now) as [f' fired] eqn:HW. destruct fired.
  - apply Write_fired in HW as (Hn & Hf' & _).
    assert (lastNotify f' ≠ 0) as HL'.
    { rewrite Hf'. exact (Hnz 0%nat n now eq_refl Hn). }
    cbn. intros [= <-] Hi.
    pose proof (fireTimes_after_notify ws f' HL' Hnz' i t Hi) as H.
    by rewrite Hf' in H.
  - assert (f' = f) as ->.
    { revert HW. unfold Write. destruct (0 <? n); [|by intros [= <-]]. cbn.
      unfold IsZero. rewrite HL. cbn. by intros [= _ ?]. }
    by apply IH.
Qed.

Lemma Write_notifications_take_time_witness :
  fireTimes (newIncomingFile 0 3 false "") exampleWrites !! 0%nat
    = Some 1000000000 ∧
  fireTimes (newIncomingFile 0 3 false "") exampleWrites !! 1%nat
    = Some 2500000000 ∧
  Z.of_nat 1 * Second < 2500000000 - 1000000000.
Proof.
  split_and!; [reflexivity|reflexivity|].
  apply (Write_notifications_take_time (newIncomingFile 0 3 false "")
           exampleWrites 1000000000 0 2500000000).
  - reflexivity.
  - intros [|[|[|[|i]]]] n t Hi Hn; cbn in Hi; simplify_eq; lia.
  - reflexivity.
  - reflexivity.
Defined.


(** ** The checks of lines 74-85 *)

Section Guards.
Variable X : Ext.
Variable o : Oracle.

(** X3. A call that does not pass the checks of lines 74-85 (no manager or
    no directory, Taildrop not allowed, Unraid without direct file mode, or a
    name [joinDir] rejects) returns at once with the length 0 and
    [ErrNoTaildrop], [ErrNotAccessible] or the very error of [joinDir], and
    leaves the world as it is: nothing is registered, opened, written or
    logged. *)
Theorem PutFile_checks_before_touching om id baseName r offset length w :
  (∀ m, om = Some m → ¬ usable X m baseName) →
  (PutFile X o om id baseName r offset length w).2 = w ∧
  ((PutFile X o om id baseName r offset length w).1 = (0, Some ErrNoTaildrop) ∨
   (PutFile X o om id baseName r offset length w).1 = (0, Some ErrNotAccessible) ∨
   ∃ m e, om = Some m ∧ (joinDir X m baseName).2 = Some e ∧
          (PutFile X o om id baseName r offset length w).1 = (0, Some e)).
Proof.
  intros Hun. unfold PutFile.
  destruct om as [m|]; [|by auto].
  specialize (Hun m eq_refl). unfold usable in Hun.
  destruct (decide (Dir m = "")); [by auto|].
  destruct (CanTaildrop X) eqn:HC; [|by auto]. cbn [negb].
  destruct (bool_decide (distroGet X = Unraid) && negb (DirectFileMode m)) eqn:HU;
    [by auto|].
  destruct (joinDir X m baseName) as [dstPath [e|]] eqn:HJ.
  { split; [done|]. right; right. exists m, e. by rewrite HJ. }
  destruct Hun. split_and!; try done.
  intros HUn. apply andb_false_iff in HU as [HU|HU].
  - by apply bool_decide_eq_false in HU.
  - by apply negb_false_iff in HU.
Qed.

(** X4. Lines 93-106, when the final rename is avoided: the sender's
    identity plays no part.  Calls of different senders for one name claim
    the same key and write the same partial file, and a call gives the same
    result and the same world whoever the sender is. *)
Theorem PutFile_no_rename_mode_ignores_sender m id1 id2 baseName r offset length w :
  avoidPartialRename m = true →
  keyOf m id1 baseName = keyOf m id2 baseName ∧
  partialPathOf X m id1 baseName = partialPathOf X m id2 baseName ∧
  PutFile X o (Some m) id1 baseName r offset length w
  = PutFile X o (Some m) id2 baseName r offset length w.
Proof.
  unfold avoidPartialRename, PutFile, keyOf, partialPathOf, effectiveID.
  intros ->. done.
Qed.
End Guards.

Lemma PutFile_checks_before_touching_witness :
  (PutFile exampleExt (quietOracle 100) (Some (mkManager "" false false)) "alice"
           "photo.jpg" exampleReader 0 3 staleWorld).2 = staleWorld ∧
  ((PutFile exampleExt (quietOracle 100) (Some (mkManager "" false false)) "alice"
            "photo.jpg" exampleReader 0 3 staleWorld).1 = (0, Some ErrNoTaildrop) ∨
   (PutFile exampleExt (quietOracle 100) (Some (mkManager "" false false)) "alice"
            "photo.jpg" exampleReader 0 3 staleWorld).1 = (0, Some ErrNotAccessible) ∨
   ∃ m e, Some (mkManager "" false false) = Some m ∧
          (joinDir exampleExt m "photo.jpg").2 = Some e ∧
          (PutFile exampleExt (quietOracle 100) (Some (mkManager "" false false))
                   "alice" "photo.jpg" exampleReader 0 3 staleWorld).1 = (0, Some e)).
Proof.
  apply (PutFile_checks_before_touching exampleExt (quietOracle 100)
           (Some (mkManager "" false false)) "alice" "photo.jpg" exampleReader
           0 3 staleWorld).
  intros m [= <-] [H _]. by apply H.
Defined.

Lemma PutFile_no_rename_mode_ignores_sender_witness :
  keyOf (mkManager "/d" true true) "alice" "photo.jpg"
    = keyOf (mkManager "/d" true true) "bob" "photo.jpg" ∧
  partialPathOf exampleExt (mkManager "/d" true true) "alice" "photo.jpg"
    = partialPathOf exampleExt (mkManager "/d" true true) "bob" "photo.jpg" ∧
  PutFile exampleExt (quietOracle 100) (Some (mkManager "/d" true true)) "alice"
          "photo.jpg" exampleReader 0 3 emptyWorld
  = PutFile exampleExt (quietOracle 100) (Some (mkManager "/d" true true)) "bob"
            "photo.jpg" exampleReader 0 3 emptyWorld.
Proof.
  apply (PutFile_no_rename_mode_ignores_sender exampleExt (quietOracle 100)
           (mkManager "/d" true true) "alice" "bob" "photo.jpg" exampleReader
           0 3 emptyWorld).
  reflexivity.
Defined.


(** ** The two halves of an admitted call *)

Section Halves.
Variable X : Ext.
Variable o : Oracle.

Lemma PutFile_usable m id baseName r offset length w :
  usable X m baseName →
  PutFile X o (Some m) id baseName r offset length w =
    let '((inFile, loaded), w1) :=
      LoadOrInit (keyOf m id baseName)
                 (factory o m length (partialPathOf X m id baseName)) w in
    if loaded then ((0, Some ErrFileExists), w1)
    else
      let '(res, w2) :=
        receiveAndPublish X o (avoidPartialRename m) (keyOf m id baseName)
          (partialPathOf X m id baseName) (dstPathOf X m baseName)
          r offset length inFile w1 in
      (res, Delete (keyOf m id baseName) w2).
Proof.
  intros (HD & HC & HUn & HJ).
  unfold PutFile, partialPathOf, dstPathOf, keyOf, effectiveID, avoidPartialRename.
  rewrite decide_False by done. rewrite HC. cbn [negb].
  destruct (joinDir X m baseName) as [dstPath jerr]. cbn in HJ. subst jerr.
  cbn [fst].
  assert (bool_decide (distroGet X = Unraid) && negb (DirectFileMode m) = false)
    as ->; [|done].
  destruct (decide (distroGet X = Unraid)) as [E|E].
  - rewrite (HUn E). by rewrite andb_false_r.
  - by rewrite bool_decide_eq_false_2.
Qed.

Lemma resume_knownEmpty pp offset w r w' :
  resume o pp offset w = (r, w') → knownEmpty w' = knownEmpty w.
Proof.
  unfold resume, SeekEnd, SeekStart, Truncate, redactAndLogError.
  intros H. by repeat case_match; simplify_eq.
Qed.

Lemma inFileWrite_knownEmpty key pp k pos f p w res f' w' :
  inFileWrite o key pp k pos f p w = (res, f', w') →
  knownEmpty w' = knownEmpty w.
Proof.
  unfold inFileWrite, FileWrite, Now, storeIncoming, sendFileNotify.
  intros H. by repeat case_match; simplify_eq.
Qed.

Lemma ioCopy_knownEmpty key pp r : ∀ k pos written f w res f' w',
  ioCopy o key pp r k pos written f w = (res, f', w') →
  knownEmpty w' = knownEmpty w.
Proof.
  induction r as [|[p er] r IH]; intros k pos written f w res f' w'; cbn.
  { by intros [= <- <- <-]. }
  destruct p as [|b p].
  { destruct er; [apply IH|..]; by intros [= <- <- <-]. }
  destruct (inFileWrite o key pp k pos f (b :: p) w) as [[[nw ew] f1] w1] eqn:HW.
  apply inFileWrite_knownEmpty in HW.
  destruct ew as [e|]; [by intros [= <- <- <-]|].
  destruct (negb _); [by intros [= <- <- <-]|].
  destruct er; [intros H; rewrite <- HW; by eapply IH|..]; by intros [= <- <- <-].
Qed.

(** What holds when a call arrives at [io.Copy]. *)
Lemma beforeCopy_facts m id baseName offset length w f pos w3 :
  beforeCopy X o m id baseName offset length w = Some (f, pos, w3) →
  incomingFiles w !! keyOf m id baseName = None ∧
  (∃ pre, trace w3 = trace w ++ pre ∧ Forall (λ e, outsideFinalize e) pre) ∧
  is_Some (fs w3 !! partialPathOf X m id baseName) ∧
  knownEmpty w3 = knownEmpty w.
Proof.
  unfold beforeCopy.
  destruct (LoadOrInit _ _ w) as [[inFile loaded] w1] eqn:HL.
  destruct loaded; [done|].
  apply LoadOrInit_factory in HL as HL'. destruct HL' as [Hfree _].
  assert (trace w1 = trace w ∧ knownEmpty w1 = knownEmpty w) as [T1 K1].
  { unfold LoadOrInit, factory, Now in HL. rewrite Hfree in HL. by simplify_eq. }
  pose proof (runs_OpenFile o (partialPathOf X m id baseName)
                (keyOf m id baseName) w1) as [T2 _].
  destruct (OpenFile o _ w1) as [operr w2] eqn:HO. cbn in T2.
  destruct operr; [done|].
  assert (knownEmpty w2 = knownEmpty w1) as K2.
  { unfold OpenFile in HO. by repeat case_match; simplify_eq. }
  apply OpenFile_creates in HO.
  destruct (resume o _ offset w2) as [[?|pos'] w3'] eqn:HR; [done|].
  intros [= <- <- <-].
  pose proof (resume_keeps _ _ _ _ _ _ HR HO) as Hpp.
  pose proof (resume_knownEmpty _ _ _ _ _ HR) as K3.
  apply resume_runs with (key := keyOf m id baseName) in HR
    as (evs & (T3 & _) & F3 & _).
  split_and!; [done| |done|congruence].
  exists ([EvOpenFile (partialPathOf X m id baseName)] ++ evs).
  split; [by rewrite T3, T2, T1, <- app_assoc|].
  constructor; [done|by apply resumeEv_outside].
Qed.

(** A call that passes the checks and does not arrive at [io.Copy]. *)
Lemma PutFile_stops_early m id baseName r offset length w :
  usable X m baseName →
  beforeCopy X o m id baseName offset length w = None →
  (∃ evs, trace (PutFile X o (Some m) id baseName r offset length w).2
            = trace w ++ evs ∧
          Forall (λ e, outsideFinalize e) evs) ∧
  knownEmpty (PutFile X o (Some m) id baseName r offset length w).2
    = knownEmpty w ∧
  (incomingFiles w !! keyOf m id baseName = None → openFault o = None →
   is_Some (fs (PutFile X o (Some m) id baseName r offset length w).2
              !! partialPathOf X m id baseName)).
Proof.
  intros HU. rewrite (PutFile_usable _ _ _ _ _ _ _ HU).
  unfold beforeCopy, receiveAndPublish.
  destruct (LoadOrInit _ _ w) as [[inFile loaded] w1] eqn:HL.
  apply LoadOrInit_factory in HL as HL'.
  destruct loaded.
  { destruct HL' as [[? Hk] ->]. intros _. cbn.
    split_and!; [exists []; by rewrite app_nil_r|done|congruence]. }
  destruct HL' as [Hfree _].
  assert (trace w1 = trace w ∧ knownEmpty w1 = knownEmpty w) as [T1 K1].
  { unfold LoadOrInit, factory, Now in HL. rewrite Hfree in HL. by simplify_eq. }
  pose proof (runs_OpenFile o (partialPathOf X m id baseName)
                (keyOf m id baseName) w1) as [T2 _].
  destruct (OpenFile o _ w1) as [operr w2] eqn:HO. cbn in T2.
  assert (knownEmpty w2 = knownEmpty w1) as K2.
  { unfold OpenFile in HO. by repeat case_match; simplify_eq. }
  destruct operr as [e|].
  { intros _. unfold redactAndLogError, Delete. cbn.
    split_and!; [|congruence|].
    - eexists [_; _]. split; [by rewrite T2, T1, <- app_assoc|by repeat constructor].
    - intros _ Hopen. unfold OpenFile in HO. rewrite Hopen in HO.
      by repeat case_match. }
  apply OpenFile_creates in HO.
  destruct (resume o _ offset w2) as [[res|pos'] w3] eqn:HR; [|done].
  intros _.
  pose proof (resume_keeps _ _ _ _ _ _ HR HO) as Hpp.
  pose proof (resume_knownEmpty _ _ _ _ _ HR) as K3.
  apply resume_runs with (key := keyOf m id baseName) in HR
    as (evs & (T3 & _) & F3 & _).
  unfold deferredCleanup, Close, Delete. cbn.
  split_and!; [|congruence|done].
  exists (([EvOpenFile (partialPathOf X m id baseName)] ++ evs) ++ [EvClose]).
  split; [by rewrite T3, T2, T1, <- !app_assoc|].
  apply Forall_app. split; [|by repeat constructor].
  constructor; [done|by apply resumeEv_outside].
Qed.
End Halves.


(** ** More about the finalize protocol *)

Lemma shaCount_app a b : shaCount (a ++ b) = (shaCount a + shaCount b)%nat.
Proof. induction a as [|e a IH]; [done|]. destruct e; cbn; by rewrite ?IH. Qed.

Lemma shaCount_outside evs :
  Forall (λ e, outsideFinalize e) evs → shaCount evs = 0%nat.
Proof. induction 1 as [|e evs He _ IH]; [done|]. by destruct e. Qed.

Section FinalizeMore.
Variable X : Ext.
Variable o : Oracle.

Lemma loopBody_more k pp dst fl memo w ex w' :
  loopBody X o k pp dst fl memo w = (ex, w') →
  ∃ evs, trace w' = trace w ++ evs ∧ knownEmpty w' = knownEmpty w ∧
         roundCosts memo ex evs w w'.
Proof.
  unfold loopBody, statRename, Rename, computePartialSum, sha256File, Remove,
    redactAndLogError, roundCosts.
  intros H.
  repeat case_match; simplify_eq; cbn;
    (eexists; split; [rewrite <- ?app_assoc; reflexivity|]);
    cbn; split_and!; try done; try lia; try apply redactErr_Some.
Qed.

Lemma renameLoop_more k pp fl : ∀ dst memo w ex w',
  renameLoop X o k pp dst fl memo w = (ex, w') →
  ∃ evs, trace w' = trace w ++ evs ∧ knownEmpty w' = knownEmpty w ∧
         (shaCount evs ≤ statCount evs + memoDue memo)%nat ∧
         match ex with
         | LoopDone (S _) => True
         | LoopDone O => fs w' = fs w
         | LoopReturn n err => fs w' = fs w ∧ err ≠ None
         end.
Proof.
  induction k as [|k IH]; intros dst memo w ex w'; cbn [renameLoop].
  { intros [= <- <-]. exists []. rewrite app_nil_r. split_and!; try done. cbn. lia. }
  destruct (loopBody X o (S k) pp dst fl memo w) as [bex w1] eqn:HB.
  apply loopBody_more in HB as (evs1 & T1 & K1 & S1 & C1).
  destruct bex as [n err| |memo1].
  - intros [= <- <-]. destruct C1 as (Hfs & Herr & Hsha).
    exists evs1. split_and!; try done. lia.
  - intros [= <- <-]. exists evs1. split_and!; try done. lia.
  - destruct C1 as [Hfs Hsha].
    intros (evs2 & T2 & K2 & S2 & E2)%IH.
    exists (evs1 ++ evs2). split_and!.
    + by rewrite T2, T1, app_assoc.
    + congruence.
    + rewrite shaCount_app, statCount_app. lia.
    + destruct ex as [n err|[|m]]; [|congruence|done].
      destruct E2 as [? ?]. split; [congruence|done].
Qed.

(** Lines 185-241: the digests computed, the disk and [knownEmpty]. *)
Lemma finalize_more pp dst fl w n err w' :
  finalize X o pp dst fl w = ((n, err), w') →
  ∃ evs, trace w' = trace w ++ evs ∧
         (shaCount evs ≤ statCount evs + 1)%nat ∧
         (err ≠ None → knownEmpty w' = knownEmpty w ∧ fs w' = fs w) ∧
         (err = None → knownEmpty w' = false).
Proof.
  unfold finalize.
  destruct (renameLoop X o 10 pp dst fl None w) as [ex w1] eqn:HL.
  apply renameLoop_more in HL as (evs & T & K & S & E). cbn in S.
  destruct ex as [n0 err0|[|m]].
  - intros [= <- <- <-]. destruct E as [Hfs Herr].
    exists evs. split_and!; done.
  - cbn. intros [= <- <- <-]. exists evs. split_and!; done.
  - cbn. intros [= <- <- <-]. exists (evs ++ [EvNotify]).
    unfold sendFileNotify. cbn. split_and!.
    + by rewrite T, <- app_assoc.
    + rewrite shaCount_app, statCount_app. cbn. lia.
    + done.
    + done.
Qed.

(** Lines 161-241 and the deferred calls, in one statement: how many
    digests are computed, whether the finalize protocol is entered, what
    becomes of [knownEmpty] and of the partial file. *)
Lemma copyOnwards_spec avoid key pp dst r pos offset length f w res err w4 :
  copyAndFinalize X o avoid key pp dst r pos offset length f w = (res, err, w4) →
  is_Some (fs w !! pp) →
  ∃ evs,
    trace (Delete key (deferredCleanup o avoid pp err w4)) = trace w ++ evs ∧
    (shaCount evs ≤ statCount evs + 1)%nat ∧
    (avoid = true → Forall (λ e, outsideFinalize e) evs) ∧
    (res.2 ≠ None →
     knownEmpty (Delete key (deferredCleanup o avoid pp err w4)) = knownEmpty w) ∧
    (res.2 = None →
     knownEmpty (Delete key (deferredCleanup o avoid pp err w4)) = false) ∧
    (avoid = false → res.2 ≠ None →
     is_Some (fs (Delete key (deferredCleanup o avoid pp err w4)) !! pp)).
Proof.
  unfold copyAndFinalize. intros H Hpp.
  destruct (ioCopy o key pp r 0 pos 0 f w) as [[[copyLength cerr] f1] w1] eqn:HC.
  pose proof (ioCopy_keeps _ _ _ _ _ _ _ _ _ _ _ _ HC Hpp) as Hpp1.
  pose proof (ioCopy_knownEmpty _ _ _ _ _ _ _ _ _ _ _ _ HC) as K1.
  apply ioCopy_runs in HC as (evs1 & (T1 & _) & F1%receiveEv_outside).
  pose proof (shaCount_outside _ F1) as Hs1.
  (* the returns before the finalize protocol *)
  assert (∀ w2 evs2 (res : Z * goerror) (err : goerror),
    trace w2 = trace w1 ++ evs2 → Forall (λ e, outsideFinalize e) evs2 →
    fs w2 = fs w1 → knownEmpty w2 = knownEmpty w1 →
    res.2 ≠ None →
    ∃ evs,
      trace (Delete key (deferredCleanup o avoid pp err w2)) = trace w ++ evs ∧
      (shaCount evs ≤ statCount evs + 1)%nat ∧
      (avoid = true → Forall (λ e, outsideFinalize e) evs) ∧
      (res.2 ≠ None →
       knownEmpty (Delete key (deferredCleanup o avoid pp err w2)) = knownEmpty w) ∧
      (res.2 = None →
       knownEmpty (Delete key (deferredCleanup o avoid pp err w2)) = false) ∧
      (avoid = false → res.2 ≠ None →
       is_Some (fs (Delete key (deferredCleanup o avoid pp err w2)) !! pp)))
    as Hfail.
  { intros w2 evs2 res' err' T2 F2 Hfs2 K2 Hres.
    unfold deferredCleanup, Close, Remove, Delete.
    assert (∀ tail, Forall (λ e, outsideFinalize e) tail →
              Forall (λ e, outsideFinalize e) (evs1 ++ evs2 ++ tail) ∧
              (shaCount (evs1 ++ evs2 ++ tail)
               ≤ statCount (evs1 ++ evs2 ++ tail) + 1)%nat) as Hall.
    { intros tail Ft.
      assert (Forall (λ e, outsideFinalize e) (evs1 ++ evs2 ++ tail)) as Fa
        by (by rewrite !Forall_app).
      split; [done|]. rewrite (shaCount_outside _ Fa). lia. }
    repeat case_match; simplify_eq; cbn.
    all: try (exists (evs1 ++ evs2 ++ [EvClose; EvRemove pp]);
              destruct (Hall [EvClose; EvRemove pp]) as [? ?];
                [by repeat constructor|];
              split_and!; [by rewrite T2, T1, <- !app_assoc|done|done|
                           congruence|done|done]).
    all: exists (evs1 ++ evs2 ++ [EvClose]);
         destruct (Hall [EvClose]) as [? ?]; [by repeat constructor|];
         split_and!; [by rewrite T2, T1, <- !app_assoc|done|done|
                      congruence|done|intros _ _; by rewrite Hfs2]. }
  destruct cerr as [e|].
  { unfold redactAndLogError in H. simplify_eq.
    eapply (Hfail _ [_]); [done|by repeat constructor|done|done|].
    apply redactErr_Some. }
  destruct ((0 <=? length) && negb (copyLength =? length)).
  { unfold redactAndLogError in H. simplify_eq.
    eapply (Hfail _ [_]); [done|by repeat constructor|done|done|].
    apply redactErr_Some. }
  unfold Close in H. destruct (closeFault o) as [e|] eqn:Hclose.
  { unfold redactAndLogError in H. simplify_eq.
    eapply (Hfail _ [_; _]); [cbn; by rewrite <- app_assoc|by repeat constructor|
                              done|done|].
    apply redactErr_Some. }
  cbn in H. destruct avoid.
  { unfold storeIncoming, sendFileNotify in H. simplify_eq.
    unfold deferredCleanup, Close, Delete. cbn.
    exists (evs1 ++ [EvClose; EvNotify; EvClose]).
    assert (Forall (λ e, outsideFinalize e) (evs1 ++ [EvClose; EvNotify; EvClose]))
      as Fa by (rewrite Forall_app; split; [done|by repeat constructor]).
    split_and!; try done.
    - by rewrite T1, <- !app_assoc.
    - rewrite (shaCount_outside _ Fa). lia. }
  destruct (finalize X o pp dst (wrap64 (offset + copyLength)) (emit EvClose w1))
    as [[n ferr] w3] eqn:HF.
  apply finalize_more in HF as (fin & T3 & S3 & Herr & Hok).
  simplify_eq. unfold deferredCleanup, Close, Delete. cbn.
  exists (evs1 ++ [EvClose] ++ fin ++ [EvClose]).
  split_and!.
  - rewrite T3. cbn. by rewrite T1, <- !app_assoc.
  - rewrite !shaCount_app, !statCount_app, Hs1. cbn. lia.
  - done.
  - intros Hres. destruct (Herr Hres) as [-> _]. done.
  - done.
  - intros _ Hres. destruct (Herr Hres) as [_ ->]. done.
Qed.
End FinalizeMore.

(** ** The whole call, once more *)

Lemma outsideFinalize_isFinalizeCall evs :
  Forall (λ e, outsideFinalize e) evs →
  Forall (λ e, isFinalizeCall e = false) evs.
Proof.
  intros H. eapply Forall_impl; [exact H|].
  intros e. unfold outsideFinalize. by destruct e.
Qed.

Lemma newEvents_runs w w' evs : trace w' = trace w ++ evs → newEvents w w' = evs.
Proof. unfold newEvents. intros ->. by rewrite drop_app_length. Qed.

Section Whole.
Variable X : Ext.
Variable o : Oracle.

Lemma resume_inl pp offset w res w' :
  resume o pp offset w = (inl res, w') →
  res.1 = 0 ∧ offset ≠ 0 ∧ (res.2 = None → fs w' = fs w).
Proof.
  unfold resume, SeekEnd, SeekStart, Truncate, redactAndLogError.
  intros H.
  repeat case_match; simplify_eq; cbn; split_and!; try done; try lia;
    by intros ?%redactErr_Some.
Qed.

(** Every call: the events it appends, the digests it computes, the flag
    [knownEmpty] and the partial file. *)
Lemma PutFile_more om id baseName r offset length w :
  ∃ evs,
    trace (PutFile X o om id baseName r offset length w).2 = trace w ++ evs ∧
    (shaCount evs ≤ statCount evs + 1)%nat ∧
    (∀ m, om = Some m → avoidPartialRename m = true →
          Forall (λ e, outsideFinalize e) evs) ∧
    ((PutFile X o om id baseName r offset length w).1.2 ≠ None →
     knownEmpty (PutFile X o om id baseName r offset length w).2 = knownEmpty w) ∧
    ((PutFile X o om id baseName r offset length w).1.2 = None →
     knownEmpty (PutFile X o om id baseName r offset length w).2 = false ∨
     (offset ≠ 0 ∧
      (PutFile X o om id baseName r offset length w).1.1 = 0 ∧
      knownEmpty (PutFile X o om id baseName r offset length w).2 = knownEmpty w)) ∧
    (∀ m, om = Some m → avoidPartialRename m = false →
          incomingFiles w !! keyOf m id baseName = None →
          usable X m baseName →
          openFault o = None →
          (PutFile X o om id baseName r offset length w).1.2 ≠ None →
          is_Some (fs (PutFile X o om id baseName r offset length w).2
                     !! partialPathOf X m id baseName)).
Proof.
  destruct (PutFile X o om id baseName r offset length w) as [res w'] eqn:HP.
  pose proof HP as HP0.
  apply PutFile_inv in HP
    as [(-> & Hz & Hn & Hrej)|(m & f & w1 & w7 & -> & HU & Hfree & HL & HA & Hw')].
  { exists []. cbn. rewrite app_nil_r. split_and!; try done.
    - cbn. lia.
    - intros m -> _ Hfree HU _ _. destruct (Hrej m eq_refl HU) as [[? ?] _].
      congruence. }
  destruct (beforeCopy X o m id baseName offset length w)
    as [[[f0 pos] w3]|] eqn:HB.
  - pose proof (beforeCopy_facts X o _ _ _ _ _ _ _ _ _ HB)
      as (_ & (pre & T0 & F0) & Hpp & K0).
    rewrite (PutFile_via_beforeCopy X o _ _ _ r _ _ _ _ _ _ HU HB) in HP0.
    destruct (copyAndFinalize X o _ _ _ _ r pos offset length f0 w3)
      as [[res' err] w4] eqn:HC.
    injection HP0 as <- <-. clear Hw' HA.
    apply copyOnwards_spec in HC as (evs & T & S & Fa & Kerr & Kok & Hkeep);
      [|done].
    exists (pre ++ evs). cbn. split_and!.
    + by rewrite T, T0, app_assoc.
    + rewrite shaCount_app, statCount_app, (shaCount_outside _ F0). lia.
    + intros m' [= <-] Hav. apply Forall_app. split; [done|]. by apply Fa.
    + intros Hres. rewrite (Kerr Hres). done.
    + intros Hres. left. by apply Kok.
    + intros m' [= <-] Hav _ _ _ Hres. by apply Hkeep.
  - pose proof (PutFile_stops_early X o _ id _ r _ length _ HU HB)
      as ((evs & T & Fa) & K & Hkeep).
    rewrite HP0 in T, K, Hkeep. cbn in T, K, Hkeep.
    subst w'. exists evs. cbn. split_and!; try done.
    + rewrite (shaCount_outside _ Fa). lia.
    + intros Hres. right.
      (* only the return of line 151 has no error *)
      revert HA HB. unfold receiveAndPublish, beforeCopy. rewrite HL.
      destruct (OpenFile o _ w1) as [[e|] w2].
      { unfold redactAndLogError. intros [= <- <-]. cbn in Hres.
        by apply redactErr_Some in Hres. }
      destruct (resume o _ offset w2) as [[res0|?] w3] eqn:HR; [|done].
      intros [= <- <-] _. apply resume_inl in HR as (? & ? & _). done.
    + intros m' [= <-] _ _ _ Hopen _. by apply Hkeep.
Qed.
End Whole.

(** ** The no-rename mode writes one file *)

Section OneFile.
Variable X : Ext.
Variable o : Oracle.
Variable pp : string.

Lemma onlyTouches_refl w : onlyTouches pp w w.
Proof. by intros p _. Qed.

Lemma onlyTouches_trans w1 w2 w3 :
  onlyTouches pp w1 w2 → onlyTouches pp w2 w3 → onlyTouches pp w1 w3.
Proof. intros H1 H2 p Hp. by rewrite H2, H1. Qed.

Lemma onlyTouches_fs w w' : fs w' = fs w → onlyTouches pp w w'.
Proof. intros E p _. by rewrite E. Qed.

Lemma OpenFile_only w : onlyTouches pp w (OpenFile o pp w).2.
Proof.
  unfold OpenFile. intros p Hp.
  repeat case_match; simplify_eq; cbn; try done.
  by rewrite lookup_insert_ne.
Qed.

Lemma resume_only offset w r w' :
  resume o pp offset w = (r, w') → onlyTouches pp w w'.
Proof.
  unfold resume, SeekEnd, SeekStart, Truncate, redactAndLogError.
  intros H p Hp.
  repeat case_match; simplify_eq; cbn; try done;
    by rewrite lookup_insert_ne.
Qed.

Lemma inFileWrite_only key k pos f p w res f' w' :
  inFileWrite o key pp k pos f p w = (res, f', w') → onlyTouches pp w w'.
Proof.
  unfold inFileWrite, FileWrite, Now, storeIncoming, sendFileNotify.
  intros H q Hq.
  repeat case_match; simplify_eq; cbn; try done;
    by rewrite lookup_insert_ne.
Qed.

Lemma ioCopy_only key r : ∀ k pos written f w res f' w',
  ioCopy o key pp r k pos written f w = (res, f', w') → onlyTouches pp w w'.
Proof.
  induction r as [|[p er] r IH]; intros k pos written f w res f' w'; cbn.
  { intros [= <- <- <-]. apply onlyTouches_refl. }
  destruct p as [|b p].
  { destruct er; [apply IH|..]; intros [= <- <- <-]; apply onlyTouches_refl. }
  destruct (inFileWrite o key pp k pos f (b :: p) w) as [[[nw ew] f1] w1] eqn:HW.
  apply inFileWrite_only in HW.
  destruct ew as [e|]; [by intros [= <- <- <-]|].
  destruct (negb _); [by intros [= <- <- <-]|].
  destruct er; [|by intros [= <- <- <-]..].
  intros H. eapply onlyTouches_trans; [exact HW|by eapply IH].
Qed.

(** Lines 124-183 and the deferred calls, when the final rename is
    avoided. *)
Lemma receiveAndPublish_only key dst r offset length f w :
  onlyTouches pp w
    (receiveAndPublish X o true key pp dst r offset length f w).2.
Proof.
  unfold receiveAndPublish.
  pose proof (OpenFile_only w) as H1.
  destruct (OpenFile o pp w) as [[e|] w1]; [done|]. cbn in H1.
  assert (∀ err w2, onlyTouches pp w w2 →
            onlyTouches pp w (deferredCleanup o true pp err w2)) as Hdefer.
  { intros err w2 H2. eapply onlyTouches_trans; [exact H2|].
    unfold deferredCleanup, Close, Remove. intros p Hp.
    repeat case_match; simplify_eq; cbn; try done.
    by rewrite lookup_delete_ne. }
  destruct (resume o pp offset w1) as [[res|pos] w2] eqn:HR;
    apply resume_only in HR.
  { cbn. apply Hdefer. by eapply onlyTouches_trans. }
  destruct (copyAndFinalize X o true key pp dst r pos offset length f w2)
    as [[res err] w4] eqn:HC.
  cbn. apply Hdefer.
  eapply onlyTouches_trans; [exact H1|].
  eapply onlyTouches_trans; [exact HR|].
  revert HC. unfold copyAndFinalize.
  destruct (ioCopy o key pp r 0 pos 0 f w2) as [[[copyLength cerr] f1] w3] eqn:HI.
  apply ioCopy_only in HI.
  unfold redactAndLogError, Close, storeIncoming, sendFileNotify.
  intros H. eapply onlyTouches_trans; [exact HI|].
  intros p Hp. by repeat case_match; simplify_eq.
Qed.
End OneFile.

(** ** What every call does and does not *)

Section Every.
Variable X : Ext.
Variable o : Oracle.

(** X5. [sync.OnceValues] (line 188): whatever happens during a call, the
    number of files it hashes is at most the number of destination names it
    stats, plus one.  The digest of the partial file is computed once and
    the digest of a destination at most once for each [os.Stat]. *)
Theorem PutFile_hashes_partial_once om id baseName r offset length w :
  (shaCount (newEvents w (PutFile X o om id baseName r offset length w).2)
   ≤ statCount (newEvents w (PutFile X o om id baseName r offset length w).2) + 1)%nat.
Proof.
  destruct (PutFile_more X o om id baseName r offset length w)
    as (evs & T & S & _).
  by rewrite (newEvents_runs _ _ _ T).
Qed.

(** X6. The flag [knownEmpty] (lines 176 and 239): a call that returns an
    error leaves it as it was; a call that returns no error has set it to
    false, unless it is the return of line 151, at a non-zero offset with
    the length 0, which leaves it as it was. *)
Theorem PutFile_knownEmpty om id baseName r offset length w :
  ((PutFile X o om id baseName r offset length w).1.2 ≠ None →
   knownEmpty (PutFile X o om id baseName r offset length w).2 = knownEmpty w) ∧
  ((PutFile X o om id baseName r offset length w).1.2 = None →
   knownEmpty (PutFile X o om id baseName r offset length w).2 = false ∨
   (offset ≠ 0 ∧
    (PutFile X o om id baseName r offset length w).1.1 = 0 ∧
    knownEmpty (PutFile X o om id baseName r offset length w).2 = knownEmpty w)).
Proof.
  destruct (PutFile_more X o om id baseName r offset length w)
    as (evs & _ & _ & _ & Kerr & Kok & _).
  by split.
Qed.

(** X8. Lines 173-183: when the final rename is avoided, the call takes no
    lock, stats, renames and hashes nothing, and no file other than the
    partial file is created, changed or removed: nothing appears under the
    destination name. *)
Theorem PutFile_no_rename_mode_writes_one_file m id baseName r offset length w :
  avoidPartialRename m = true →
  Forall (λ e, isFinalizeCall e = false)
         (newEvents w (PutFile X o (Some m) id baseName r offset length w).2) ∧
  onlyTouches (partialPathOf X m id baseName) w
              (PutFile X o (Some m) id baseName r offset length w).2.
Proof.
  intros Hav. split.
  - destruct (PutFile_more X o (Some m) id baseName r offset length w)
      as (evs & T & _ & Fa & _).
    rewrite (newEvents_runs _ _ _ T).
    by apply outsideFinalize_isFinalizeCall, (Fa m).
  - destruct (PutFile X o (Some m) id baseName r offset length w)
      as [res w'] eqn:HP. cbn.
    apply PutFile_inv in HP
      as [(-> & _)|(m' & f & w1 & w7 & [= <-] & HU & Hfree & HL & HA & ->)].
    { apply onlyTouches_refl. }
    assert (fs w1 = fs w) as Hfs1.
    { unfold LoadOrInit, factory, Now in HL. rewrite Hfree in HL.
      by simplify_eq. }
    unfold avoidPartialRename in Hav. rewrite Hav in HA.
    pose proof (receiveAndPublish_only X o (partialPathOf X m id baseName)
                  (keyOf m id baseName) (dstPathOf X m baseName) r offset
                  length f w1) as Honly.
    rewrite HA in Honly. cbn in Honly.
    intros p Hp. unfold Delete. cbn. by rewrite (Honly p Hp), Hfs1.
Qed.
End Every.

(** ** The name a received file is published under *)

Lemma nthCandidate_S X j d :
  nthCandidate X (S j) d = nthCandidate X j (NextFilename X d).
Proof. unfold nthCandidate. apply Nat.iter_succ_r. Qed.

Section Placement.
Variable X : Ext.
Variable o : Oracle.
Hypothesis quiet : faultless o.

(** A round whose candidate is taken by other content goes on to the next
    candidate and leaves the disk as it is. *)
Lemma loopBody_taken k pp dst fl pc memo w :
  fs w !! pp = Some pc →
  memo = None ∨ memo = Some (sha256Sum X pc) →
  takenByOther X w fl pc dst →
  ∃ memo' w1,
    loopBody X o k pp dst fl memo w = (BodyNext memo', w1) ∧
    fs w1 = fs w ∧ incomingFiles w1 = incomingFiles w ∧
    (memo' = None ∨ memo' = Some (sha256Sum X pc)).
Proof.
  destruct quiet as (_ & _ & _ & _ & _ & _ & Hstat & _ & Hps & Hds & _).
  intros Hpp Hmemo (c & Hc & Hother).
  unfold loopBody, statRename, computePartialSum, sha256File.
  rewrite Hstat. cbn. rewrite Hc. cbn.
  assert ((Z.of_nat (length c) <? 0) = false) as -> by lia.
  destruct (Z.of_nat (length c) =? fl) eqn:Hlen;
    [|by eexists _, _; split_and!; [reflexivity|reflexivity|reflexivity|exact Hmemo]].
  apply Z.eqb_eq in Hlen. destruct Hother as [?|Hsum]; [done|].
  destruct Hmemo as [-> | ->].
  - rewrite Hps. cbn. rewrite Hpp, Hds. cbn. rewrite Hc.
    rewrite decide_False by done.
    eexists _, _. split_and!; [reflexivity|reflexivity|reflexivity|by right].
  - rewrite Hds. cbn. rewrite Hc. rewrite decide_False by done.
    eexists _, _. split_and!; [reflexivity|reflexivity|reflexivity|by right].
Qed.

(** The loop passes the candidates taken by other content and stops at the
    first that is free, or that holds the content of the partial file. *)
Lemma renameLoop_first_fit pp fl pc k j : ∀ dst memo w,
  fs w !! pp = Some pc →
  memo = None ∨ memo = Some (sha256Sum X pc) →
  (∀ i, (i < j)%nat → takenByOther X w fl pc (nthCandidate X i dst)) →
  (fs w !! nthCandidate X j dst = None →
   ∃ w', renameLoop X o (j + S k) pp dst fl memo w = (LoopDone (S k), w') ∧
         fs w' = <[nthCandidate X j dst := pc]> (delete pp (fs w)) ∧
         incomingFiles w' = incomingFiles w) ∧
  (∀ d, fs w !! nthCandidate X j dst = Some d →
        Z.of_nat (length d) = fl → sha256Sum X d = sha256Sum X pc →
   ∃ w', renameLoop X o (j + S k) pp dst fl memo w = (LoopDone (S k), w') ∧
         fs w' = delete pp (fs w) ∧
         incomingFiles w' = incomingFiles w).
Proof.
  induction j as [|j IH]; intros dst memo w Hpp Hmemo Htaken.
  - destruct quiet as (_ & _ & _ & _ & _ & _ & Hstat & Hren & Hps & Hds & Hrm).
    change (nthCandidate X 0 dst) with dst. cbn [Nat.add renameLoop].
    split.
    + intros Hdst. unfold loopBody, statRename, Rename. rewrite Hstat. cbn.
      rewrite Hdst, Hren, Hpp. cbn. eexists. split_and!; reflexivity.
    + intros d Hdst Hlen Hsum.
      unfold loopBody, statRename, computePartialSum, sha256File, Remove.
      rewrite Hstat. cbn. rewrite Hdst. cbn.
      assert ((Z.of_nat (length d) <? 0) = false) as -> by lia.
      rewrite Hlen, Z.eqb_refl.
      destruct Hmemo as [-> | ->].
      * rewrite Hps. cbn. rewrite Hpp, Hds. cbn. rewrite Hdst.
        rewrite decide_True by done. rewrite Hrm. cbn. rewrite Hpp. cbn.
        eexists. split_and!; reflexivity.
      * rewrite Hds. cbn. rewrite Hdst.
        rewrite decide_True by done. rewrite Hrm. cbn. rewrite Hpp. cbn.
        eexists. split_and!; reflexivity.
  - destruct (loopBody_taken (S j + S k) pp dst fl pc memo w Hpp Hmemo)
      as (memo' & w1 & HB & Hfs1 & Hreg1 & Hmemo').
    { apply (Htaken 0%nat). lia. }
    destruct (IH (NextFilename X dst) memo' w1) as [Hfree Hsame].
    { by rewrite Hfs1. }
    { done. }
    { intros i Hi. rewrite <- nthCandidate_S.
      destruct (Htaken (S i)) as (c & Hc & Hother); [lia|].
      exists c. by rewrite Hfs1. }
    rewrite !nthCandidate_S.
    change (S j + S k)%nat with (S (j + S k)) in *.
    cbn [renameLoop]. rewrite HB. rewrite Hfs1, Hreg1 in *.
    split; [exact Hfree|exact Hsame].
Qed.

(** X11. Lines 191-235, in a call during which nothing fails: a fresh
    transfer whose reader delivers [data] passes the candidate names that
    are taken by other content, and at the first that is not, among the
    ten, the file is published under that name if it is free, and dropped
    if the file of that name has the same length and digest.  No other
    file changes. *)
Theorem PutFile_publishes_at_first_fit m id baseName r length data w j :
  usable X m baseName →
  avoidPartialRename m = false →
  incomingFiles w !! keyOf m id baseName = None →
  readAll r = (data, None) →
  length < 0 ∨ length = Z.of_nat (List.length data) →
  Z.of_nat (List.length data) ≤ int64_max →
  fs w !! partialPathOf X m id baseName = None →
  (j < 10)%nat →
  (∀ i, (i < j)%nat →
        takenByOther X w (Z.of_nat (List.length data)) data
                     (nthCandidate X i (dstPathOf X m baseName))) →
  nthCandidate X j (dstPathOf X m baseName) ≠ partialPathOf X m id baseName →
  (fs w !! nthCandidate X j (dstPathOf X m baseName) = None →
   (PutFile X o (Some m) id baseName r 0 length w).1
     = (Z.of_nat (List.length data), None) ∧
   fs (PutFile X o (Some m) id baseName r 0 length w).2
     = <[nthCandidate X j (dstPathOf X m baseName) := data]> (fs w)) ∧
  (∀ d, fs w !! nthCandidate X j (dstPathOf X m baseName) = Some d →
        List.length d = List.length data →
        sha256Sum X d = sha256Sum X data →
   (PutFile X o (Some m) id baseName r 0 length w).1
     = (Z.of_nat (List.length data), None) ∧
   fs (PutFile X o (Some m) id baseName r 0 length w).2 = fs w).
Proof.
  intros HU Havoid Hfree Hread Hlen Hmax Hpp Hj Htaken Hne.
  destruct (PutFile X o (Some m) id baseName r 0 length w) as [res w'] eqn:HP.
  cbn.
  apply PutFile_inv in HP
    as [(_ & _ & _ & Hrej)|(m' & f & w1 & w7 & [= <-] & _ & _ & HL & HA & ->)].
  { destruct (Hrej m eq_refl HU) as [[? ?] _]. congruence. }
  apply (LoadOrInit_fresh (partialPathOf X m id baseName)) in HL as [_ Hfs1];
    [|apply factory_frame].
  unfold avoidPartialRename in Havoid. rewrite Havoid in HA.
  destruct (receiveAndPublish_receives X o quiet (keyOf m id baseName)
              (partialPathOf X m id baseName) (dstPathOf X m baseName)
              r length f data w1 Hread Hlen Hmax)
    as (w5 & Hfs5 & _ & Heq); [by rewrite Hfs1|].
  rewrite Heq in HA. clear Heq.
  assert (fs w5 !! nthCandidate X j (dstPathOf X m baseName)
          = fs w !! nthCandidate X j (dstPathOf X m baseName)) as Hcand.
  { by rewrite Hfs5, lookup_insert_ne, Hfs1. }
  destruct (renameLoop_first_fit (partialPathOf X m id baseName)
              (Z.of_nat (List.length data)) data (9 - j) j
              (dstPathOf X m baseName) None w5) as [Hfree' Hsame'].
  { rewrite Hfs5. apply lookup_insert_eq. }
  { by left. }
  { intros i Hi. destruct (Htaken i Hi) as (c & Hc & Hother).
    exists c. split; [|done].
    rewrite Hfs5, lookup_insert_ne, Hfs1; [done|].
    intros E. rewrite <- E in Hc. congruence. }
  replace (j + S (9 - j))%nat with 10%nat in * by lia.
  assert (∀ w6 fsx, renameLoop X o 10 (partialPathOf X m id baseName)
            (dstPathOf X m baseName) (Z.of_nat (List.length data)) None w5
            = (LoopDone (S (9 - j)), w6) →
          fs w6 = fsx →
          res = (Z.of_nat (List.length data), None) ∧
          fs (Delete (keyOf m id baseName) w7) = fsx) as Hend.
  { intros w6 fsx HLoop Hfs6. unfold finalize in HA. rewrite HLoop in HA.
    assert ((Z.of_nat (S (9 - j)) <=? 0) = false) as Hpos
      by (apply Z.leb_gt; lia).
    rewrite Hpos in HA. unfold sendFileNotify in HA. cbn in HA. simplify_eq.
    split; [done|]. unfold deferredCleanup, Close, Delete. by cbn. }
  split.
  - intros Hdst. rewrite <- Hcand in Hdst.
    destruct (Hfree' Hdst) as (w6 & HLoop & Hfs6 & _).
    apply (Hend w6); [done|].
    rewrite Hfs6, Hfs5, delete_insert_eq, Hfs1, delete_id; done.
  - intros d Hdst Hd Hsum. rewrite <- Hcand in Hdst.
    destruct (Hsame' d Hdst) as (w6 & HLoop & Hfs6 & _);
      [by rewrite Hd|done|].
    apply (Hend w6); [done|].
    rewrite Hfs6, Hfs5, delete_insert_eq, Hfs1, delete_id; done.
Qed.
End Placement.

(** ** Cleaning up, and resuming *)

Lemma writeAt_end (c p : bytes) : writeAt c (length c) p = c ++ p.
Proof.
  unfold writeAt. rewrite truncateTo_le, firstn_all by done.
  rewrite drop_ge by lia. by rewrite app_nil_r.
Qed.

Section Cleanup.
Variable X : Ext.
Variable o : Oracle.

(** A call at offset 0 whose key is free and whose [os.OpenFile] succeeds
    arrives at [io.Copy]. *)
Lemma beforeCopy_reached m id baseName length w :
  incomingFiles w !! keyOf m id baseName = None →
  openFault o = None →
  is_Some (beforeCopy X o m id baseName 0 length w).
Proof.
  intros Hfree Hopen.
  unfold beforeCopy, LoadOrInit, factory, Now, OpenFile, resume.
  rewrite Hfree. cbn. rewrite Hopen. by repeat case_match.
Qed.

(** X9. The deferred function of lines 129-140, when the final rename is
    avoided, in a call at offset 0 whose writes and whose [os.Remove] do not
    fail: the partial file is removed when the reader fails, and the call
    then returns an error; when the reader does not fail the partial file
    is on the disk at the return, whatever the call returns: a length that
    does not match and a [Close] that fails leave it there. *)
Theorem PutFile_no_rename_mode_cleanup m id baseName r length w :
  usable X m baseName →
  avoidPartialRename m = true →
  incomingFiles w !! keyOf m id baseName = None →
  openFault o = None → (∀ k, writeFault o k = None) → removeFault o = None →
  ((readAll r).2 ≠ None →
   (PutFile X o (Some m) id baseName r 0 length w).1.2 ≠ None ∧
   fs (PutFile X o (Some m) id baseName r 0 length w).2
     !! partialPathOf X m id baseName = None) ∧
  ((readAll r).2 = None →
   is_Some (fs (PutFile X o (Some m) id baseName r 0 length w).2
              !! partialPathOf X m id baseName)).
Proof.
  intros HU Hav Hfree Hopen Hwrite Hrm.
  destruct (beforeCopy_reached m id baseName length w Hfree Hopen)
    as [[[f pos] w3] HB].
  rewrite (PutFile_via_beforeCopy X o _ _ _ r _ _ _ _ _ _ HU HB).
  apply beforeCopy_offset_zero in HB as (-> & _ & Hpp).
  unfold avoidPartialRename in Hav. rewrite Hav.
  unfold copyAndFinalize.
  destruct (ioCopy o _ _ r 0 0 0 f w3) as [[[n cerr] f1] w4] eqn:HC.
  assert (is_Some (fs w4 !! partialPathOf X m id baseName)) as [c4 Hc4].
  { eapply ioCopy_keeps; [exact HC|by rewrite Hpp]. }
  eapply ioCopy_content in HC as (data & _ & _ & Hr);
    [|exact Hpp|lia|cbn; lia|done].
  rewrite (Hr Hwrite). cbn [snd].
  destruct cerr as [e|].
  - split; [intros _|done].
    unfold redactAndLogError, deferredCleanup, Close, Remove, Delete. cbn.
    rewrite Hrm. split; [apply redactErr_Some|].
    case_match; cbn; [apply lookup_delete_eq|done].
  - split; [done|intros _].
    unfold deferredCleanup, redactAndLogError, Close, storeIncoming,
      sendFileNotify, Delete.
    repeat case_match; simplify_eq; exists c4; exact Hc4.
Qed.
End Cleanup.

Section Resuming.
Variable X : Ext.
Variable o : Oracle.
Hypothesis quiet : faultless o.

(** Lines 143-159 at an offset within the partial file: the file is cut at
    the offset, where the file handle then stands. *)
Lemma resume_valid pp offset c w :
  fs w !! pp = Some c →
  0 < offset ≤ Z.of_nat (length c) →
  ∃ w', resume o pp offset w = (inr offset, w') ∧
        fs w' = <[pp := take (Z.to_nat offset) c]> (fs w) ∧
        incomingFiles w' = incomingFiles w.
Proof.
  destruct quiet as (_ & Hend & Hstart & Htrunc & _).
  intros Hc Hoff.
  unfold resume, SeekEnd, SeekStart, Truncate, content.
  assert (negb (offset =? 0) = true) as -> by (apply negb_true_iff; lia).
  rewrite Hend, Hstart, Htrunc. cbn.
  rewrite Hc. cbn.
  assert ((offset <? 0) || (Z.of_nat (length c) <? offset) = false) as ->.
  { apply orb_false_iff. split; lia. }
  eexists. split_and!; [reflexivity| |reflexivity].
  cbn. rewrite truncateTo_le by lia. done.
Qed.

(** X10. Lines 143-183, in a call during which nothing fails: a call that
    resumes at an offset within the partial file keeps the bytes before the
    offset, drops the bytes from the offset on, appends what the reader
    delivers, returns the sum of the offset and the number of bytes
    received, and publishes the file at the destination when that name is
    free. *)
Theorem PutFile_resumes_at_offset m id baseName r offset length c data w :
  usable X m baseName →
  avoidPartialRename m = false →
  incomingFiles w !! keyOf m id baseName = None →
  fs w !! partialPathOf X m id baseName = Some c →
  0 < offset ≤ Z.of_nat (List.length c) →
  readAll r = (data, None) →
  length < 0 ∨ length = Z.of_nat (List.length data) →
  offset + Z.of_nat (List.length data) ≤ int64_max →
  partialPathOf X m id baseName ≠ dstPathOf X m baseName →
  fs w !! dstPathOf X m baseName = None →
  (PutFile X o (Some m) id baseName r offset length w).1
    = (offset + Z.of_nat (List.length data), None) ∧
  fs (PutFile X o (Some m) id baseName r offset length w).2
    = <[dstPathOf X m baseName := take (Z.to_nat offset) c ++ data]>
        (delete (partialPathOf X m id baseName) (fs w)).
Proof.
  intros HU Havoid Hfree Hc Hoff Hread Hlen Hmax Hne Hdst.
  pose proof quiet as (Hopen & _ & _ & _ & Hwrite & Hclose & _).
  destruct (PutFile X o (Some m) id baseName r offset length w) as [res w'] eqn:HP.
  cbn.
  apply PutFile_inv in HP
    as [(_ & _ & _ & Hrej)|(m' & f & w1 & w7 & [= <-] & _ & _ & HL & HA & ->)].
  { destruct (Hrej m eq_refl HU) as [[? ?] _]. congruence. }
  apply (LoadOrInit_fresh (partialPathOf X m id baseName)) in HL as [_ Hfs1];
    [|apply factory_frame].
  unfold avoidPartialRename in Havoid. rewrite Havoid in HA.
  set (pp := partialPathOf X m id baseName) in *.
  set (dst := dstPathOf X m baseName) in *.
  unfold receiveAndPublish, OpenFile in HA. rewrite Hopen in HA. cbn in HA.
  rewrite Hfs1, Hc in HA.
  destruct (resume_valid pp offset c (emit (EvOpenFile pp) w1))
    as (w2 & HR & Hfs2 & _); [by cbn; rewrite Hfs1|done|].
  rewrite HR in HA. cbn in Hfs2. rewrite Hfs1 in Hfs2.
  unfold copyAndFinalize in HA.
  destruct (ioCopy o (keyOf m id baseName) pp r 0 offset 0 f w2)
    as [[[n e] f1] w4] eqn:HC.
  eapply (ioCopy_content o pp) in HC as (data' & Hfs4 & Hn & Hr);
    [|by rewrite Hfs2; apply lookup_insert_eq|lia
     |rewrite length_take; lia|done].
  rewrite Hread in Hr. specialize (Hr Hwrite). simplify_eq.
  rewrite Z.add_0_l, wrap64_small in HA by (unfold int64_min; lia).
  assert ((0 <=? length) && negb (Z.of_nat (List.length data') =? length) = false)
    as Hcheck.
  { destruct Hlen as [Hlen| ->].
    - assert ((0 <=? length) = false) as -> by lia. done.
    - by rewrite Z.eqb_refl, andb_false_r. }
  rewrite Hcheck in HA. unfold Close in HA. rewrite Hclose in HA.
  rewrite wrap64_small in HA by (unfold int64_min; lia).
  assert (writeAt (take (Z.to_nat offset) c) (Z.to_nat offset) data'
          = take (Z.to_nat offset) c ++ data') as Hcontent.
  { rewrite <- (writeAt_end (take (Z.to_nat offset) c) data').
    f_equal. rewrite length_take. lia. }
  rewrite Hcontent in Hfs4.
  destruct (finalize_fresh X o quiet pp dst
              (offset + Z.of_nat (List.length data'))
              (take (Z.to_nat offset) c ++ data') (emit EvClose w4))
    as (w6 & HF & Hfs6 & _).
  { cbn. rewrite Hfs4, lookup_insert_ne, Hfs2, lookup_insert_ne by done. done. }
  { cbn. rewrite Hfs4. apply lookup_insert_eq. }
  rewrite HF in HA. simplify_eq. split; [done|].
  unfold deferredCleanup, Close, Delete. cbn.
  rewrite Hfs6. cbn. rewrite Hfs4, Hfs2. by rewrite !delete_insert_eq.
Qed.
End Resuming.

(** ** The partial file and the other files, by the outcome of the call *)

Section Outcome.
Variable X : Ext.
Variable o : Oracle.

(** A round that ends by a [break] has renamed the partial file or removed
    it. *)
Lemma loopBody_break k pp dst fl memo w w' :
  loopBody X o k pp dst fl memo w = (BodyBreak, w') → fs w' !! pp = None.
Proof.
  unfold loopBody, statRename, Rename, computePartialSum, sha256File, Remove,
    redactAndLogError.
  intros H.
  repeat case_match; simplify_eq; cbn in *; try apply lookup_delete_eq.
  all: try (rewrite lookup_insert_ne by congruence; apply lookup_delete_eq).
  all: match goal with E : (Z.of_nat _ <? 0) = true |- _ =>
         apply Z.ltb_lt in E; lia end.
Qed.

Lemma renameLoop_break k pp fl : ∀ dst memo w m w',
  renameLoop X o k pp dst fl memo w = (LoopDone (S m), w') →
  fs w' !! pp = None.
Proof.
  induction k as [|k IH]; intros dst memo w m w'; cbn [renameLoop]; [done|].
  destruct (loopBody X o (S k) pp dst fl memo w) as [[n err| |memo1] w1] eqn:HB;
    [done| |by apply IH].
  intros [= <- <-]. by eapply loopBody_break.
Qed.

Lemma finalize_removes pp dst fl w n w' :
  finalize X o pp dst fl w = ((n, None), w') → fs w' !! pp = None.
Proof.
  unfold finalize.
  destruct (renameLoop X o 10 pp dst fl None w) as [[n0 err0|[|m]] w1] eqn:HL.
  - intros [= ? ? ?]. subst.
    apply renameLoop_more in HL as (_ & _ & _ & _ & _ & Herr). done.
  - cbn. by intros [= ?].
  - apply renameLoop_break in HL. cbn. unfold sendFileNotify.
    intros [= ? ?]. by subst.
Qed.

(** Lines 124-241 and the deferred calls: the partial file and the other
    files at the return. *)
Lemma receiveAndPublish_outcome avoid key pp dst r offset length f w res w' :
  receiveAndPublish X o avoid key pp dst r offset length f w = (res, w') →
  (avoid = true ∨ res.2 ≠ None → onlyTouches pp w w') ∧
  (avoid = false → openFault o = None → res.2 = None →
   fs w' !! pp = None ∨
   (offset ≠ 0 ∧ res.1 = 0 ∧ is_Some (fs w' !! pp))).
Proof.
  unfold receiveAndPublish.
  pose proof (OpenFile_only o pp w) as H1.
  destruct (OpenFile o pp w) as [[e|] w1] eqn:HO; cbn in H1.
  { unfold redactAndLogError. intros [= <- <-]. split; [done|].
    intros _ _ Hres. by apply redactErr_Some in Hres. }
  apply OpenFile_creates in HO as Hpp1.
  assert (∀ err w2 w0, onlyTouches pp w0 w2 →
            onlyTouches pp w0 (deferredCleanup o avoid pp err w2)) as Hdefer.
  { intros err w2 w0 H2. eapply onlyTouches_trans; [exact H2|].
    unfold deferredCleanup, Close, Remove. intros p Hp.
    repeat case_match; simplify_eq; cbn; try done.
    by rewrite lookup_delete_ne. }
  destruct (resume o pp offset w1) as [[res0|pos] w2] eqn:HR.
  { pose proof (resume_keeps _ _ _ _ _ _ HR Hpp1) as Hpp2.
    pose proof (resume_only _ _ _ _ _ _ HR) as H2.
    apply resume_inl in HR as (Hz & Hoff & _).
    intros [= <- <-]. split.
    - intros _. apply Hdefer. by eapply onlyTouches_trans.
    - intros -> _ _. right. split_and!; [done..|].
      unfold deferredCleanup, Close. by cbn. }
  pose proof (resume_keeps _ _ _ _ _ _ HR Hpp1) as Hpp2.
  apply resume_only in HR as H2.
  destruct (copyAndFinalize X o avoid key pp dst r pos offset length f w2)
    as [[res1 err] w4] eqn:HC.
  intros [= <- <-].
  revert HC. unfold copyAndFinalize.
  destruct (ioCopy o key pp r 0 pos 0 f w2) as [[[copyLength cerr] f1] w3] eqn:HI.
  apply ioCopy_only in HI as H3.
  assert (onlyTouches pp w w3) as H03.
  { eapply onlyTouches_trans; [exact H1|].
    by eapply onlyTouches_trans; [exact H2|]. }
  assert (∀ (res : Z * goerror) err w5, fs w5 = fs w3 → res.2 ≠ None →
    (avoid = true ∨ res.2 ≠ None →
       onlyTouches pp w (deferredCleanup o avoid pp err w5)) ∧
    (avoid = false → openFault o = None → res.2 = None →
     fs (deferredCleanup o avoid pp err w5) !! pp = None ∨
     (offset ≠ 0 ∧ res.1 = 0 ∧
      is_Some (fs (deferredCleanup o avoid pp err w5) !! pp)))) as Hfail.
  { intros res' err' w5 Hfs5 Hres. split; [|done].
    intros _. apply Hdefer. eapply onlyTouches_trans; [exact H03|].
    by apply onlyTouches_fs. }
  destruct cerr as [e|].
  { unfold redactAndLogError. intros [= <- <- <-].
    apply Hfail; [done|apply redactErr_Some]. }
  destruct ((0 <=? length) && negb (copyLength =? length)).
  { unfold redactAndLogError. intros [= <- <- <-].
    apply Hfail; [done|apply redactErr_Some]. }
  unfold Close. destruct (closeFault o) as [e|].
  { unfold redactAndLogError. intros [= <- <- <-].
    apply Hfail; [done|apply redactErr_Some]. }
  destruct avoid.
  { unfold storeIncoming, sendFileNotify. intros [= <- <- <-].
    split; [|done]. intros _. apply Hdefer.
    eapply onlyTouches_trans; [exact H03|]. by apply onlyTouches_fs. }
  destruct (finalize X o pp dst (wrap64 (offset + copyLength)) (emit EvClose w3))
    as [[n ferr] w5] eqn:HF.
  intros [= <- <- <-]. split.
  - intros [?|Hres]; [done|]. cbn in Hres.
    apply finalize_more in HF as (_ & _ & _ & Herr & _).
    destruct (Herr Hres) as [_ Hfs]. apply Hdefer.
    eapply onlyTouches_trans; [exact H03|]. by apply onlyTouches_fs.
  - intros _ _ Hres. cbn in Hres. subst ferr. left.
    apply finalize_removes in HF. unfold deferredCleanup, Close. by cbn.
Qed.

(** X7. Lines 129-140 and 185-241, when the final rename is not avoided:
    a call that opened the partial file and returns an error, whichever it
    is, leaves the partial file on the disk, for a later call to resume;
    a call that returns no error leaves no partial file, unless it is the
    return of line 151, at a non-zero offset with the length 0. *)
Theorem PutFile_partial_file_at_return m id baseName r offset length w :
  usable X m baseName →
  avoidPartialRename m = false →
  incomingFiles w !! keyOf m id baseName = None →
  openFault o = None →
  ((PutFile X o (Some m) id baseName r offset length w).1.2 ≠ None →
   is_Some (fs (PutFile X o (Some m) id baseName r offset length w).2
              !! partialPathOf X m id baseName)) ∧
  ((PutFile X o (Some m) id baseName r offset length w).1.2 = None →
   fs (PutFile X o (Some m) id baseName r offset length w).2
     !! partialPathOf X m id baseName = None ∨
   (offset ≠ 0 ∧ (PutFile X o (Some m) id baseName r offset length w).1.1 = 0 ∧
    is_Some (fs (PutFile X o (Some m) id baseName r offset length w).2
               !! partialPathOf X m id baseName))).
Proof.
  intros HU Hav Hfree Hopen. split.
  - intros Herr.
    destruct (PutFile_more X o (Some m) id baseName r offset length w)
      as (evs & _ & _ & _ & _ & _ & Hkeep).
    by apply (Hkeep m).
  - destruct (PutFile X o (Some m) id baseName r offset length w)
      as [res w'] eqn:HP. cbn.
    apply PutFile_inv in HP
      as [(_ & _ & Hn & _)|(m' & f & w1 & w7 & [= <-] & _ & _ & HL & HA & ->)];
      [done|].
    unfold avoidPartialRename in Hav. rewrite Hav in HA.
    apply receiveAndPublish_outcome in HA as [_ Hok].
    intros Hres. unfold Delete. cbn. by apply Hok.
Qed.

(** X12. A call that returns an error has published nothing and harmed no
    file: no file other than its partial file was created, changed or
    removed. *)
Theorem PutFile_error_touches_partial_only m id baseName r offset length w :
  (PutFile X o (Some m) id baseName r offset length w).1.2 ≠ None →
  onlyTouches (partialPathOf X m id baseName) w
              (PutFile X o (Some m) id baseName r offset length w).2.
Proof.
  intros Herr.
  destruct (PutFile X o (Some m) id baseName r offset length w)
    as [res w'] eqn:HP. cbn [fst snd] in *.
  apply PutFile_inv in HP
    as [(-> & _)|(m' & f & w1 & w7 & [= <-] & HU & Hfree & HL & HA & ->)].
  { apply onlyTouches_refl. }
  assert (fs w1 = fs w) as Hfs1.
  { unfold LoadOrInit, factory, Now in HL. rewrite Hfree in HL. by simplify_eq. }
  apply receiveAndPublish_outcome in HA as [Honly _].
  intros p Hp. unfold Delete. cbn. rewrite (Honly (or_intror Herr) p Hp).
  by rewrite Hfs1.
Qed.
End Outcome.

Lemma directManager_usable baseName : usable exampleExt directManager baseName.
Proof. by repeat split. Qed.

Lemma PutFile_partial_file_at_return_witness :
  is_Some (fs (PutFile exampleExt (quietOracle 100) (Some exampleManager)
                 "alice" "photo.jpg" exampleReader 0 5 emptyWorld).2
             !! partialPathOf exampleExt exampleManager "alice" "photo.jpg").
Proof.
  apply (PutFile_partial_file_at_return exampleExt (quietOracle 100)
           exampleManager "alice" "photo.jpg" exampleReader 0 5 emptyWorld).
  - apply exampleManager_usable.
  - reflexivity.
  - reflexivity.
  - reflexivity.
  - vm_compute. discriminate.
Defined.

Lemma PutFile_error_touches_partial_only_witness :
  onlyTouches (partialPathOf exampleExt exampleManager "alice" "photo.jpg")
              crowdedWorld
              (PutFile exampleExt (quietOracle 100) (Some exampleManager)
                       "alice" "photo.jpg" exampleReader 0 3 crowdedWorld).2.
Proof.
  apply (PutFile_error_touches_partial_only exampleExt (quietOracle 100)
           exampleManager "alice" "photo.jpg" exampleReader 0 3 crowdedWorld).
  vm_compute. discriminate.
Defined.

Lemma PutFile_no_rename_mode_writes_one_file_witness :
  Forall (λ e, isFinalizeCall e = false)
         (newEvents staleWorld
            (PutFile exampleExt (quietOracle 100) (Some directManager) "alice"
                     "photo.jpg" exampleReader 0 3 staleWorld).2) ∧
  onlyTouches (partialPathOf exampleExt directManager "alice" "photo.jpg")
              staleWorld
              (PutFile exampleExt (quietOracle 100) (Some directManager) "alice"
                       "photo.jpg" exampleReader 0 3 staleWorld).2.
Proof.
  apply (PutFile_no_rename_mode_writes_one_file exampleExt (quietOracle 100)
           directManager "alice" "photo.jpg" exampleReader 0 3 staleWorld).
  reflexivity.
Defined.

Lemma PutFile_no_rename_mode_cleanup_witness :
  (PutFile exampleExt (quietOracle 100) (Some directManager) "alice"
           "photo.jpg" brokenReader 0 3 emptyWorld).1.2 ≠ None ∧
  fs (PutFile exampleExt (quietOracle 100) (Some directManager) "alice"
              "photo.jpg" brokenReader 0 3 emptyWorld).2
    !! partialPathOf exampleExt directManager "alice" "photo.jpg" = None.
Proof.
  apply (PutFile_no_rename_mode_cleanup exampleExt (quietOracle 100)
           directManager "alice" "photo.jpg" brokenReader 3 emptyWorld).
  - apply directManager_usable.
  - reflexivity.
  - reflexivity.
  - reflexivity.
  - reflexivity.
  - reflexivity.
  - vm_compute. discriminate.
Defined.

Lemma PutFile_resumes_at_offset_witness :
  (PutFile exampleExt (quietOracle 100) (Some exampleManager) "bob" "photo.jpg"
           exampleReader 2 3 staleWorld).1 = (2 + Z.of_nat 3, None) ∧
  fs (PutFile exampleExt (quietOracle 100) (Some exampleManager) "bob"
              "photo.jpg" exampleReader 2 3 staleWorld).2
    = <[dstPathOf exampleExt exampleManager "photo.jpg"
          := take (Z.to_nat 2) ["v"; "w"; "x"; "y"; "z"]%byte ++ exampleData]>
        (delete (partialPathOf exampleExt exampleManager "bob" "photo.jpg")
                (fs staleWorld)).
Proof.
  apply (PutFile_resumes_at_offset exampleExt (quietOracle 100)
           (quietOracle_faultless 100) exampleManager "bob" "photo.jpg"
           exampleReader 2 3 ["v"; "w"; "x"; "y"; "z"]%byte exampleData staleWorld).
  - apply exampleManager_usable.
  - reflexivity.
  - reflexivity.
  - reflexivity.
  - cbn. lia.
  - reflexivity.
  - right. reflexivity.
  - vm_compute. discriminate.
  - vm_compute. discriminate.
  - reflexivity.
Defined.

Lemma PutFile_publishes_at_first_fit_witness :
  (PutFile exampleExt (quietOracle 100) (Some exampleManager) "alice"
           "photo.jpg" exampleReader 0 3 twoTakenWorld).1
    = (Z.of_nat (List.length exampleData), None) ∧
  fs (PutFile exampleExt (quietOracle 100) (Some exampleManager) "alice"
              "photo.jpg" exampleReader 0 3 twoTakenWorld).2
    = <[nthCandidate exampleExt 2 (dstPathOf exampleExt exampleManager "photo.jpg")
          := exampleData]> (fs twoTakenWorld).
Proof.
  apply (PutFile_publishes_at_first_fit exampleExt (quietOracle 100)
           (quietOracle_faultless 100) exampleManager "alice" "photo.jpg"
           exampleReader 3 exampleData twoTakenWorld 2).
  - apply exampleManager_usable.
  - reflexivity.
  - reflexivity.
  - reflexivity.
  - right. reflexivity.
  - vm_compute. discriminate.
  - reflexivity.
  - lia.
  - intros [|[|i]] Hi; [| |lia].
    + exists ["q"]%byte. split; [reflexivity|left; vm_compute; discriminate].
    + exists ["q"]%byte. split; [reflexivity|left; vm_compute; discriminate].
  - vm_compute. discriminate.
  - reflexivity.
Defined.

Lemma PutFile_invalid_offset_witness :
  (PutFile exampleExt (quietOracle 100) (Some exampleManager) "bob" "photo.jpg"
           exampleReader 7 3 staleWorld).1 = (0, None) ∧
  content (PutFile exampleExt (quietOracle 100) (Some exampleManager) "bob"
                   "photo.jpg" exampleReader 7 3 staleWorld).2
          (partialPathOf exampleExt exampleManager "bob" "photo.jpg")
    = content staleWorld
              (partialPathOf exampleExt exampleManager "bob" "photo.jpg").
Proof.
  apply (PutFile_invalid_offset exampleExt (quietOracle 100) exampleManager "bob"
           "photo.jpg" exampleReader 7 3 staleWorld).
  - apply exampleManager_usable.
  - reflexivity.
  - reflexivity.
  - reflexivity.
  - right. vm_compute. reflexivity.
Defined.

Lemma PutFile_ten_names_taken_witness :
  (PutFile exampleExt (quietOracle 100) (Some exampleManager) "alice"
           "photo.jpg" exampleReader 0 3 crowdedWorld).1
    = (0, Some tooManyRetries) ∧
  fs (PutFile exampleExt (quietOracle 100) (Some exampleManager) "alice"
              "photo.jpg" exampleReader 0 3 crowdedWorld).2
    = <[partialPathOf exampleExt exampleManager "alice" "photo.jpg"
          := exampleData]> (fs crowdedWorld).
Proof.
  apply (PutFile_ten_names_taken exampleExt (quietOracle 100)
           (quietOracle_faultless 100) exampleManager "alice" "photo.jpg"
           exampleReader 3 exampleData crowdedWorld).
  - apply exampleManager_usable.
  - reflexivity.
  - reflexivity.
  - reflexivity.
  - right. reflexivity.
  - vm_compute. discriminate.
  - reflexivity.
  - repeat constructor;
      (exists ["q"]%byte; split; [reflexivity|left; vm_compute; discriminate]).
Defined.

(** ** What a call logs *)

Lemma logged_app evs1 evs2 : logged (evs1 ++ evs2) = logged evs1 ++ logged evs2.
Proof.
  induction evs1 as [|e evs1 IH]; [done|]. destruct e; cbn; by rewrite ?IH.
Qed.

Section Logged.
Variable X : Ext.
Variable o : Oracle.

Lemma resume_logged pp offset w rr w' :
  resume o pp offset w = (rr, w') →
  ∃ evs, trace w' = trace w ++ evs ∧
         match rr with
         | inl res => res.1 = 0 ∧ ∃ action, logged evs = [(action, res.2)]
         | inr _ => logged evs = []
         end.
Proof.
  unfold resume, SeekEnd, SeekStart, Truncate, redactAndLogError.
  intros H.
  repeat case_match; simplify_eq; cbn;
    (eexists; split; [rewrite <- ?app_assoc; try reflexivity;
                      by rewrite app_nil_r|]);
    cbn; eauto.
Qed.

Lemma inFileWrite_logged key pp k pos f p w res f' w' :
  inFileWrite o key pp k pos f p w = (res, f', w') →
  ∃ evs, trace w' = trace w ++ evs ∧ logged evs = [].
Proof.
  unfold inFileWrite, FileWrite, Now, storeIncoming, sendFileNotify.
  intros H.
  repeat case_match; simplify_eq; cbn;
    (eexists; split; [rewrite <- ?app_assoc; reflexivity|]); done.
Qed.

Lemma ioCopy_logged key pp r : ∀ k pos written f w res f' w',
  ioCopy o key pp r k pos written f w = (res, f', w') →
  ∃ evs, trace w' = trace w ++ evs ∧ logged evs = [].
Proof.
  assert (∀ w, ∃ evs, trace w = trace w ++ evs ∧ logged evs = []) as Hnil.
  { intros w. exists []. by rewrite app_nil_r. }
  induction r as [|[p er] r IH]; intros k pos written f w res f' w'; cbn.
  { by intros [= <- <- <-]. }
  destruct p as [|b p].
  { destruct er; [apply IH|..]; by intros [= <- <- <-]. }
  destruct (inFileWrite o key pp k pos f (b :: p) w) as [[[nw ew] f1] w1] eqn:HW.
  apply inFileWrite_logged in HW as (evs1 & T1 & L1).
  assert (∃ evs, trace w1 = trace w ++ evs ∧ logged evs = []) as H1 by eauto.
  destruct ew as [e|]; [by intros [= <- <- <-]|].
  destruct (negb _); [by intros [= <- <- <-]|].
  destruct er; [|by intros [= <- <- <-]..].
  intros (evs2 & T2 & L2)%IH. exists (evs1 ++ evs2).
  split; [by rewrite T2, T1, app_assoc|]. by rewrite logged_app, L1, L2.
Qed.

Lemma loopBody_logged k pp dst fl memo w ex w' :
  loopBody X o k pp dst fl memo w = (ex, w') →
  ∃ evs, trace w' = trace w ++ evs ∧
         match ex with
         | BodyReturn n err => n = 0 ∧ ∃ action, logged evs = [(action, err)]
         | _ => logged evs = []
         end.
Proof.
  unfold loopBody, statRename, Rename, computePartialSum, sha256File, Remove,
    redactAndLogError.
  intros H.
  repeat case_match; simplify_eq; cbn;
    (eexists; split; [rewrite <- ?app_assoc; reflexivity|]);
    cbn; eauto.
Qed.

Lemma renameLoop_logged k pp fl : ∀ dst memo w ex w',
  renameLoop X o k pp dst fl memo w = (ex, w') →
  ∃ evs, trace w' = trace w ++ evs ∧
         match ex with
         | LoopReturn n err => n = 0 ∧ ∃ action, logged evs = [(action, err)]
         | LoopDone _ => logged evs = []
         end.
Proof.
  induction k as [|k IH]; intros dst memo w ex w'; cbn [renameLoop].
  { intros [= <- <-]. exists []. by rewrite app_nil_r. }
  destruct (loopBody X o (S k) pp dst fl memo w) as [bex w1] eqn:HB.
  apply loopBody_logged in HB as (evs1 & T1 & L1).
  destruct bex as [n err| |memo1].
  - intros [= <- <-]. by exists evs1.
  - intros [= <- <-]. by exists evs1.
  - intros (evs2 & T2 & L2)%IH. exists (evs1 ++ evs2).
    split; [by rewrite T2, T1, app_assoc|].
    rewrite logged_app, L1. done.
Qed.

Lemma finalize_logged pp dst fl w res w' :
  finalize X o pp dst fl w = (res, w') →
  ∃ evs, trace w' = trace w ++ evs ∧
         logsItsError evs res ∧
         (logged evs = [] → res.2 = None ∨ res = (0, Some tooManyRetries)).
Proof.
  unfold finalize.
  destruct (renameLoop X o 10 pp dst fl None w) as [ex w1] eqn:HL.
  apply renameLoop_logged in HL as (evs & T & L).
  destruct ex as [n err|m].
  - intros [= <- <-]. destruct L as (-> & action & L).
    exists evs. split_and!; [done| |by rewrite L].
    right. by exists action.
  - destruct (Z.of_nat m <=? 0).
    + intros [= <- <-]. exists evs. split_and!; [done|by left|by right].
    + unfold sendFileNotify. intros [= <- <-]. exists (evs ++ [EvNotify]).
      cbn. split_and!; [by rewrite T, <- app_assoc| |by left].
      left. by rewrite logged_app, L.
Qed.

Lemma OpenFile_trace pp w :
  trace (OpenFile o pp w).2 = trace w ++ [EvOpenFile pp].
Proof. unfold OpenFile. by repeat case_match. Qed.

(** Lines 124-241 and the deferred calls. *)
Lemma receiveAndPublish_logged avoid key pp dst r offset length f w res w' :
  receiveAndPublish X o avoid key pp dst r offset length f w = (res, w') →
  ∃ evs, trace w' = trace w ++ evs ∧
         logsItsError evs res ∧
         (logged evs = [] → res.2 = None ∨ res = (0, Some tooManyRetries)).
Proof.
  unfold receiveAndPublish.
  pose proof (OpenFile_trace pp w) as T1.
  destruct (OpenFile o pp w) as [[e|] w1]; cbn in T1.
  { unfold redactAndLogError. intros [= <- <-]. eexists [_; _].
    cbn. split_and!; [by rewrite T1, <- app_assoc| |done].
    right. by eexists. }
  (* the deferred calls log nothing *)
  assert (∀ (res : Z * goerror) err w4 evs,
    trace w4 = trace w1 ++ evs →
    logsItsError evs res →
    (logged evs = [] → res.2 = None ∨ res = (0, Some tooManyRetries)) →
    ∃ evs', trace (deferredCleanup o avoid pp err w4) = trace w ++ evs' ∧
            logsItsError evs' res ∧
            (logged evs' = [] → res.2 = None ∨ res = (0, Some tooManyRetries)))
    as Hdefer.
  { intros res' err w4 evs T4 L4 U4.
    assert (∃ tail, trace (deferredCleanup o avoid pp err w4)
                      = trace w4 ++ tail ∧ logged tail = [])
      as (tail & T5 & L5).
    { unfold deferredCleanup, Close, Remove.
      repeat case_match; simplify_eq; cbn;
        (eexists; split; [rewrite <- ?app_assoc; reflexivity|]); done. }
    exists ([EvOpenFile pp] ++ evs ++ tail).
    assert (logged ([EvOpenFile pp] ++ evs ++ tail) = logged evs) as EL.
    { cbn. by rewrite logged_app, L5, app_nil_r. }
    split_and!.
    - by rewrite T5, T4, T1, <- !app_assoc.
    - unfold logsItsError. by rewrite EL.
    - by rewrite EL. }
  destruct (resume o pp offset w1) as [[res0|pos] w2] eqn:HR;
    apply resume_logged in HR as (evs2 & T2 & L2).
  { intros [= <- <-]. destruct L2 as (Hz & action & L2).
    apply (Hdefer _ _ _ evs2); [done| |by rewrite L2].
    right. by exists action. }
  destruct (copyAndFinalize X o avoid key pp dst r pos offset length f w2)
    as [[res1 err] w4] eqn:HC.
  intros [= <- <-].
  revert HC. unfold copyAndFinalize.
  destruct (ioCopy o key pp r 0 pos 0 f w2) as [[[copyLength cerr] f1] w3] eqn:HI.
  apply ioCopy_logged in HI as (evs3 & T3 & L3).
  assert (∀ action e' w5 (res : Z * goerror),
    trace w5 = trace w3 ++ [EvLogf action e'] → res = (0, e') → e' ≠ None →
    ∃ evs, trace w5 = trace w1 ++ evs ∧ logsItsError evs res ∧
           (logged evs = [] → res.2 = None ∨ res = (0, Some tooManyRetries)))
    as Hfail.
  { intros action e' w5 res' T5 -> He'.
    exists (evs2 ++ evs3 ++ [EvLogf action e']).
    assert (logged (evs2 ++ evs3 ++ [EvLogf action e']) = [(action, e')]) as EL.
    { by rewrite !logged_app, L2, L3. }
    split_and!; [by rewrite T5, T3, T2, <- !app_assoc| |by rewrite EL].
    right. by exists action. }
  destruct cerr as [e|].
  { unfold redactAndLogError. intros [= <- <- <-].
    destruct (Hfail "Copy" (redactErr (Some e)) (emit (EvLogf "Copy" (redactErr (Some e))) w3)
                (0, redactErr (Some e))) as (evs & T & L & U);
      [done|done|apply redactErr_Some|]. by eapply Hdefer. }
  destruct ((0 <=? length) && negb (copyLength =? length)).
  { unfold redactAndLogError. intros [= <- <- <-].
    set (e' := redactErr (Some (errorString "copied an unexpected number of bytes"))).
    destruct (Hfail "Copy" e' (emit (EvLogf "Copy" e') w3) (0, e'))
      as (evs & T & L & U); [done|done|apply redactErr_Some|].
    by eapply Hdefer. }
  unfold Close. destruct (closeFault o) as [e|].
  { unfold redactAndLogError. intros [= <- <- <-].
    eapply (Hdefer _ _ _ (evs2 ++ evs3 ++ [EvClose; EvLogf "Close" (redactErr (Some e))])).
    - cbn. by rewrite T3, T2, <- !app_assoc.
    - right. exists "Close". by rewrite !logged_app, L2, L3.
    - by rewrite !logged_app, L2, L3. }
  destruct avoid.
  { unfold storeIncoming, sendFileNotify. intros [= <- <- <-].
    eapply (Hdefer _ _ _ (evs2 ++ evs3 ++ [EvClose; EvNotify])).
    - cbn. by rewrite T3, T2, <- !app_assoc.
    - left. by rewrite !logged_app, L2, L3.
    - by left. }
  destruct (finalize X o pp dst (wrap64 (offset + copyLength)) (emit EvClose w3))
    as [res2 w5] eqn:HF.
  intros [= <- <- <-].
  apply finalize_logged in HF as (fin & T5 & L5 & U5).
  eapply (Hdefer _ _ _ (evs2 ++ evs3 ++ [EvClose] ++ fin)).
  - rewrite T5. cbn. by rewrite T3, T2, <- !app_assoc.
  - unfold logsItsError in *. by rewrite !logged_app, L2, L3.
  - by rewrite !logged_app, L2, L3.
Qed.

(** X15. A call writes at most one line to the log, and the line carries
    the error the call returns, with the length 0; a call that returns an
    error and logs nothing returns one of the errors of the checks
    ([ErrNoTaildrop], [ErrNotAccessible], the error of [joinDir]),
    [ErrFileExists], or the error of line 237. *)
Theorem PutFile_logs_what_it_returns om id baseName r offset length w :
  logsItsError (newEvents w (PutFile X o om id baseName r offset length w).2)
               (PutFile X o om id baseName r offset length w).1 ∧
  (logged (newEvents w (PutFile X o om id baseName r offset length w).2) = [] →
   (PutFile X o om id baseName r offset length w).1.2 ≠ None →
   (PutFile X o om id baseName r offset length w).1.2 = Some ErrNoTaildrop ∨
   (PutFile X o om id baseName r offset length w).1.2 = Some ErrNotAccessible ∨
   (PutFile X o om id baseName r offset length w).1.2 = Some ErrFileExists ∨
   (PutFile X o om id baseName r offset length w).1.2 = Some tooManyRetries ∨
   ∃ m, om = Some m ∧
        (joinDir X m baseName).2
          = (PutFile X o om id baseName r offset length w).1.2).
Proof.
  assert (newEvents w w = []) as Hsame.
  { apply newEvents_runs. by rewrite app_nil_r. }
  unfold PutFile.
  destruct om as [m|]; [|cbn; rewrite Hsame; split; [by left|by auto]].
  destruct (decide (Dir m = ""));
    [cbn; rewrite Hsame; split; [by left|by auto]|].
  destruct (negb (CanTaildrop X));
    [cbn; rewrite Hsame; split; [by left|by auto]|].
  destruct (bool_decide (distroGet X = Unraid) && negb (DirectFileMode m));
    [cbn; rewrite Hsame; split; [by left|by auto]|].
  destruct (joinDir X m baseName) as [dstPath [e|]] eqn:HJ.
  { cbn. rewrite Hsame. split; [by left|]. intros _ _. do 4 right.
    exists m. by rewrite HJ. }
  destruct (LoadOrInit _ _ w) as [[inFile loaded] w1] eqn:HL.
  apply LoadOrInit_factory in HL as HL'.
  destruct loaded.
  { destruct HL' as [_ ->]. cbn. rewrite Hsame. split; [by left|by auto]. }
  destruct HL' as [Hfree _].
  assert (trace w1 = trace w) as T1.
  { unfold LoadOrInit, factory, Now in HL. rewrite Hfree in HL. by simplify_eq. }
  destruct (receiveAndPublish X o _ _ _ _ r offset length inFile w1)
    as [res w7] eqn:HA.
  apply receiveAndPublish_logged in HA as (evs & T & L & U).
  cbn. rewrite (newEvents_runs w (Delete _ w7) evs)
    by (unfold Delete; cbn; by rewrite T, T1).
  split; [done|]. intros Hnil Herr.
  destruct (U Hnil) as [? | ->]; [done|]. cbn. by auto.
Qed.
End Logged.

(** ** The notification of a received file *)

Section Notified.
Variable X : Ext.
Variable o : Oracle.

Lemma finalize_notifies pp dst fl w n w' :
  finalize X o pp dst fl w = ((n, None), w') →
  ∃ evs, trace w' = trace w ++ evs ++ [EvNotify].
Proof.
  unfold finalize.
  destruct (renameLoop X o 10 pp dst fl None w) as [ex w1] eqn:HL.
  apply renameLoop_logged in HL as HT. destruct HT as (evs & T & _).
  destruct ex as [n0 err0|m].
  - intros [= ? ? ?]. subst.
    apply renameLoop_more in HL as (_ & _ & _ & _ & _ & Herr). done.
  - destruct (Z.of_nat m <=? 0); [done|].
    unfold sendFileNotify. intros [= ? ?]. subst. exists evs.
    cbn. by rewrite T, <- app_assoc.
Qed.

Lemma receiveAndPublish_notifies avoid key pp dst r offset length f w res w' :
  receiveAndPublish X o avoid key pp dst r offset length f w = (res, w') →
  res.2 = None →
  (∃ evs, trace w' = trace w ++ evs ++ [EvNotify; EvClose]) ∨
  (offset ≠ 0 ∧ res.1 = 0).
Proof.
  unfold receiveAndPublish.
  pose proof (OpenFile_trace o pp w) as T1.
  destruct (OpenFile o pp w) as [[e|] w1]; cbn in T1.
  { unfold redactAndLogError. intros [= <- <-] Hres.
    by apply redactErr_Some in Hres. }
  destruct (resume o pp offset w1) as [[res0|pos] w2] eqn:HR.
  { apply resume_inl in HR as (Hz & Hoff & _). intros [= <- <-] _. by right. }
  apply resume_logged in HR as (evs2 & T2 & _).
  destruct (copyAndFinalize X o avoid key pp dst r pos offset length f w2)
    as [[res1 err] w4] eqn:HC.
  intros [= <- <-] Hres. left.
  revert HC Hres. unfold copyAndFinalize.
  destruct (ioCopy o key pp r 0 pos 0 f w2) as [[[copyLength cerr] f1] w3] eqn:HI.
  apply ioCopy_logged in HI as (evs3 & T3 & _).
  destruct cerr as [e|].
  { unfold redactAndLogError. intros [= <- <- <-] Hres. cbn in Hres.
    by apply redactErr_Some in Hres. }
  destruct ((0 <=? length) && negb (copyLength =? length)).
  { unfold redactAndLogError. intros [= <- <- <-] Hres. cbn in Hres.
    by apply redactErr_Some in Hres. }
  unfold Close. destruct (closeFault o) as [e|].
  { unfold redactAndLogError. intros [= <- <- <-] Hres. cbn in Hres.
    by apply redactErr_Some in Hres. }
  destruct avoid.
  { unfold storeIncoming, sendFileNotify. intros [= <- <- <-] _.
    unfold deferredCleanup, Close. cbn.
    exists ([EvOpenFile pp] ++ evs2 ++ evs3 ++ [EvClose]).
    by rewrite T3, T2, T1, <- !app_assoc. }
  destruct (finalize X o pp dst (wrap64 (offset + copyLength)) (emit EvClose w3))
    as [[n ferr] w5] eqn:HF.
  intros [= <- <- <-] Hres. cbn in Hres. subst ferr.
  apply finalize_notifies in HF as (fin & T5).
  unfold deferredCleanup, Close. cbn.
  exists ([EvOpenFile pp] ++ evs2 ++ evs3 ++ [EvClose] ++ fin).
  rewrite T5. cbn. by rewrite T3, T2, T1, <- !app_assoc.
Qed.

(** X16. Lines 177 and 240: a call that returns no error ends with the
    notification, followed only by the deferred [Close]: nothing is
    renamed, removed or written after the callback has run.  The return of
    line 151, at a non-zero offset with the length 0, is the one return
    without an error that does not notify. *)
Theorem PutFile_success_ends_with_notify om id baseName r offset length w :
  (PutFile X o om id baseName r offset length w).1.2 = None →
  (∃ evs, newEvents w (PutFile X o om id baseName r offset length w).2
            = evs ++ [EvNotify; EvClose]) ∨
  (offset ≠ 0 ∧ (PutFile X o om id baseName r offset length w).1.1 = 0).
Proof.
  destruct (PutFile X o om id baseName r offset length w) as [res w'] eqn:HP.
  cbn [fst snd].
  apply PutFile_inv in HP
    as [(_ & _ & Hn & _)|(m & f & w1 & w7 & -> & HU & Hfree & HL & HA & ->)];
    [done|].
  intros Hres.
  assert (trace w1 = trace w) as T1.
  { unfold LoadOrInit, factory, Now in HL. rewrite Hfree in HL. by simplify_eq. }
  destruct (receiveAndPublish_notifies _ _ _ _ _ _ _ _ _ _ _ HA Hres)
    as [[evs T]|?]; [left|by right].
  exists evs. apply newEvents_runs. unfold Delete. cbn. by rewrite T, T1.
Qed.
End Notified.

Lemma PutFile_success_ends_with_notify_witness :
  ∃ evs, newEvents emptyWorld
           (PutFile exampleExt (quietOracle 100) (Some exampleManager) "alice"
                    "photo.jpg" exampleReader 0 3 emptyWorld).2
         = evs ++ [EvNotify; EvClose].
Proof.
  destruct (PutFile_success_ends_with_notify exampleExt (quietOracle 100)
              (Some exampleManager) "alice" "photo.jpg" exampleReader 0 3
              emptyWorld) as [H|[H _]].
  - reflexivity.
  - exact H.
  - exfalso. by apply H.
Defined.
